(** * popgen: the POP-to-WCNF encoder ([src/popgen/encoder.py])

    A shallow embedding of [encode_POP] and the properties of the clause
    generator, the weights and the two files it writes.

    Conventions of the embedding.
    - Python sets ([pop.F], [pop.A], [a.pres], [a.adds], [a.dels],
      [adders[f]], [deleters[f]], [cnf.vars()]) are [gset]s; iterating over
      one is [elements], whose order is fixed but otherwise unspecified, as
      the order of iteration over a Python set is.
    - Python dicts that are only looked up are [gmap]s; [var_labels], which is
      iterated in insertion order when the map file is written, is an
      association list.
    - Python integers are [Z]; strings are [string] (ASCII text).
    - An exception is a value of [exn]; code that can raise returns a
      [result].
    - The lifter's classes (the POP, its actions and facts) and the Boolean
      engine ([bauhaus], [nnf]) are not part of [encoder.py]: the action and
      fact objects, the two methods of the POP and the engine's compilation,
      variable set and DIMACS printer are the fields of the classes
      [Domain], [Lifter] and [Engine], and every property holds for all
      their instances. *)

From Stdlib Require Import String Ascii DecimalString DecimalPos DecimalZ.
From Stdlib Require Import ZArith Lia.
From stdpp Require Import base option list gmap sets strings.

Open Scope Z_scope.

Set Warnings "-register-all,-clear-no-such-hyp".

(** ** Python string primitives used by the encoder *)

Module PyStr.

Definition dquote : string := String "034"%char EmptyString.
Definition newline : ascii := "010"%char.

(** ASCII white space as [str.split()] and [str.strip()] see it. *)
Definition is_space (c : ascii) : bool :=
  let n := nat_of_ascii c in
  ((n =? 32) || ((9 <=? n) && (n <=? 13)) || ((28 <=? n) && (n <=? 31)))%nat.

Definition is_digit (c : ascii) : bool :=
  let n := nat_of_ascii c in ((48 <=? n) && (n <=? 57))%nat.

Fixpoint lstrip (s : string) : string :=
  match s with
  | String c s' => if is_space c then lstrip s' else s
  | EmptyString => EmptyString
  end.

(** [s.strip()] *)
Definition strip (s : string) : string :=
  String.rev (lstrip (String.rev (lstrip s))).

(** [s.split(sep)] for a one-character separator: empty pieces are kept.
    [cur] is the piece being read, reversed. *)
Fixpoint split_go (sep : ascii) (cur : string) (s : string) : list string :=
  match s with
  | EmptyString => [String.rev cur]
  | String c s' =>
      if Ascii.eqb c sep then String.rev cur :: split_go sep EmptyString s'
      else split_go sep (String c cur) s'
  end.

Definition split_lines (s : string) : list string :=
  split_go newline EmptyString s.

(** [s.split()]: split on runs of white space, no empty pieces. *)
Fixpoint split_ws_go (cur : string) (s : string) : list string :=
  match s with
  | EmptyString =>
      match cur with EmptyString => [] | _ => [String.rev cur] end
  | String c s' =>
      if is_space c then
        match cur with
        | EmptyString => split_ws_go EmptyString s'
        | _ => String.rev cur :: split_ws_go EmptyString s'
        end
      else split_ws_go (String c cur) s'
  end.

Definition split_ws (s : string) : list string := split_ws_go EmptyString s.

(** [sep.join(l)] *)
Fixpoint join (sep : string) (l : list string) : string :=
  match l with
  | [] => EmptyString
  | [x] => x
  | x :: l' => x +:+ sep +:+ join sep l'
  end.

(** [needle in s] *)
Fixpoint contains (needle s : string) : bool :=
  String.prefix needle s ||
  match s with
  | EmptyString => false
  | String _ s' => contains needle s'
  end.

(** The digits of an integer literal: single underscores may separate
    digits. [prev] tells whether the previous character was a digit. *)
Fixpoint digits_of (prev : bool) (s : string) : option string :=
  match s with
  | EmptyString => if prev then Some EmptyString else None
  | String c s' =>
      if is_digit c then String c <$> digits_of true s'
      else if Ascii.eqb c "_" then
        (if prev then digits_of false s' else None)
      else None
  end.

Definition parse_nat (s : string) : option Z :=
  ds ← digits_of false s;
  u ← NilZero.uint_of_string ds;
  Some (Z.of_uint u).

(** [int(s)] on text; [None] is [ValueError]. *)
Definition py_int (s : string) : option Z :=
  match strip s with
  | EmptyString => None
  | String c s' =>
      if Ascii.eqb c "-" then Z.opp <$> parse_nat s'
      else if Ascii.eqb c "+" then parse_nat s'
      else parse_nat (String c s')
  end.

(** [str(n)] for an integer, as an f-string prints it. *)
Definition str_int (n : Z) : string := NilZero.string_of_int (Z.to_int n).

(** *** [json.dumps(d, indent=4)] for a dict from integers to strings *)

Definition backslash : ascii := "092"%char.

Definition hex_digit (n : nat) : ascii :=
  ascii_of_nat (if (n <? 10)%nat then 48 + n else 87 + n).

(** One character of a JSON string: the short escapes, a [\u00xx] escape
    for every other character outside the printable ASCII range. *)
Definition json_escape_char (c : ascii) : string :=
  let n := nat_of_ascii c in
  let short (e : ascii) := String backslash (String e EmptyString) in
  if (n =? 34)%nat then short "034"%char
  else if (n =? 92)%nat then short backslash
  else if (n =? 8)%nat then short "b"%char
  else if (n =? 12)%nat then short "f"%char
  else if (n =? 10)%nat then short "n"%char
  else if (n =? 13)%nat then short "r"%char
  else if (n =? 9)%nat then short "t"%char
  else if ((32 <=? n) && (n <=? 126))%nat then String c EmptyString
  else String backslash
         (String "u" (String "0" (String "0"
           (String (hex_digit (n / 16)) (String (hex_digit (n mod 16))
              EmptyString))))).

Fixpoint json_escape (s : string) : string :=
  match s with
  | EmptyString => EmptyString
  | String c s' => json_escape_char c +:+ json_escape s'
  end.

Definition json_string (s : string) : string :=
  dquote +:+ json_escape s +:+ dquote.

(** A key of the dict is an integer and is written as a string. *)
Definition json_item (kv : Z * string) : string :=
  "    " +:+ dquote +:+ str_int kv.1 +:+ dquote +:+ ": " +:+ json_string kv.2.

Definition json_dumps (d : list (Z * string)) : string :=
  match d with
  | [] => "{}"
  | _ =>
      "{" +:+ String newline EmptyString
      +:+ join ("," +:+ String newline EmptyString) (json_item <$> d)
      +:+ String newline EmptyString +:+ "}"
  end.

(** Every character of the string passes the test. *)
Fixpoint all_chars (P : ascii → bool) (s : string) : bool :=
  match s with
  | EmptyString => true
  | String c s' => P c && all_chars P s'
  end.

(** A string without white space, and a non-empty one: what [str.split()]
    returns. *)
Definition no_space (s : string) : bool := all_chars (λ c, negb (is_space c)) s.

Definition is_token (s : string) : bool :=
  match s with
  | EmptyString => false
  | _ => no_space s
  end.

(** A string that holds no line break. *)
Definition one_line (s : string) : bool :=
  all_chars (λ c, negb (Ascii.eqb c newline)) s.

End PyStr.

(** ** Exceptions and results *)

Inductive exn : Type := KeyError | AssertionError | ValueError | IndexError.

Inductive result (X : Type) : Type :=
| Ok (x : X)
| Raise (e : exn).
Arguments Ok {X} x.
Arguments Raise {X} e.

#[global] Instance result_ret : MRet result := λ _ x, Ok x.
#[global] Instance result_bind : MBind result := λ _ _ f m,
  match m with Ok x => f x | Raise e => Raise e end.

(** A [for] loop whose body appends to a list and may raise: the pieces
    appended by the iterations, in order. *)
Fixpoint for_each {X Y : Type} (l : list X) (body : X → result (list Y))
  : result (list Y) :=
  match l with
  | [] => Ok []
  | x :: l' => ys ← body x; yss ← for_each l' body; Ok (ys ++ yss)
  end.

(** A [for] loop that updates a state and may raise. *)
Fixpoint for_state {X S : Type} (l : list X) (body : S → X → result S) (s : S)
  : result S :=
  match l with
  | [] => Ok s
  | x :: l' => s' ← body s x; for_state l' body s'
  end.

(** Whether a computation ended normally, and its value then. *)
Definition is_ok {X : Type} (r : result X) : bool :=
  match r with
  | Ok _ => true
  | Raise _ => false
  end.

Definition get_ok {X : Type} (d : X) (r : result X) : X :=
  match r with
  | Ok x => x
  | Raise _ => d
  end.

(** ** The collaborators of the encoder

    The lifter's action and fact objects. Equality on [action] is object
    identity ([is], [==] and set membership coincide on them). [pres],
    [adds] and [dels] are the attributes of an action object; [str_action]
    and [str_fact] are [str(a)] and [str(f)]. *)
Class Domain : Type := {
  action : Type;
  fact : Type;
  action_eq_dec :: EqDecision action;
  action_countable :: Countable action;
  fact_eq_dec :: EqDecision fact;
  fact_countable :: Countable fact;
  pres : action → gset fact;
  adds : action → gset fact;
  dels : action → gset fact;
  str_action : action → string;
  str_fact : fact → string
}.

(** Modelled from the spec: the lifter's POP class, which is not part of
    [encoder.py]: "the set F of facts, set A of actions, the init/goal
    actions, and a set of existing ordering/causal links (pairs of
    actions)". *)
Record POP `{Domain} : Type := mkPOP {
  pop_F : gset fact;
  pop_A : gset action;
  pop_init : action;
  pop_goal : action;
  pop_links : list (action * action)
}.

(** The two methods of the POP that the encoder calls:
    [pop.transativly_close()], which updates the POP in place, and
    [pop.get_links()]. *)
Class Lifter `{Domain} : Type := {
  transativly_close : POP → POP;
  get_links : POP → list (action * action)
}.

(** [Hashable] makes two proposition objects equal when the hashes of
    their printed forms (for [Action], of its action) are equal, so a
    proposition built a second time from the same fields is the same
    dictionary key and the same variable. The embedding uses structural
    equality of the fields for this. The two agree when actions and facts
    print apart: [hashed] below is what the code hashes, and [hashed_inj]
    shows that it then determines the fields. Where a property depends on
    propositions being told apart, it is stated on [hashed]. *)
Inductive proposition `{Domain} : Type :=
| Action (name : action)
| Order (a1 a2 : action)
| Support (a1 : action) (p : fact) (a2 : action).

#[global] Instance proposition_eq_dec `{Domain} : EqDecision proposition.
Proof. solve_decision. Defined.

#[global] Instance proposition_countable `{Domain} : Countable proposition.
Proof.
  refine (inj_countable'
    (λ x, match x with
          | Action a => inl a
          | Order a1 a2 => inr (inl (a1, a2))
          | Support a1 p a2 => inr (inr (a1, p, a2))
          end)
    (λ y, match y with
          | inl a => Action a
          | inr (inl (a1, a2)) => Order a1 a2
          | inr (inr (a1, p, a2)) => Support a1 p a2
          end) _).
  by intros [].
Defined.

(** The formulas built with the engine's operators: [~x] is [FNot],
    [x & y] is [FAnd [x; y]], [x | y] is [FOr [x; y]], [x >> y] is [FImp],
    [Or(l)] is [FOr l] and [And(l)] is [FAnd l]. *)
Inductive formula `{Domain} : Type :=
| FVar (x : proposition)
| FNot (f : formula)
| FAnd (fs : list formula)
| FOr (fs : list formula)
| FImp (f g : formula).

(** A variable of the compiled CNF is named by a proposition object or is
    an auxiliary variable of the engine. *)
Inductive name `{Domain} (aux : Type) : Type :=
| NProp (x : proposition)
| NAux (x : aux).
Arguments NProp {_ _} x.
Arguments NAux {_ _} x.

#[global] Instance name_eq_dec `{Domain} `{EqDecision aux} : EqDecision (name aux).
Proof. solve_decision. Defined.

#[global] Instance name_countable `{Domain} `{Countable aux} : Countable (name aux).
Proof.
  refine (inj_countable'
    (λ n, match n with NProp x => inl x | NAux x => inr x end)
    (λ s, match s with inl x => NProp x | inr x => NAux x end) _).
  by intros [].
Defined.

(** The Boolean engine: [And(clauses).compile().simplify().to_CNF()],
    [cnf.vars()], [dimacs.dumps(cnf, mode='cnf', var_labels=...)], and [str]
    of an auxiliary variable. *)
Class Engine `{Domain} : Type := {
  aux : Type;
  aux_eq_dec :: EqDecision aux;
  aux_countable :: Countable aux;
  str_aux : aux → string;
  CNF : Type;
  compile : list formula → CNF;
  cnf_vars : CNF → gset (name aux);
  dumps : CNF → gmap (name aux) Z → string
}.

(** ** The encoder *)

Section Encoder.

Context `{D : Domain} `{L : !Lifter} `{E : !Engine}.

(** Command-line options read by the encoder. *)
Record cmdargs : Type := mkArgs {
  serial : bool;
  allact : bool;
  deorder : bool
}.

(** *** Lines 31-42: the adders and deleters indices *)

Local Abbreviation index := (gmap fact (gset action)).

(** [for f in F: adders[f] = set([]); deleters[f] = set([])] *)
Definition empty_indices (F : gset fact) : index * index :=
  foldl (λ m f, (<[f := ∅]> m.1, <[f := ∅]> m.2)) (∅, ∅) (elements F).

(** [m[f].add(a)]: [KeyError] when [f] is not a key of [m]. *)
Definition index_add (a : action) (m : index) (f : fact) : result index :=
  match m !! f with
  | Some s => Ok (<[f := s ∪ {[a]}]> m)
  | None => Raise KeyError
  end.

(** Lines 39-42, the body of the loop over [A]. *)
Definition add_action (m : index * index) (a : action)
  : result (index * index) :=
  adders ← for_state (elements (adds a)) (index_add a) m.1;
  deleters ← for_state (elements (dels a)) (index_add a) m.2;
  Ok (adders, deleters).

Definition build_indices (F : gset fact) (A : gset action)
  : result (index * index) :=
  for_state (elements A) add_action (empty_indices F).

(** [m[f]] *)
Definition index_get (m : index) (f : fact) : result (gset action) :=
  match m !! f with
  | Some s => Ok s
  | None => Raise KeyError
  end.

(** *** Lines 46-90: the three families of propositions *)

(** [__str__] *)
Definition str_prop (x : proposition) : string :=
  match x with
  | Action a => str_action a +:+ " in plan"
  | Order a1 a2 => str_action a1 +:+ " -> " +:+ str_action a2
  | Support a1 p a2 =>
      str_action a1 +:+ " supports " +:+ str_fact p +:+ " for " +:+ str_action a2
  end.

(** [__repr__] (and [_prop_name]) *)
Definition repr_prop (x : proposition) : string :=
  match x with
  | Action a => "Action(" +:+ str_action a +:+ ")"
  | Order a1 a2 => "Order(" +:+ str_action a1 +:+ ", " +:+ str_action a2 +:+ ")"
  | Support a1 p a2 =>
      "Support(" +:+ str_action a1 +:+ ", " +:+ str_fact p +:+ ", "
      +:+ str_action a2 +:+ ")"
  end.

(** Truth of a formula under an assignment of the propositions: an empty
    disjunction is false and an empty conjunction is true. *)
Fixpoint eval (v : proposition → bool) (f : formula) : bool :=
  match f with
  | FVar x => v x
  | FNot f => negb (eval v f)
  | FAnd fs => forallb (eval v) fs
  | FOr fs => existsb (eval v) fs
  | FImp f g => implb (eval v f) (eval v g)
  end.

(** [v] satisfies every clause of the list. *)
Definition satisfies (v : proposition → bool) (clauses : list formula) : Prop :=
  ∀ c, c ∈ clauses → eval v c = true.

(** *** Lines 92-94: the proposition lists *)

Definition actions (A : gset action) : list proposition :=
  a ← elements A; [Action a].

Definition orders (A : gset action) : list proposition :=
  a1 ← elements A; a2 ← elements A; [Order a1 a2].

(** [adders[p]] raises [KeyError] for a precondition that is not in [F]. *)
Definition supports (A : gset action) (adders : index)
  : result (list proposition) :=
  for_each (elements A) (λ a2,
    for_each (elements (pres a2)) (λ p,
      s ← index_get adders p;
      Ok (a1 ← elements s; [Support a1 p a2]))).

(** *** Lines 104-162: the hard clauses, family by family

    [A] is the list that iterating over [pop.A] yields. *)

Definition irreflexive_clauses (A : list action) : list formula :=
  a ← A; [FNot (FVar (Order a a))].

Definition transitivity_clauses (A : list action) : list formula :=
  a1 ← A; a2 ← A; a3 ← A;
  [FImp (FAnd [FVar (Order a1 a2); FVar (Order a2 a3)]) (FVar (Order a1 a3))].

Definition order_action_clauses (A : list action) : list formula :=
  a1 ← A; a2 ← A;
  [FImp (FVar (Order a1 a2)) (FAnd [FVar (Action a1); FVar (Action a2)])].

Definition bracket_clauses (A : list action) (init goal : action)
  : list formula :=
  a ← A;
  (if decide (a ≠ init) then [FImp (FVar (Action a)) (FVar (Order init a))]
   else []) ++
  (if decide (a ≠ goal) then [FImp (FVar (Action a)) (FVar (Order a goal))]
   else []).

Definition init_goal_clauses (init goal : action) : list formula :=
  [FVar (Action init); FVar (Action goal)].

(** [[x for x in adders[p] if x is not a2]] *)
Definition other_adders (s : gset action) (a2 : action) : list action :=
  filter (λ x, x ≠ a2) (elements s).

(** Line 134, the clause of family 7 for [a2] and [p]. *)
Definition precondition_clause (s : gset action) (p : fact) (a2 : action)
  : formula :=
  FImp (FVar (Action a2))
       (FOr ((λ a1, FVar (Support a1 p a2)) <$> other_adders s a2)).

Definition precondition_clauses (A : list action) (adders : index)
  : result (list formula) :=
  for_each A (λ a2,
    for_each (elements (pres a2)) (λ p,
      s ← index_get adders p;
      Ok [precondition_clause s p a2])).

(** Line 142. *)
Definition support_order_clause (a1 : action) (p : fact) (a2 : action)
  : formula :=
  FImp (FVar (Support a1 p a2)) (FVar (Order a1 a2)).

(** Line 147: [~Action(ad) | Order(ad, a1) | Order(a2, ad)] associates to
    the left. *)
Definition threat_clause (a1 : action) (p : fact) (a2 ad : action)
  : formula :=
  FImp (FVar (Support a1 p a2))
       (FOr [FOr [FNot (FVar (Action ad)); FVar (Order ad a1)];
             FVar (Order a2 ad)]).

Definition threat_clauses (d : gset action) (a1 : action) (p : fact)
  (a2 : action) : list formula :=
  ad ← elements d;
  if decide (ad ∉ [a1; a2]) then [threat_clause a1 p a2 ad] else [].

Definition support_clauses (A : list action) (adders deleters : index)
  : result (list formula) :=
  for_each A (λ a2,
    for_each (elements (pres a2)) (λ p,
      s ← index_get adders p;
      for_each (other_adders s a2) (λ a1,
        d ← index_get deleters p;
        Ok (support_order_clause a1 p a2 :: threat_clauses d a1 p a2)))).

Definition serial_clause (a1 a2 : action) : formula :=
  FImp (FAnd [FVar (Action a1); FVar (Action a2)])
       (FOr [FVar (Order a1 a2); FVar (Order a2 a1)]).

Definition serial_clauses (A : list action) : list formula :=
  a1 ← A; a2 ← A;
  if decide (a1 ≠ a2) then [serial_clause a1 a2] else [].

Definition allact_clauses (A : list action) : list formula :=
  a ← A; [FVar (Action a)].

Definition deorder_clauses (links : list (action * action)) : list formula :=
  l ← links; [FNot (FVar (Order l.2 l.1))].

(** The clauses that are emitted whatever the options are. *)
Definition base_clauses (pop : POP) (adders deleters : index)
  : result (list formula) :=
  let A := elements (pop_A pop) in
  pre ← precondition_clauses A adders;
  sup ← support_clauses A adders deleters;
  Ok (irreflexive_clauses A ++ transitivity_clauses A
      ++ order_action_clauses A
      ++ bracket_clauses A (pop_init pop) (pop_goal pop)
      ++ init_goal_clauses (pop_init pop) (pop_goal pop)
      ++ pre ++ sup).

Definition option_clauses (pop : POP) (args : cmdargs) : list formula :=
  let A := elements (pop_A pop) in
  (if serial args then serial_clauses A else [])
  ++ (if allact args then allact_clauses A else [])
  ++ (if deorder args then deorder_clauses (get_links pop) else []).

(** The list [clauses] when line 164 is reached. *)
Definition hard_clauses (pop : POP) (args : cmdargs) (adders deleters : index)
  : result (list formula) :=
  base ← base_clauses pop adders deleters;
  Ok (base ++ option_clauses pop args).

(** *** Lines 164-168: the engine *)

Definition str_name (n : name aux) : string :=
  match n with
  | NProp x => str_prop x
  | NAux x => str_aux x
  end.

(** [dict(enumerate(vars, start=1))], in insertion order. *)
Definition var_labels (vars : list (name aux)) : list (Z * name aux) :=
  imap (λ i n, (Z.of_nat (S i), n)) vars.

(** [{v: k for k, v in var_labels.items()}]: a later item replaces an
    earlier one with the same key. *)
Definition var_labels_inverse (labels : list (Z * name aux)) : gmap (name aux) Z :=
  foldl (λ m kv, <[kv.2 := kv.1]> m) ∅ labels.

(** *** Lines 170-172: the weights *)

Definition len {X : Type} (l : list X) : Z := Z.of_nat (length l).

Definition order_cost : Z := 1.

Definition action_cost (orders : list proposition) : Z := len orders + 1.

Definition top_cost (orders actions : list proposition) : Z :=
  len orders * order_cost + len actions * action_cost orders + 1.

(** *** Lines 174-190: the lines of the WCNF file *)

(** [f"{cost} -{v} 0"] *)
Definition soft_line (cost v : Z) : string :=
  PyStr.str_int cost +:+ " -" +:+ PyStr.str_int v +:+ " 0".

(** One of the loops of lines 184-190. *)
Definition soft_lines (cost : Z) (inverse : gmap (name aux) Z)
  (props : list proposition) : result (list string) :=
  for_each props (λ x,
    match inverse !! NProp x with
    | Some v => Ok [soft_line cost v]
    | None => Raise KeyError
    end).

(** Line 182. *)
Definition hard_line (top : Z) (line : string) : string :=
  if decide (line ≠ EmptyString) then PyStr.str_int top +:+ " " +:+ line
  else line.

Definition wcnf_header (nv : string) (nc : Z) (actions orders : list proposition)
  : string :=
  "p wcnf " +:+ nv +:+ " " +:+ PyStr.str_int (nc + len actions + len orders)
  +:+ " " +:+ PyStr.str_int (top_cost orders actions).

(** Lines 176-178: the assertion on the header, the unpacking of its four
    fields and [int(nc)]. *)
Definition read_header (cnflines : list string) : result (string * Z) :=
  match cnflines with
  | [] => Raise IndexError
  | line0 :: _ =>
      if negb (PyStr.contains "p cnf" line0) then Raise AssertionError
      else
        match PyStr.split_ws line0 with
        | [_; _; nv; nc] =>
            match PyStr.py_int nc with
            | None => Raise ValueError
            | Some n => Ok (nv, n)
            end
        | _ => Raise ValueError
        end
  end.

Definition wcnf_lines (cnflines : list string) (inverse : gmap (name aux) Z)
  (actions orders : list proposition) : result (list string) :=
  h ← read_header cnflines;
  let top := top_cost orders actions in
  sa ← soft_lines (action_cost orders) inverse actions;
  so ← soft_lines order_cost inverse orders;
  Ok (wcnf_header h.1 h.2 actions orders
      :: (hard_line top <$> tail cnflines) ++ sa ++ so).

(** *** The whole function *)

(** The two files written at lines 192-196. *)
Record files : Type := mkFiles {
  wcnf_file : string;
  map_file : string
}.

(** Lines 25-164, run on the POP as [transativly_close] left it: the
    indices, the proposition lists, the clauses and their compilation. *)
Definition compile_POP (pop : POP) (args : cmdargs) : result CNF :=
  idx ← build_indices (pop_F pop) (pop_A pop);
  let adders := idx.1 in
  let deleters := idx.2 in
  _ ← supports (pop_A pop) adders;
  clauses ← hard_clauses pop args adders deleters;
  Ok (compile clauses).

(** [var_labels] and [var_labels_inverse] of a compiled CNF (lines 166-167),
    and the lines of its DIMACS text (lines 168 and 174). *)
Definition cnf_labels (cnf : CNF) : list (Z * name aux) :=
  var_labels (elements (cnf_vars cnf)).

Definition cnf_inverse (cnf : CNF) : gmap (name aux) Z :=
  var_labels_inverse (cnf_labels cnf).

Definition cnflines (cnf : CNF) : list string :=
  PyStr.split_lines (PyStr.strip (dumps cnf (cnf_inverse cnf))).

(** Lines 166-196. The console summary of lines 198-204 is not modelled. *)
Definition write_files (pop : POP) (cnf : CNF) : result files :=
  let actions := actions (pop_A pop) in
  let orders := orders (pop_A pop) in
  lines ← wcnf_lines (cnflines cnf) (cnf_inverse cnf) actions orders;
  Ok {| wcnf_file := PyStr.join (String PyStr.newline EmptyString) lines;
        map_file := PyStr.json_dumps (prod_map id str_name <$> cnf_labels cnf) |}.

Definition encode_body (pop : POP) (args : cmdargs) : result files :=
  cnf ← compile_POP pop args;
  write_files pop cnf.

(** [encode_POP(pop, cmdargs)]: the POP after the call, and the files
    written or the exception raised. Line 23 closes the POP first. *)
Definition encode_POP (pop : POP) (args : cmdargs) : POP * result files :=
  let pop := transativly_close pop in
  (pop, encode_body pop args).

(** *** Vocabulary of the properties *)

(** The pairs of an action and one of its preconditions, in the order the
    loops of lines 132-133 visit them. *)
Definition precondition_pairs (A : list action) : list (action * fact) :=
  a2 ← A; p ← elements (pres a2); [(a2, p)].

(** The formulas of the form [Action(_) >> Or([...])]. *)
Definition is_precondition_clause (c : formula) : bool :=
  match c with
  | FImp (FVar (Action _)) (FOr _) => true
  | _ => false
  end.

(** The soft clauses as pairs of a cost and the proposition whose negation
    is preferred: the loop over [actions], then the loop over [orders]. *)
Definition soft_clauses (A : gset action) : list (Z * proposition) :=
  ((λ x, (action_cost (orders A), x)) <$> actions A)
  ++ ((λ x, (order_cost, x)) <$> orders A).

Definition total_cost (l : list (Z * proposition)) : Z :=
  foldr Z.add 0 (fst <$> l).

(** What [__hash__] hashes (lines 11-12 and 60-61): [self.name] for an
    [Action], which hashes as its text when names are strings, and
    [str(self)] for an [Order] or a [Support]. [__eq__] (lines 14-15)
    compares these hashes. *)
Definition hashed (x : proposition) : string :=
  match x with
  | Action a => str_action a
  | _ => str_prop x
  end.

(** Modelled from the spec: "the ordering relation is transitively
    closed", for the links that [get_links()] returns. *)
Definition closed_links (l : list (action * action)) : Prop :=
  Forall (λ x, Forall (λ y, x.2 = y.1 → (x.1, y.2) ∈ l) l) l.

#[global] Instance closed_links_dec (l : list (action * action)) :
  Decision (closed_links l).
Proof. unfold closed_links. apply _. Defined.

(** The propositions that occur in a formula, in order. *)
Fixpoint props_of (f : formula) : list proposition :=
  match f with
  | FVar x => [x]
  | FNot f => props_of f
  | FAnd fs => flat_map props_of fs
  | FOr fs => flat_map props_of fs
  | FImp f g => props_of f ++ props_of g
  end.

(** The description of a variable as the specification words it:
    [Action(a)], [Order(a1,a2)], [Support(a1,p,a2)]. *)
Definition spec_description (x : proposition) : string :=
  match x with
  | Action a => "Action(" +:+ str_action a +:+ ")"
  | Order a1 a2 => "Order(" +:+ str_action a1 +:+ "," +:+ str_action a2 +:+ ")"
  | Support a1 p a2 =>
      "Support(" +:+ str_action a1 +:+ "," +:+ str_fact p +:+ ","
      +:+ str_action a2 +:+ ")"
  end.

(** The map file with these descriptions. *)
Definition spec_map_file (cnf : CNF) : string :=
  PyStr.json_dumps
    (prod_map id (λ n, match n with
                       | NProp x => spec_description x
                       | NAux x => str_aux x
                       end) <$> cnf_labels cnf).

End Encoder.

(** ** A small domain and two stand-in engines, to run the encoder

    Facts: [0] is p and [1] is q. Actions: [0] is init and adds p; [1] is
    goal and requires p; [2] deletes p; [3] requires q and is the only
    action that adds q. *)

Module Toy.

Definition toy_pres (a : nat) : gset nat :=
  match a with
  | 1%nat => {[0%nat]}
  | 3%nat => {[1%nat]}
  | _ => ∅
  end.

Definition toy_adds (a : nat) : gset nat :=
  match a with
  | 0%nat => {[0%nat]}
  | 3%nat => {[1%nat]}
  | _ => ∅
  end.

Definition toy_dels (a : nat) : gset nat :=
  match a with
  | 2%nat => {[0%nat]}
  | _ => ∅
  end.

Definition toy_str_action (a : nat) : string :=
  match a with
  | 0%nat => "init"
  | 1%nat => "goal"
  | _ => "a" +:+ PyStr.str_int (Z.of_nat a)
  end.

Definition toy_str_fact (f : nat) : string :=
  match f with
  | 0%nat => "p"
  | _ => "q"
  end.

Definition domain : Domain :=
  Build_Domain nat nat _ _ _ _ toy_pres toy_adds toy_dels
    toy_str_action toy_str_fact.

#[local] Existing Instance domain.

(** Modelled from the spec: a [transativly_close] that makes "the ordering
    relation transitively closed": it adds the composition of any two
    recorded links until nothing new appears. *)
Definition compose_links (l : list (nat * nat)) : list (nat * nat) :=
  x ← l; y ← l; if decide (x.2 = y.1) then [(x.1, y.2)] else [].

Definition close_once (l : list (nat * nat)) : list (nat * nat) :=
  remove_dups (l ++ compose_links l).

Definition close_links (l : list (nat * nat)) : list (nat * nat) :=
  Nat.iter (length l) close_once l.

Definition lifter : Lifter := {|
  transativly_close pop :=
    mkPOP _ (pop_F pop) (pop_A pop) (pop_init pop) (pop_goal pop)
      (close_links (pop_links pop));
  get_links pop := pop_links pop
|}.

(** The occurrences of propositions in a formula, with their polarity. *)
Fixpoint literals (pos : bool) (f : formula) : list (bool * proposition) :=
  match f with
  | FVar x => [(pos, x)]
  | FNot f => literals (negb pos) f
  | FAnd fs => flat_map (literals pos) fs
  | FOr fs => flat_map (literals pos) fs
  | FImp f g => literals (negb pos) f ++ literals pos g
  end.

Definition literal_str (labels : gmap (name Empty_set) Z)
  (l : bool * proposition) : string :=
  (if l.1 then EmptyString else "-")
  +:+ PyStr.str_int (default 0 (labels !! NProp l.2)).

Definition clause_str (labels : gmap (name Empty_set) Z) (f : formula)
  : string :=
  PyStr.join " " (literal_str labels <$> literals true f) +:+ " 0".

(** A stand-in for the engine: it keeps the formulas as they are, introduces
    no auxiliary variable, and prints a DIMACS header followed by one line
    per formula that lists the signed variables occurring in it. *)
Definition printing_dumps (cnf : list formula)
  (labels : gmap (name Empty_set) Z) : string :=
  PyStr.join (String PyStr.newline EmptyString)
    (("p cnf " +:+ PyStr.str_int (Z.of_nat (size labels)) +:+ " "
      +:+ PyStr.str_int (Z.of_nat (length cnf)))
     :: (clause_str labels <$> cnf))
  +:+ String PyStr.newline EmptyString.

Definition printing_engine : Engine := {|
  aux := Empty_set;
  str_aux := λ x : Empty_set, match x with end;
  CNF := list formula;
  compile := λ clauses, clauses;
  cnf_vars := λ cnf,
    list_to_set (NProp <$> (snd <$> flat_map (literals true) cnf));
  dumps := printing_dumps
|}.

(** A stand-in for an engine whose simplification leaves no variable at
    all. *)
Definition erasing_engine : Engine := {|
  aux := Empty_set;
  str_aux := λ x : Empty_set, match x with end;
  CNF := list formula;
  compile := λ _, [];
  cnf_vars := λ _, ∅;
  dumps := printing_dumps
|}.

(** A stand-in for an engine whose DIMACS text is empty. *)
Definition silent_engine : Engine := {|
  aux := Empty_set;
  str_aux := λ x : Empty_set, match x with end;
  CNF := list formula;
  compile := λ clauses, clauses;
  cnf_vars := λ cnf,
    list_to_set (NProp <$> (snd <$> flat_map (literals true) cnf));
  dumps := λ _ _, EmptyString
|}.

(** The plan init, a2, goal as the lifter would give it. *)
Definition pop0 : POP :=
  mkPOP _ {[0%nat; 1%nat]} {[0%nat; 1%nat; 2%nat]} 0%nat 1%nat
    [(0%nat, 2%nat); (2%nat, 1%nat)].

(** The same plan with action 3, whose precondition q only it can add. *)
Definition pop1 : POP :=
  mkPOP _ {[0%nat; 1%nat]} {[0%nat; 1%nat; 2%nat; 3%nat]} 0%nat 1%nat
    [(0%nat, 2%nat); (2%nat, 3%nat); (3%nat, 1%nat)].

(** The smallest plan: F = {p}, A = {init, goal}. *)
Definition pop2 : POP :=
  mkPOP _ {[0%nat]} {[0%nat; 1%nat]} 0%nat 1%nat [(0%nat, 1%nat)].

(** A plan whose goal is action [3]: it requires q, which only it adds. *)
Definition pop_self : POP :=
  mkPOP _ {[0%nat; 1%nat]} {[0%nat; 3%nat]} 0%nat 3%nat [(0%nat, 3%nat)].

(** A POP in which action [1] requires fact [0] and [F] is empty. *)
Definition pop_nopre : POP := mkPOP _ ∅ {[1%nat]} 0%nat 1%nat [].

(** A POP in which action [0] adds fact [0] and [F] is empty. *)
Definition pop_bad : POP := mkPOP _ ∅ {[0%nat; 1%nat]} 0%nat 1%nat [].

Definition no_options : cmdargs := mkArgs false false false.
Definition all_options : cmdargs := mkArgs true true true.

#[local] Existing Instance lifter.

(** The indices, the clause list and the files of a run that ends
    normally. *)
Definition indices_of (pop : POP)
  : gmap fact (gset action) * gmap fact (gset action) :=
  get_ok (∅, ∅) (build_indices (pop_F pop) (pop_A pop)).

Definition clauses_of (pop : POP) (args : cmdargs) : list formula :=
  get_ok [] (hard_clauses pop args (indices_of pop).1 (indices_of pop).2).

Definition files_of (pop : POP) (args : cmdargs) : files :=
  get_ok (mkFiles EmptyString EmptyString)
    (@encode_body domain lifter printing_engine pop args).

(** A second domain, in which every action and every fact prints as a
    letter followed by its number; no action requires, adds or deletes
    anything. *)
Definition numbered_domain : Domain :=
  Build_Domain nat nat _ _ _ _ (λ _, ∅) (λ _, ∅) (λ _, ∅)
    (λ a, "a" +:+ PyStr.str_int (Z.of_nat a))
    (λ f, "f" +:+ PyStr.str_int (Z.of_nat f)).

(** The assignment that keeps every action but [2], orders init before
    goal, and lets init support p for goal. *)
Definition kept_plan (x : proposition) : bool :=
  match x with
  | Action a => negb (a =? 2)%nat
  | Order a1 a2 => (a1 =? 0)%nat && (a2 =? 1)%nat
  | Support a1 p a2 => (a1 =? 0)%nat && (p =? 0)%nat && (a2 =? 1)%nat
  end.

End Toy.


Lemma is_ok_get_ok {X : Type} (d : X) (r : result X) :
  is_ok r = true → r = Ok (get_ok d r).
Proof. by destruct r. Qed.

(** ** Loops *)

(** A loop that ends normally appended, for each element in turn, what its
    body returned. *)
Lemma for_each_Forall2 {X Y W : Type} (R : W → Y → Prop) (h : X → list W)
  (l : list X) (body : X → result (list Y)) (r : list Y) :
  for_each l body = Ok r →
  (∀ x ys, x ∈ l → body x = Ok ys → Forall2 R (h x) ys) →
  Forall2 R (l ≫= h) r.
Proof.
  revert r. induction l as [|x l IH]; simpl; intros r Hr Hbody.
  - simplify_eq. constructor.
  - destruct (body x) as [ys|] eqn:Hx; simpl in *; [|simplify_eq].
    destruct (for_each l body) as [yss|] eqn:Hl; simpl in *; [|simplify_eq].
    simplify_eq. apply Forall2_app.
    + apply Hbody; [left|done].
    + apply IH; [done|]. intros y zs Hy. apply Hbody. by right.
Qed.

Lemma for_each_elem_of {X Y : Type} (l : list X) (body : X → result (list Y))
  (r : list Y) (y : Y) :
  for_each l body = Ok r →
  y ∈ r ↔ ∃ x ys, x ∈ l ∧ body x = Ok ys ∧ y ∈ ys.
Proof.
  revert r. induction l as [|x l IH]; simpl; intros r Hr.
  - simplify_eq. split; [by intros ?%elem_of_nil|].
    by intros (? & ? & ?%elem_of_nil & _).
  - destruct (body x) as [ys|] eqn:Hx; simpl in *; [|simplify_eq].
    destruct (for_each l body) as [yss|] eqn:Hl; simpl in *; [|simplify_eq].
    simplify_eq. rewrite elem_of_app, (IH yss eq_refl). split.
    + intros [Hy|(x' & ys' & ? & ? & ?)].
      * exists x, ys. split_and!; [left|done..].
      * exists x', ys'. split_and!; [by right|done..].
    + intros (x' & ys' & [->|?]%elem_of_cons & Hb & ?).
      * left. congruence.
      * right. eauto.
Qed.

(** Every element of the list was reached and its body ended normally. *)
Lemma for_each_Ok_body {X Y : Type} (l : list X) (body : X → result (list Y))
  (r : list Y) (x : X) :
  for_each l body = Ok r → x ∈ l → ∃ ys, body x = Ok ys.
Proof.
  revert r. induction l as [|x' l IH]; simpl; intros r Hr Hx.
  - by apply elem_of_nil in Hx.
  - destruct (body x') as [ys|] eqn:Hx'; simpl in *; [|simplify_eq].
    destruct (for_each l body) as [yss|] eqn:Hl; simpl in *; [|simplify_eq].
    apply elem_of_cons in Hx as [->|Hx]; eauto.
Qed.

(** A loop whose bodies all end normally ends normally. *)
Lemma for_each_total {X Y : Type} (l : list X) (body : X → result (list Y)) :
  (∀ x, x ∈ l → ∃ ys, body x = Ok ys) → ∃ r, for_each l body = Ok r.
Proof.
  induction l as [|x l IH]; simpl; intros Hb; [by eexists|].
  destruct (Hb x) as [ys ->]; [left|]. simpl.
  destruct IH as [r ->]; [intros; apply Hb; by right|].
  simpl. by eexists.
Qed.

(** The exception of a loop is the exception of one of its bodies. *)
Lemma for_each_Raise {X Y : Type} (l : list X) (body : X → result (list Y))
  (e : exn) :
  for_each l body = Raise e → ∃ x, x ∈ l ∧ body x = Raise e.
Proof.
  induction l as [|x l IH]; simpl; [intros [=]|].
  destruct (body x) as [ys|e'] eqn:Hx; simpl.
  - destruct (for_each l body) as [yss|e'] eqn:Hl; simpl; [intros [=]|].
    intros [= ->]. destruct IH as (x' & ? & ?); [done|].
    exists x'. split; [by right|done].
  - intros [= ->]. exists x. split; [left|done].
Qed.

(** What a state loop did, from an invariant [P] of the state: when it ends
    normally every element was [good], and when it raises, the exception is
    one that some element can raise ([bad]). *)
Lemma for_state_inv {X S : Type} (P : S → Prop) (good : X → Prop)
  (bad : exn → X → Prop) (l : list X) (body : S → X → result S) (s : S) :
  P s →
  (∀ s x, P s → x ∈ l →
     match body s x with
     | Ok s' => P s' ∧ good x
     | Raise e => bad e x
     end) →
  match for_state l body s with
  | Ok s' => P s' ∧ ∀ x, x ∈ l → good x
  | Raise e => ∃ x, x ∈ l ∧ bad e x
  end.
Proof.
  revert s. induction l as [|x l IH]; simpl; intros s Hs Hbody.
  - split; [done|]. by intros ? ?%elem_of_nil.
  - pose proof (Hbody s x Hs) as Hx.
    destruct (body s x) as [s'|e]; simpl.
    + destruct Hx as [Hs' Hgood]; [left|].
      specialize (IH s' Hs').
      destruct (for_state l body s') as [s''|e].
      * destruct IH as [? Hall]; [intros; apply Hbody; [done|by right]|].
        split; [done|]. intros y [->|?]%elem_of_cons; auto.
      * destruct IH as (y & ? & ?); [intros; apply Hbody; [done|by right]|].
        exists y. split; [by right|done].
    + exists x. split; [left|]. apply Hx. left.
Qed.

(** The same with an invariant that sees the elements already visited. *)
Lemma for_state_prefix {X S : Type} (I : list X → S → Prop) (l : list X)
  (body : S → X → result S) (s s' : S) :
  I [] s →
  (∀ done x s1 s2, I done s1 → body s1 x = Ok s2 → I (done ++ [x]) s2) →
  for_state l body s = Ok s' → I l s'.
Proof.
  intros H0 Hstep.
  assert (∀ done s, I done s → for_state l body s = Ok s' → I (done ++ l) s')
    as Hgen.
  { induction l as [|x l IH]; simpl; intros done s1 Hs1 Hl.
    - simplify_eq. by rewrite app_nil_r.
    - destruct (body s1 x) as [s2|] eqn:Hx; simpl in Hl; [|discriminate].
      rewrite (cons_middle x done l), app_assoc. eapply IH; [|exact Hl].
      by eapply Hstep. }
  apply (Hgen [] s H0).
Qed.

Section Properties.

Context `{D : Domain} `{L : !Lifter} `{E : !Engine}.

(** *** The indices *)

Lemma empty_indices_dom (F : gset fact) :
  dom (empty_indices F).1 = F ∧ dom (empty_indices F).2 = F.
Proof.
  unfold empty_indices.
  assert (∀ (l : list fact) (m : gmap fact (gset action) * gmap fact (gset action)),
    let r := foldl (λ m f, (<[f := ∅]> m.1, <[f := ∅]> m.2)) m l in
    dom r.1 = dom m.1 ∪ list_to_set l ∧ dom r.2 = dom m.2 ∪ list_to_set l)
    as Hfold.
  { induction l as [|f l IH]; intros m; simpl.
    - split; set_solver.
    - destruct (IH (<[f := ∅]> m.1, <[f := ∅]> m.2)) as [-> ->]. simpl.
      rewrite !dom_insert_L. split; set_solver. }
  destruct (Hfold (elements F) (∅, ∅)) as [-> ->]. simpl.
  rewrite !dom_empty_L, list_to_set_elements_L. split; set_solver.
Qed.

Lemma index_add_loop_inv (a : action) (fs : list fact)
  (m : gmap fact (gset action)) :
  match for_state fs (index_add a) m with
  | Ok m' => dom m' = dom m ∧ ∀ f, f ∈ fs → f ∈ dom m
  | Raise e => ∃ f, f ∈ fs ∧ e = KeyError ∧ f ∉ dom m
  end.
Proof.
  apply (for_state_inv (λ m', dom m' = dom m) (λ f, f ∈ dom m)
           (λ e f, e = KeyError ∧ f ∉ dom m)); [done|].
  intros m' f Hdom _. unfold index_add.
  destruct (m' !! f) as [s|] eqn:Hf.
  - apply elem_of_dom_2 in Hf. rewrite dom_insert_L. split; set_solver.
  - apply not_elem_of_dom in Hf. split; [done|]. by rewrite <-Hdom.
Qed.

Lemma add_action_inv (F : gset fact) (m : gmap fact (gset action) * gmap fact (gset action))
  (a : action) :
  dom m.1 = F → dom m.2 = F →
  match add_action m a with
  | Ok m' => (dom m'.1 = F ∧ dom m'.2 = F) ∧ adds a ∪ dels a ⊆ F
  | Raise e => e = KeyError ∧ ∃ f, f ∈ adds a ∪ dels a ∧ f ∉ F
  end.
Proof.
  intros H1 H2. unfold add_action.
  pose proof (index_add_loop_inv a (elements (adds a)) m.1) as Hadd.
  destruct (for_state (elements (adds a)) (index_add a) m.1) as [m1|e]; simpl.
  - pose proof (index_add_loop_inv a (elements (dels a)) m.2) as Hdel.
    destruct (for_state (elements (dels a)) (index_add a) m.2) as [m2|e]; simpl.
    + destruct Hadd as [-> Hadd], Hdel as [-> Hdel]. split; [done|].
      intros f [Hf|Hf]%elem_of_union.
      * rewrite <-H1. apply Hadd. by apply elem_of_elements.
      * rewrite <-H2. apply Hdel. by apply elem_of_elements.
    + destruct Hdel as (f & Hf%elem_of_elements & -> & Hno). split; [done|].
      exists f. split; [set_solver|]. by rewrite <-H2.
  - destruct Hadd as (f & Hf%elem_of_elements & -> & Hno). split; [done|].
    exists f. split; [set_solver|]. by rewrite <-H1.
Qed.

(** Index construction ends normally exactly when every added or deleted
    fact is in [F], with the facts of [F] as the keys of both indices; it
    raises nothing but [KeyError]. *)
Lemma build_indices_inv (F : gset fact) (A : gset action) :
  match build_indices F A with
  | Ok idx =>
      (dom idx.1 = F ∧ dom idx.2 = F) ∧ ∀ a, a ∈ A → adds a ∪ dels a ⊆ F
  | Raise e =>
      e = KeyError ∧ ∃ a f, a ∈ A ∧ f ∈ adds a ∪ dels a ∧ f ∉ F
  end.
Proof.
  unfold build_indices.
  pose proof (for_state_inv (λ m, dom m.1 = F ∧ dom m.2 = F)
    (λ a, adds a ∪ dels a ⊆ F)
    (λ e a, e = KeyError ∧ ∃ f, f ∈ adds a ∪ dels a ∧ f ∉ F)
    (elements A) add_action (empty_indices F) (empty_indices_dom F)) as Hloop.
  destruct (for_state (elements A) add_action (empty_indices F)) as [idx|e].
  - destruct Hloop as [Hdom Hall].
    { intros m a [? ?] _. by apply add_action_inv. }
    split; [done|]. intros a Ha. apply Hall. by apply elem_of_elements.
  - destruct Hloop as (a & Ha%elem_of_elements & -> & f & ? & ?).
    { intros m a [? ?] _. by apply add_action_inv. }
    split; [done|]. eauto.
Qed.

(** The facts of [F] are the keys of the two indices, and [adders[f]] and
    [deleters[f]] are the actions of [A] that add and that delete [f]. *)
Lemma empty_indices_lookup (F : gset fact) (f : fact) :
  (f ∈ F → (empty_indices F).1 !! f = Some ∅
           ∧ (empty_indices F).2 !! f = Some ∅)
  ∧ (f ∉ F → (empty_indices F).1 !! f = None
             ∧ (empty_indices F).2 !! f = None).
Proof.
  unfold empty_indices.
  assert (∀ (l : list fact) (m : gmap fact (gset action) * gmap fact (gset action)),
    let r := foldl (λ m f, (<[f := ∅]> m.1, <[f := ∅]> m.2)) m l in
    (f ∈ l → r.1 !! f = Some ∅ ∧ r.2 !! f = Some ∅)
    ∧ (f ∉ l → r.1 !! f = m.1 !! f ∧ r.2 !! f = m.2 !! f)) as Hfold.
  { induction l as [|f0 l IH]; intros m.
    - split; [by intros ?%elem_of_nil|done].
    - destruct (IH (<[f0 := ∅]> m.1, <[f0 := ∅]> m.2)) as [IH1 IH2].
      cbn [foldl fst snd] in *. split.
      + intros Hin. destruct (decide (f ∈ l)) as [Hl|Hl]; [by apply IH1|].
        apply elem_of_cons in Hin as [->|?]; [|done].
        destruct (IH2 Hl) as [-> ->]. by rewrite !lookup_insert_eq.
      + intros Hnot. apply not_elem_of_cons in Hnot as [Hne Hl].
        destruct (IH2 Hl) as [-> ->]. by rewrite !lookup_insert_ne. }
  destruct (Hfold (elements F) (∅, ∅)) as [H1 H2]. simpl in *.
  split.
  - intros Hin. apply H1. by apply elem_of_elements.
  - intros Hnot. destruct H2 as [-> ->]; [by rewrite elem_of_elements|].
    by rewrite !lookup_empty.
Qed.

Lemma index_add_loop_lookup (a : action) (fs : list fact)
  (m m' : gmap fact (gset action)) (f : fact) :
  for_state fs (index_add a) m = Ok m' →
  match m' !! f with
  | Some s' =>
      ∃ s, m !! f = Some s ∧ ∀ b, b ∈ s' ↔ b ∈ s ∨ (b = a ∧ f ∈ fs)
  | None => m !! f = None
  end.
Proof.
  revert m. induction fs as [|f0 fs IH]; simpl; intros m Hm.
  - simplify_eq. destruct (m' !! f) as [s|]; [|done].
    exists s. split; [done|]. intros b. split; [auto|].
    by intros [?|[_ ?%elem_of_nil]].
  - destruct (index_add a m f0) as [m1|] eqn:Hadd; simpl in Hm;
      [|discriminate Hm].
    unfold index_add in Hadd. destruct (m !! f0) as [s0|] eqn:Hf0; simplify_eq.
    specialize (IH _ Hm). destruct (m' !! f) as [s'|].
    + destruct IH as (s & Hs & Hiff). destruct (decide (f = f0)) as [->|Hne].
      * rewrite lookup_insert_eq in Hs. simplify_eq. exists s0. split; [done|].
        intros b. rewrite Hiff, elem_of_union, elem_of_singleton, elem_of_cons.
        naive_solver.
      * rewrite lookup_insert_ne in Hs by done. exists s. split; [done|].
        intros b. rewrite Hiff, elem_of_cons. naive_solver.
    + destruct (decide (f = f0)) as [->|Hne].
      * by rewrite lookup_insert_eq in IH.
      * by rewrite lookup_insert_ne in IH.
Qed.

Lemma build_indices_lookup (F : gset fact) (A : gset action)
  (idx : gmap fact (gset action) * gmap fact (gset action)) (f : fact) :
  build_indices F A = Ok idx →
  match idx.1 !! f with
  | Some s => f ∈ F ∧ ∀ a, a ∈ s ↔ a ∈ A ∧ f ∈ adds a
  | None => f ∉ F
  end
  ∧ match idx.2 !! f with
    | Some d => f ∈ F ∧ ∀ a, a ∈ d ↔ a ∈ A ∧ f ∈ dels a
    | None => f ∉ F
    end.
Proof.
  unfold build_indices. intros Hidx.
  pose (I := λ (done : list action) (m : gmap fact (gset action) * gmap fact (gset action)),
    match m.1 !! f with
    | Some s => f ∈ F ∧ ∀ a, a ∈ s ↔ a ∈ done ∧ f ∈ adds a
    | None => f ∉ F
    end
    ∧ match m.2 !! f with
      | Some d => f ∈ F ∧ ∀ a, a ∈ d ↔ a ∈ done ∧ f ∈ dels a
      | None => f ∉ F
      end).
  assert (I (elements A) idx) as [H1 H2].
  { eapply (for_state_prefix I); [| |exact Hidx].
    - unfold I. destruct (empty_indices_lookup F f) as [Hin Hout].
      destruct (decide (f ∈ F)) as [HF|HF].
      + destruct (Hin HF) as [-> ->].
        split; (split; [done|]); intros a; rewrite elem_of_nil; set_solver.
      + by destruct (Hout HF) as [-> ->].
    - intros done a m m2 [Hm1 Hm2] Hadd. unfold add_action in Hadd.
      destruct (for_state (elements (adds a)) (index_add a) m.1) as [n1|] eqn:Hn1;
        simpl in Hadd; [|discriminate].
      destruct (for_state (elements (dels a)) (index_add a) m.2) as [n2|] eqn:Hn2;
        simpl in Hadd; [|discriminate].
      simplify_eq. unfold I. simpl.
      pose proof (index_add_loop_lookup _ _ _ _ f Hn1) as Hl1.
      pose proof (index_add_loop_lookup _ _ _ _ f Hn2) as Hl2.
      split.
      + destruct (n1 !! f) as [s'|].
        * destruct Hl1 as (s & Hs & Hiff). rewrite Hs in Hm1.
          destruct Hm1 as [HF Hs']. split; [done|]. intros b.
          rewrite Hiff, Hs', elem_of_app, list_elem_of_singleton, elem_of_elements.
          naive_solver.
        * by rewrite Hl1 in Hm1.
      + destruct (n2 !! f) as [s'|].
        * destruct Hl2 as (s & Hs & Hiff). rewrite Hs in Hm2.
          destruct Hm2 as [HF Hs']. split; [done|]. intros b.
          rewrite Hiff, Hs', elem_of_app, list_elem_of_singleton, elem_of_elements.
          naive_solver.
        * by rewrite Hl2 in Hm2. }
  split.
  - destruct (idx.1 !! f); [|done]. destruct H1 as [? Hiff]. split; [done|].
    intros a. by rewrite Hiff, elem_of_elements.
  - destruct (idx.2 !! f); [|done]. destruct H2 as [? Hiff]. split; [done|].
    intros a. by rewrite Hiff, elem_of_elements.
Qed.

Lemma build_indices_Ok_iff (F : gset fact) (A : gset action) :
  (∃ idx, build_indices F A = Ok idx) ↔ ∀ a, a ∈ A → adds a ∪ dels a ⊆ F.
Proof.
  pose proof (build_indices_inv F A) as Hinv.
  destruct (build_indices F A) as [idx|e].
  - destruct Hinv as [_ Hall]. split; [done|eauto].
  - destruct Hinv as (_ & a & f & Ha & Hf & HF). split; [by intros [? ?]|].
    intros Hall. exfalso. apply HF. by apply (Hall a Ha).
Qed.

(** C10. When some action of the POP adds or deletes a fact that is not in
    [F], index construction raises [KeyError], and so does [encode_POP]: no
    proposition list, clause or file is produced. *)
Theorem build_indices_KeyError (pop : POP) (args : cmdargs) (a : action)
  (f : fact) :
  let pop' := transativly_close pop in
  a ∈ pop_A pop' → f ∈ adds a ∪ dels a → f ∉ pop_F pop' →
  build_indices (pop_F pop') (pop_A pop') = Raise KeyError
  ∧ (encode_POP pop args).2 = Raise KeyError.
Proof.
  intros pop' Ha Hf HF.
  assert (build_indices (pop_F pop') (pop_A pop') = Raise KeyError) as Hidx.
  { pose proof (build_indices_inv (pop_F pop') (pop_A pop')) as Hinv.
    destruct (build_indices (pop_F pop') (pop_A pop')) as [idx|e].
    - destruct Hinv as [_ Hall]. exfalso. apply HF. by apply (Hall a Ha).
    - by destruct Hinv as [-> _]. }
  split; [done|]. unfold encode_POP, encode_body, compile_POP. simpl.
  fold pop'. by rewrite Hidx.
Qed.

(** *** The proposition lists and the weights *)

Lemma bind_singleton_fmap {X Y : Type} (f : X → Y) (l : list X) :
  l ≫= (λ x, [f x]) = f <$> l.
Proof. induction l as [|x l IH]; [done|]. rewrite bind_cons, IH. done. Qed.

Lemma length_bind_const {X Y : Type} (f : X → list Y) (l : list X) (k : nat) :
  (∀ x, x ∈ l → length (f x) = k) → length (l ≫= f) = (length l * k)%nat.
Proof.
  induction l as [|x l IH]; intros Hk; [done|].
  rewrite bind_cons, length_app, IH, Hk; [simpl; lia|left|].
  intros; apply Hk; by right.
Qed.

Lemma actions_fmap (A : gset action) : actions A = Action <$> elements A.
Proof. apply bind_singleton_fmap. Qed.

Lemma len_actions (A : gset action) : len (actions A) = Z.of_nat (size A).
Proof. unfold len. by rewrite actions_fmap, length_fmap. Qed.

Lemma len_orders (A : gset action) :
  len (orders A) = Z.of_nat (size A) * Z.of_nat (size A).
Proof.
  unfold len, orders.
  rewrite (length_bind_const _ _ (size A)).
  - unfold size, set_size. simpl. lia.
  - intros a1 _. by rewrite bind_singleton_fmap, length_fmap.
Qed.

Lemma total_cost_app (l1 l2 : list (Z * proposition)) :
  total_cost (l1 ++ l2) = total_cost l1 + total_cost l2.
Proof.
  unfold total_cost. rewrite fmap_app, foldr_app.
  induction (fst <$> l1) as [|c cs IH]; simpl; lia.
Qed.

Lemma total_cost_const (c : Z) (l : list proposition) :
  total_cost ((λ x, (c, x)) <$> l) = len l * c.
Proof.
  unfold total_cost, len.
  induction l as [|x l IH]; [done|]. cbn [fmap list_fmap foldr length fst].
  rewrite Nat2Z.inj_succ. lia.
Qed.

(** C3. The weights: [order_cost] is 1, [action_cost] is the number of
    [Order] propositions plus one, of which there are [|A|²]; one action
    costs more than all the orderings together, and [top_cost] is one more
    than the sum of the costs of all the soft clauses. *)
Theorem weights (A : gset action) :
  let actions := actions A in
  let orders := orders A in
  order_cost = 1
  ∧ len orders = Z.of_nat (size A) * Z.of_nat (size A)
  ∧ len actions = Z.of_nat (size A)
  ∧ action_cost orders = len orders + 1
  ∧ top_cost orders actions
    = len orders * order_cost + len actions * action_cost orders + 1
  ∧ action_cost orders > order_cost * len orders
  ∧ top_cost orders actions = total_cost (soft_clauses A) + 1
  ∧ top_cost orders actions > total_cost (soft_clauses A).
Proof.
  intros acts ords.
  assert (total_cost (soft_clauses A)
          = len acts * action_cost ords + len ords * order_cost) as Hsum.
  { unfold soft_clauses. by rewrite total_cost_app, !total_cost_const. }
  split_and!; try done.
  - apply len_orders.
  - apply len_actions.
  - unfold action_cost, order_cost. lia.
  - rewrite Hsum. unfold top_cost. lia.
  - rewrite Hsum. unfold top_cost. lia.
Qed.

(** *** The optional clauses *)

Lemma serial_clauses_elem_of (A : list action) (c : formula) :
  c ∈ serial_clauses A
  ↔ ∃ a1 a2, a1 ∈ A ∧ a2 ∈ A ∧ a1 ≠ a2 ∧ c = serial_clause a1 a2.
Proof.
  unfold serial_clauses. rewrite list_elem_of_bind. split.
  - intros (a1 & Hc & Ha1). apply list_elem_of_bind in Hc as (a2 & Hc & Ha2).
    case_decide; [|by apply elem_of_nil in Hc].
    apply list_elem_of_singleton in Hc. eauto 10.
  - intros (a1 & a2 & Ha1 & Ha2 & Hne & ->). exists a1. split; [|done].
    apply list_elem_of_bind. exists a2. split; [|done].
    rewrite decide_True by done. by apply list_elem_of_singleton.
Qed.

Lemma serial_clauses_NoDup (A : list action) :
  NoDup A → NoDup (serial_clauses A).
Proof.
  intros HA. unfold serial_clauses. apply NoDup_bind; [| |done].
  - intros a1 a1' c _ _ (a2 & Hc & _)%list_elem_of_bind
      (a2' & Hc' & _)%list_elem_of_bind.
    repeat case_decide; try by apply elem_of_nil in Hc.
    + apply list_elem_of_singleton in Hc, Hc'. unfold serial_clause in *.
      congruence.
    + by apply elem_of_nil in Hc'.
  - intros a1 _. apply NoDup_bind; [| |done].
    + intros a2 a2' c _ _ Hc Hc'.
      repeat case_decide; try by apply elem_of_nil in Hc.
      * apply list_elem_of_singleton in Hc, Hc'. unfold serial_clause in *.
        congruence.
      * by apply elem_of_nil in Hc'.
    + intros a2 _. case_decide; [apply NoDup_singleton|apply NoDup_nil_2].
Qed.

Lemma length_serial_row (a1 : action) (A : list action) :
  NoDup A → a1 ∈ A →
  S (length (A ≫= λ a2,
       if decide (a1 ≠ a2) then [serial_clause a1 a2] else [])) = length A.
Proof.
  intros HA. induction HA as [|a A Hnotin HA IH]; intros Hin.
  - by apply elem_of_nil in Hin.
  - rewrite bind_cons, length_app. simpl. destruct (decide (a1 = a)) as [->|Hne].
    + rewrite decide_False by (intros Hn; by apply Hn). simpl. f_equal.
      rewrite (length_bind_const _ _ 1); [lia|].
      intros a2 Ha2. rewrite decide_True; [done|]. by intros ->.
    + rewrite decide_True by done. simpl. f_equal. apply IH.
      by apply elem_of_cons in Hin as [?|?].
Qed.

Lemma len_serial_clauses (A : list action) :
  NoDup A → len (serial_clauses A) = len A * (len A - 1).
Proof.
  intros HA. unfold len, serial_clauses.
  rewrite (length_bind_const _ _ (length A - 1)).
  - destruct A; simpl; [done|]. lia.
  - intros a1 Ha1. pose proof (length_serial_row a1 A HA Ha1). lia.
Qed.

(** C5. A run without options produces the base clauses. Whatever the other
    options are, [--serial] appends one clause
    [(Action(a1) & Action(a2)) >> (Order(a1,a2) | Order(a2,a1))] for each
    ordered pair of distinct actions, [|A|×(|A|-1)] clauses in all;
    [--allact] appends the [|A|] unit clauses [Action(a)]; [--deorder]
    appends one unit clause [~Order(aj,ai)] for each link [(ai,aj)] that
    [get_links()] returns. *)
Theorem option_effects (pop : POP) (args : cmdargs)
  (adders deleters : gmap fact (gset action)) (base : list formula) :
  hard_clauses pop (mkArgs false false false) adders deleters = Ok base →
  let n := Z.of_nat (size (pop_A pop)) in
  ∃ S AL DE,
    hard_clauses pop args adders deleters = Ok (base ++ S ++ AL ++ DE)
    ∧ (if serial args then
         len S = n * (n - 1) ∧ NoDup S
         ∧ ∀ c, c ∈ S ↔
             ∃ a1 a2, a1 ∈ pop_A pop ∧ a2 ∈ pop_A pop ∧ a1 ≠ a2
               ∧ c = FImp (FAnd [FVar (Action a1); FVar (Action a2)])
                          (FOr [FVar (Order a1 a2); FVar (Order a2 a1)])
       else S = [])
    ∧ (if allact args then
         AL = (λ a, FVar (Action a)) <$> elements (pop_A pop) ∧ len AL = n
       else AL = [])
    ∧ (if deorder args then
         DE = (λ l, FNot (FVar (Order l.2 l.1))) <$> get_links pop
         ∧ len DE = len (get_links pop)
       else DE = []).
Proof.
  intros Hbase n. unfold hard_clauses in *.
  destruct (base_clauses pop adders deleters) as [b|e]; simpl in *; [|simplify_eq].
  unfold option_clauses in Hbase. simpl in Hbase. rewrite app_nil_r in Hbase.
  simplify_eq.
  exists (if serial args then serial_clauses (elements (pop_A pop)) else []),
    (if allact args then allact_clauses (elements (pop_A pop)) else []),
    (if deorder args then deorder_clauses (get_links pop) else []).
  split; [done|]. split_and!.
  - destruct (serial args); [|done]. split_and!.
    + rewrite len_serial_clauses by apply NoDup_elements. done.
    + apply serial_clauses_NoDup, NoDup_elements.
    + intros c. rewrite serial_clauses_elem_of.
      by setoid_rewrite elem_of_elements.
  - destruct (allact args); [|done]. unfold allact_clauses.
    rewrite bind_singleton_fmap. split; [done|].
    unfold len. by rewrite length_fmap.
  - destruct (deorder args); [|done]. unfold deorder_clauses.
    rewrite bind_singleton_fmap. split; [done|].
    unfold len. by rewrite length_fmap.
Qed.

(** *** The clause list *)

(** The clause list of a run that reaches line 164, family by family. *)
Lemma hard_clauses_inv (pop : POP) (args : cmdargs)
  (adders deleters : gmap fact (gset action)) (clauses : list formula) :
  hard_clauses pop args adders deleters = Ok clauses →
  let A := elements (pop_A pop) in
  ∃ pre sup,
    precondition_clauses A adders = Ok pre
    ∧ support_clauses A adders deleters = Ok sup
    ∧ clauses =
        (irreflexive_clauses A ++ transitivity_clauses A
         ++ order_action_clauses A
         ++ bracket_clauses A (pop_init pop) (pop_goal pop)
         ++ init_goal_clauses (pop_init pop) (pop_goal pop)
         ++ pre ++ sup)
        ++ option_clauses pop args.
Proof.
  intros Hc A. unfold hard_clauses, base_clauses in Hc. fold A in Hc.
  destruct (precondition_clauses A adders) as [pre|]; simpl in *; [|simplify_eq].
  destruct (support_clauses A adders deleters) as [sup|]; simpl in *;
    [|simplify_eq].
  simplify_eq. by exists pre, sup.
Qed.

Lemma Forall2_elem_of_l {X Y : Type} (R : X → Y → Prop) (l : list X)
  (k : list Y) (x : X) :
  Forall2 R l k → x ∈ l → ∃ y, y ∈ k ∧ R x y.
Proof.
  induction 1 as [|x' y' l k HR _ IH]; intros Hx.
  - by apply elem_of_nil in Hx.
  - apply elem_of_cons in Hx as [->|Hx].
    + exists y'. split; [left|done].
    + destruct (IH Hx) as (y & ? & ?). exists y. split; [by right|done].
Qed.

Lemma filter_none {X : Type} (P : X → Prop) `{∀ x, Decision (P x)}
  (l : list X) :
  (∀ x, x ∈ l → ¬ P x) → filter P l = [].
Proof.
  induction l as [|x l IH]; intros Hl; [done|].
  rewrite filter_cons_False by (apply Hl; left).
  apply IH. intros; apply Hl; by right.
Qed.

Lemma filter_all {X : Type} (P : X → Prop) `{∀ x, Decision (P x)}
  (l : list X) :
  (∀ x, x ∈ l → P x) → filter P l = l.
Proof.
  induction l as [|x l IH]; intros Hl; [done|].
  rewrite filter_cons_True by (apply Hl; left).
  f_equal. apply IH. intros; apply Hl; by right.
Qed.

(** *** Family 7: the preconditions *)

Lemma precondition_pairs_elem_of (A : list action) (a2 : action) (p : fact) :
  (a2, p) ∈ precondition_pairs A ↔ a2 ∈ A ∧ p ∈ pres a2.
Proof.
  unfold precondition_pairs. rewrite list_elem_of_bind. split.
  - intros (a & (q & Hq%list_elem_of_singleton & Hp%elem_of_elements)
             %list_elem_of_bind & Ha).
    by simplify_eq.
  - intros [Ha Hp]. exists a2. split; [|done].
    apply list_elem_of_bind. exists p.
    split; [by apply list_elem_of_singleton|by apply elem_of_elements].
Qed.

Lemma precondition_pairs_NoDup (A : list action) :
  NoDup A → NoDup (precondition_pairs A).
Proof.
  intros HA. unfold precondition_pairs. apply NoDup_bind; [| |done].
  - intros a a' ap _ _ (q & Hq%list_elem_of_singleton & _)%list_elem_of_bind
      (q' & Hq'%list_elem_of_singleton & _)%list_elem_of_bind.
    congruence.
  - intros a _. rewrite bind_singleton_fmap.
    apply NoDup_fmap_2; [by intros ?? [=]|apply NoDup_elements].
Qed.

(** The clauses of lines 132-134, in step with the pairs they come from. *)
Lemma precondition_clauses_Forall2 (A : list action)
  (adders : gmap fact (gset action)) (pre : list formula) :
  precondition_clauses A adders = Ok pre →
  Forall2 (λ ap c, ∃ s, adders !! ap.2 = Some s
                        ∧ c = precondition_clause s ap.2 ap.1)
    (precondition_pairs A) pre.
Proof.
  intros Hpre. unfold precondition_pairs.
  eapply for_each_Forall2; [exact Hpre|]. simpl.
  intros a2 ys _ Hys.
  eapply for_each_Forall2; [exact Hys|]. simpl.
  intros p zs _ Hzs. unfold index_get in Hzs.
  destruct (adders !! p) as [s|] eqn:Hs; simpl in *; [|simplify_eq].
  simplify_eq. repeat constructor. by exists s.
Qed.

(** What a clause of lines 137-147 looks like. *)
Lemma support_clauses_shape (A : list action)
  (adders deleters : gmap fact (gset action)) (sup : list formula)
  (c : formula) :
  support_clauses A adders deleters = Ok sup → c ∈ sup →
  ∃ a1 p a2, c = support_order_clause a1 p a2
             ∨ ∃ ad, c = threat_clause a1 p a2 ad.
Proof.
  intros Hsup Hc.
  apply (for_each_elem_of _ _ _ c Hsup) in Hc as (a2 & ys & _ & Hys & Hc).
  apply (for_each_elem_of _ _ _ c Hys) in Hc as (p & zs & _ & Hzs & Hc).
  unfold index_get in Hzs.
  destruct (adders !! p) as [s|]; simpl in *; [|simplify_eq].
  apply (for_each_elem_of _ _ _ c Hzs) in Hc as (a1 & ws & _ & Hws & Hc).
  destruct (deleters !! p) as [d|]; simpl in *; [|simplify_eq].
  simplify_eq. exists a1, p, a2. apply elem_of_cons in Hc as [->|Hc]; [by left|].
  right. unfold threat_clauses in Hc.
  apply list_elem_of_bind in Hc as (ad & Hc & _).
  case_decide; [|by apply elem_of_nil in Hc].
  apply list_elem_of_singleton in Hc. eauto.
Qed.

Lemma other_families_not_precondition (pop : POP) (args : cmdargs) (c : formula) :
  let A := elements (pop_A pop) in
  c ∈ irreflexive_clauses A ++ transitivity_clauses A
      ++ order_action_clauses A
      ++ bracket_clauses A (pop_init pop) (pop_goal pop)
      ++ init_goal_clauses (pop_init pop) (pop_goal pop)
  ∨ c ∈ option_clauses pop args →
  ¬ is_precondition_clause c.
Proof.
  intros A.
  unfold irreflexive_clauses, transitivity_clauses, order_action_clauses,
    bracket_clauses, init_goal_clauses, option_clauses, serial_clauses,
    allact_clauses, deorder_clauses.
  rewrite !elem_of_app.
  intros Hc.
  repeat match goal with
  | H : _ ∨ _ |- _ => destruct H as [H|H]
  | H : _ ∈ _ ≫= _ |- _ => apply list_elem_of_bind in H as (? & H & _)
  | H : _ ∈ _ ++ _ |- _ => apply elem_of_app in H
  | H : _ ∈ (if ?b then _ else _) |- _ => destruct b
  | H : _ ∈ [] |- _ => by apply elem_of_nil in H
  | H : _ ∈ _ :: _ |- _ => apply elem_of_cons in H
  | H : c = _ |- _ => subst c
  end; simpl; auto.
Qed.

(** C1. The clauses of the form [Action(a2) >> Or([...])] in the clause list
    are, one for one and in order, the pairs of an action [a2] of [A] and a
    precondition [p] of [a2], each pair once, and the clause of a pair is
    [Action(a2) >> Or([Support(a1,p,a2) for a1 in adders[p] if a1 is not
    a2])]. When [adders[p]] holds no action other than [a2] the disjunction
    is empty and every assignment that satisfies the clauses makes
    [Action(a2)] false. *)
Theorem precondition_support (pop : POP) (args : cmdargs)
  (adders deleters : gmap fact (gset action)) (clauses : list formula) :
  hard_clauses pop args adders deleters = Ok clauses →
  let pairs := precondition_pairs (elements (pop_A pop)) in
  (NoDup pairs ∧ ∀ a2 p, (a2, p) ∈ pairs ↔ a2 ∈ pop_A pop ∧ p ∈ pres a2)
  ∧ Forall2
      (λ ap c,
         ∃ s, adders !! ap.2 = Some s
              ∧ c = FImp (FVar (Action ap.1))
                         (FOr ((λ a1, FVar (Support a1 ap.2 ap.1))
                               <$> filter (λ a1, a1 ≠ ap.1) (elements s))))
      pairs (filter (λ c, is_precondition_clause c) clauses)
  ∧ (∀ a2 p s, a2 ∈ pop_A pop → p ∈ pres a2 → adders !! p = Some s →
       (∀ a1, a1 ∈ s → a1 = a2) →
       FImp (FVar (Action a2)) (FOr []) ∈ clauses
       ∧ ∀ v, satisfies v clauses → v (Action a2) = false).
Proof.
  intros Hc pairs.
  destruct (hard_clauses_inv _ _ _ _ _ Hc) as (pre & sup & Hpre & Hsup & ->).
  pose proof (precondition_clauses_Forall2 _ _ _ Hpre) as Hall. fold pairs in Hall.
  assert (∀ a2 p, (a2, p) ∈ pairs ↔ a2 ∈ pop_A pop ∧ p ∈ pres a2) as Hpairs.
  { intros a2 p. unfold pairs. rewrite precondition_pairs_elem_of.
    by rewrite elem_of_elements. }
  set (fam := irreflexive_clauses (elements (pop_A pop))
              ++ transitivity_clauses (elements (pop_A pop))
              ++ order_action_clauses (elements (pop_A pop))
              ++ bracket_clauses (elements (pop_A pop)) (pop_init pop) (pop_goal pop)
              ++ init_goal_clauses (pop_init pop) (pop_goal pop)).
  assert ((irreflexive_clauses (elements (pop_A pop))
           ++ transitivity_clauses (elements (pop_A pop))
           ++ order_action_clauses (elements (pop_A pop))
           ++ bracket_clauses (elements (pop_A pop)) (pop_init pop) (pop_goal pop)
           ++ init_goal_clauses (pop_init pop) (pop_goal pop)
           ++ pre ++ sup) ++ option_clauses pop args
          = fam ++ pre ++ sup ++ option_clauses pop args) as Hsplit.
  { unfold fam. by rewrite <-!app_assoc. }
  rewrite Hsplit in *. clear Hsplit.
  assert (filter (λ c, is_precondition_clause c)
            (fam ++ pre ++ sup ++ option_clauses pop args) = pre) as Hfilter.
  { rewrite !filter_app.
    rewrite (filter_none _ (option_clauses pop args)).
    2: { intros c Hin. apply (other_families_not_precondition pop args). by right. }
    rewrite (filter_none _ sup).
    2: { intros c Hin.
         destruct (support_clauses_shape _ _ _ _ c Hsup Hin)
           as (a1 & p & a2 & [->|[ad ->]]); simpl; auto. }
    rewrite (filter_all _ pre).
    2: { intros c Hin. apply list_elem_of_lookup in Hin as [i Hi].
         destruct (Forall2_lookup_r _ _ _ _ _ Hall Hi) as (ap & _ & s & _ & ->).
         exact I. }
    rewrite (filter_none _ fam); [by rewrite !app_nil_r|].
    intros c Hin. apply (other_families_not_precondition pop args). by left. }
  split_and!.
  - apply precondition_pairs_NoDup, NoDup_elements.
  - done.
  - rewrite Hfilter. exact Hall.
  - intros a2 p s Ha2 Hp Hs Honly.
    assert (other_adders s a2 = []) as Hnone.
    { unfold other_adders. apply filter_none.
      intros a1 Ha1%elem_of_elements Hne. by apply Hne, Honly. }
    destruct (Forall2_elem_of_l _ _ _ (a2, p) Hall) as (c & Hin & s' & Hs' & ->).
    { by apply Hpairs. }
    simpl in *. simplify_eq.
    unfold precondition_clause in Hin. rewrite Hnone in Hin. simpl in Hin.
    assert (FImp (FVar (Action a2)) (FOr [])
            ∈ fam ++ pre ++ sup ++ option_clauses pop args) as Hin'.
    { rewrite !elem_of_app. right. by left. }
    split; [exact Hin'|].
    intros v Hv. specialize (Hv _ Hin'). simpl in Hv.
    by destruct (v (Action a2)).
Qed.

(** *** The clause generator ends normally

    When every fact that an action of [A] requires, adds or deletes is in
    [F], neither the indices nor the clauses raise. *)

Lemma index_get_Ok (m : gmap fact (gset action)) (p : fact) :
  p ∈ dom m → ∃ s, index_get m p = Ok s.
Proof.
  intros [s Hs]%elem_of_dom. exists s. unfold index_get. by rewrite Hs.
Qed.

Lemma hard_clauses_total (pop : POP) (args : cmdargs)
  (adders deleters : gmap fact (gset action)) :
  (∀ a, a ∈ pop_A pop → pres a ⊆ dom adders ∩ dom deleters) →
  ∃ clauses, hard_clauses pop args adders deleters = Ok clauses.
Proof.
  intros Hpres. unfold hard_clauses, base_clauses.
  assert (∀ a2 p, a2 ∈ elements (pop_A pop) → p ∈ elements (pres a2) →
            p ∈ dom adders ∧ p ∈ dom deleters) as Hdom.
  { intros a2 p Ha2%elem_of_elements Hp%elem_of_elements.
    apply elem_of_intersection. by apply (Hpres a2). }
  destruct (for_each_total (elements (pop_A pop))
    (λ a2, for_each (elements (pres a2)) (λ p,
       s ← index_get adders p; Ok [precondition_clause s p a2])))
    as [pre Hpre].
  { intros a2 Ha2. apply for_each_total. intros p Hp.
    destruct (index_get_Ok adders p) as [s ->]; [by apply (Hdom a2)|].
    simpl. by eexists. }
  destruct (for_each_total (elements (pop_A pop))
    (λ a2, for_each (elements (pres a2)) (λ p,
       s ← index_get adders p;
       for_each (other_adders s a2) (λ a1,
         d ← index_get deleters p;
         Ok (support_order_clause a1 p a2 :: threat_clauses d a1 p a2)))))
    as [sup Hsup].
  { intros a2 Ha2. apply for_each_total. intros p Hp.
    destruct (index_get_Ok adders p) as [s ->]; [by apply (Hdom a2)|].
    simpl. apply for_each_total. intros a1 _.
    destruct (index_get_Ok deleters p) as [d ->]; [by apply (Hdom a2)|].
    simpl. by eexists. }
  unfold precondition_clauses, support_clauses. rewrite Hpre, Hsup. simpl.
  by eexists.
Qed.

Lemma compile_POP_total (pop : POP) (args : cmdargs) :
  (∀ a, a ∈ pop_A pop → pres a ∪ adds a ∪ dels a ⊆ pop_F pop) →
  ∃ cnf, compile_POP pop args = Ok cnf.
Proof.
  intros Hall. unfold compile_POP.
  pose proof (build_indices_inv (pop_F pop) (pop_A pop)) as Hinv.
  destruct (build_indices (pop_F pop) (pop_A pop)) as [idx|e]; simpl.
  - destruct Hinv as [[Hd1 Hd2] _].
    destruct (for_each_total (elements (pop_A pop))
      (λ a2, for_each (elements (pres a2)) (λ p,
         s ← index_get idx.1 p; Ok (a1 ← elements s; [Support a1 p a2]))))
      as [sups Hsups].
    { intros a2 Ha2%elem_of_elements. apply for_each_total.
      intros p Hp%elem_of_elements.
      destruct (index_get_Ok idx.1 p) as [s ->]; [|simpl; by eexists].
      rewrite Hd1. apply (Hall a2 Ha2). set_solver. }
    unfold supports. rewrite Hsups. simpl.
    destruct (hard_clauses_total pop args idx.1 idx.2) as [clauses ->].
    { intros a Ha. rewrite Hd1, Hd2. specialize (Hall a Ha). set_solver. }
    simpl. by eexists.
  - destruct Hinv as (_ & a & f & Ha & Hf & HF). exfalso. apply HF.
    apply (Hall a Ha). set_solver.
Qed.

(** *** Family 9: the threats *)

Lemma for_each_elem_of_2 {X Y : Type} (l : list X) (body : X → result (list Y))
  (r : list Y) (x : X) (ys : list Y) (y : Y) :
  for_each l body = Ok r → x ∈ l → body x = Ok ys → y ∈ ys → y ∈ r.
Proof. intros Hr ???. apply (for_each_elem_of _ _ _ y Hr). eauto. Qed.

(** The clauses appended for a supporter [a1] of the precondition [p] of
    [a2] are in the list that lines 137-147 build. *)
Lemma support_clauses_elem_of (A : list action)
  (adders deleters : gmap fact (gset action)) (sup : list formula)
  (a1 a2 : action) (p : fact) (s d : gset action) (c : formula) :
  support_clauses A adders deleters = Ok sup →
  a2 ∈ A → p ∈ pres a2 → adders !! p = Some s → a1 ∈ s → a1 ≠ a2 →
  deleters !! p = Some d →
  c ∈ support_order_clause a1 p a2 :: threat_clauses d a1 p a2 →
  c ∈ sup.
Proof.
  intros Hsup Ha2 Hp Hs Ha1 Hne Hd Hc.
  destruct (for_each_Ok_body _ _ _ a2 Hsup Ha2) as [ys Hys].
  apply (for_each_elem_of_2 _ _ _ a2 ys c Hsup Ha2 Hys).
  assert (p ∈ elements (pres a2)) as Hp' by by apply elem_of_elements.
  destruct (for_each_Ok_body _ _ _ p Hys Hp') as [zs Hzs].
  apply (for_each_elem_of_2 _ _ _ p zs c Hys Hp' Hzs).
  unfold index_get in Hzs. rewrite Hs in Hzs. simpl in Hzs.
  assert (a1 ∈ other_adders s a2) as Ha1'.
  { unfold other_adders. apply list_elem_of_filter.
    split; [done|by apply elem_of_elements]. }
  eapply (for_each_elem_of_2 _ _ _ a1); [exact Hzs|exact Ha1'| |exact Hc].
  simpl. by rewrite Hd.
Qed.

(** C2. For a precondition [p] of an action [a2] of [A], a supporter [a1]
    in [adders[p]] other than [a2], and a deleter [ad] in [deleters[p]]
    other than [a1] and [a2], the clause
    [Support(a1,p,a2) >> (~Action(ad) | Order(ad,a1) | Order(a2,ad))] is in
    the clause list; so an assignment that satisfies the clauses and makes
    [Support(a1,p,a2)] true makes [Action(ad)] false or one of
    [Order(ad,a1)], [Order(a2,ad)] true. *)
Theorem threat_resolution (pop : POP) (args : cmdargs)
  (adders deleters : gmap fact (gset action)) (clauses : list formula)
  (a1 a2 ad : action) (p : fact) (s d : gset action) :
  hard_clauses pop args adders deleters = Ok clauses →
  a2 ∈ pop_A pop → p ∈ pres a2 →
  adders !! p = Some s → a1 ∈ s → a1 ≠ a2 →
  deleters !! p = Some d → ad ∈ d → ad ≠ a1 → ad ≠ a2 →
  FImp (FVar (Support a1 p a2))
       (FOr [FOr [FNot (FVar (Action ad)); FVar (Order ad a1)];
             FVar (Order a2 ad)]) ∈ clauses
  ∧ ∀ v, satisfies v clauses → v (Support a1 p a2) = true →
         v (Action ad) = false ∨ v (Order ad a1) = true
         ∨ v (Order a2 ad) = true.
Proof.
  intros Hc Ha2 Hp Hs Ha1 Hne Hd Had Hne1 Hne2.
  destruct (hard_clauses_inv _ _ _ _ _ Hc) as (pre & sup & Hpre & Hsup & ->).
  assert (threat_clause a1 p a2 ad ∈ sup) as Hin.
  { eapply (support_clauses_elem_of _ _ _ _ a1 a2 p s d); try done.
    - by apply elem_of_elements.
    - right. unfold threat_clauses. apply list_elem_of_bind. exists ad.
      split; [|by apply elem_of_elements].
      rewrite decide_True; [by apply list_elem_of_singleton|].
      intros [->|[->|?%elem_of_nil]%elem_of_cons]%elem_of_cons; done. }
  assert (threat_clause a1 p a2 ad ∈
            (irreflexive_clauses (elements (pop_A pop))
             ++ transitivity_clauses (elements (pop_A pop))
             ++ order_action_clauses (elements (pop_A pop))
             ++ bracket_clauses (elements (pop_A pop)) (pop_init pop) (pop_goal pop)
             ++ init_goal_clauses (pop_init pop) (pop_goal pop)
             ++ pre ++ sup) ++ option_clauses pop args) as Hin'.
  { rewrite !elem_of_app. left. do 6 right. done. }
  split; [exact Hin'|].
  intros v Hv Hsupp. specialize (Hv _ Hin'). simpl in Hv.
  rewrite Hsupp in Hv. simpl in Hv.
  destruct (v (Action ad)); [|by left].
  destruct (v (Order ad a1)); [by right; left|].
  destruct (v (Order a2 ad)); [by right; right|]. done.
Qed.

(** *** The variable numbering *)

Lemma var_labels_elem_of (vars : list (name aux)) (v : Z) (n : name aux) :
  (v, n) ∈ var_labels vars ↔ ∃ i, vars !! i = Some n ∧ v = Z.of_nat (S i).
Proof.
  unfold var_labels. rewrite elem_of_lookup_imap. split.
  - intros (i & n' & [= -> ->] & Hi). eauto.
  - intros (i & Hi & ->). eauto.
Qed.

Lemma var_labels_inverse_Some (labels : list (Z * name aux))
  (m : gmap (name aux) Z) (n : name aux) (v : Z) :
  foldl (λ m kv, <[kv.2 := kv.1]> m) m labels !! n = Some v →
  m !! n = Some v ∨ (v, n) ∈ labels.
Proof.
  revert m. induction labels as [|[k n'] labels IH]; simpl; intros m Hl.
  - by left.
  - destruct (IH _ Hl) as [Hm|Hin]; [|right; by right].
    apply lookup_insert_Some in Hm as [[-> ->]|[_ Hm]]; [right; left|by left].
Qed.

Lemma var_labels_inverse_is_Some (labels : list (Z * name aux))
  (m : gmap (name aux) Z) (n : name aux) :
  is_Some (m !! n) ∨ n ∈ labels.*2 →
  is_Some (foldl (λ m kv, <[kv.2 := kv.1]> m) m labels !! n).
Proof.
  revert m. induction labels as [|[k n'] labels IH]; simpl; intros m Hn.
  - destruct Hn as [?|?%elem_of_nil]; done.
  - apply IH. rewrite lookup_insert_is_Some.
    destruct Hn as [Hm|[->|Hin]%elem_of_cons]; [|by left; left|by right].
    left. destruct (decide (n' = n)); [by left|by right].
Qed.

(** The variable looked up for a name is the 1-based position of the name
    in the iteration over [cnf.vars()]. *)
Lemma cnf_inverse_Some (cnf : CNF) (n : name aux) (v : Z) :
  cnf_inverse cnf !! n = Some v →
  ∃ i, elements (cnf_vars cnf) !! i = Some n ∧ v = Z.of_nat (S i).
Proof.
  unfold cnf_inverse, var_labels_inverse. intros Hl.
  apply var_labels_inverse_Some in Hl as [Hl|Hl]; [by rewrite lookup_empty in Hl|].
  by apply var_labels_elem_of.
Qed.

(** The lookup fails exactly for the names that are not variables of the
    CNF. *)
Lemma cnf_inverse_None (cnf : CNF) (n : name aux) :
  cnf_inverse cnf !! n = None ↔ n ∉ cnf_vars cnf.
Proof.
  split.
  - intros Hnone Hin. apply elem_of_elements, list_elem_of_lookup in Hin as [i Hi].
    assert (is_Some (cnf_inverse cnf !! n)) as [v Hv]; [|congruence].
    apply var_labels_inverse_is_Some. right.
    apply list_elem_of_fmap. exists (Z.of_nat (S i), n). split; [done|].
    apply var_labels_elem_of. eauto.
  - intros Hnot. destruct (cnf_inverse cnf !! n) as [v|] eqn:Hv; [|done].
    apply cnf_inverse_Some in Hv as (i & Hi & _). exfalso. apply Hnot.
    apply elem_of_elements. by eapply list_elem_of_lookup_2.
Qed.

(** *** The soft clauses *)

Lemma actions_elem_of (A : gset action) (x : proposition) :
  x ∈ actions A ↔ ∃ a, a ∈ A ∧ x = Action a.
Proof.
  rewrite actions_fmap, list_elem_of_fmap.
  split; intros (a & ? & ?); exists a; by rewrite ?elem_of_elements in *.
Qed.

Lemma orders_elem_of (A : gset action) (x : proposition) :
  x ∈ orders A ↔ ∃ a1 a2, a1 ∈ A ∧ a2 ∈ A ∧ x = Order a1 a2.
Proof.
  unfold orders. rewrite list_elem_of_bind. split.
  - intros (a1 & (a2 & ->%list_elem_of_singleton & Ha2%elem_of_elements)
              %list_elem_of_bind & Ha1%elem_of_elements).
    eauto.
  - intros (a1 & a2 & Ha1 & Ha2 & ->). exists a1.
    split; [|by apply elem_of_elements]. apply list_elem_of_bind. exists a2.
    split; [by apply list_elem_of_singleton|by apply elem_of_elements].
Qed.

Lemma soft_clauses_elem_of (A : gset action) (c : Z) (x : proposition) :
  (c, x) ∈ soft_clauses A
  ↔ (∃ a, a ∈ A ∧ x = Action a ∧ c = action_cost (orders A))
    ∨ (∃ a1 a2, a1 ∈ A ∧ a2 ∈ A ∧ x = Order a1 a2 ∧ c = order_cost).
Proof.
  unfold soft_clauses. rewrite elem_of_app, !list_elem_of_fmap. split.
  - intros [(y & [= -> ->] & Hy)|(y & [= -> ->] & Hy)].
    + apply actions_elem_of in Hy as (a & ? & ->). left. eauto.
    + apply orders_elem_of in Hy as (a1 & a2 & ? & ? & ->). right. eauto 10.
  - intros [(a & Ha & -> & ->)|(a1 & a2 & Ha1 & Ha2 & -> & ->)].
    + left. exists (Action a). split; [done|]. apply actions_elem_of. eauto.
    + right. exists (Order a1 a2). split; [done|]. apply orders_elem_of. eauto.
Qed.

Lemma soft_clauses_NoDup (A : gset action) : NoDup (soft_clauses A).*2.
Proof.
  unfold soft_clauses. rewrite fmap_app, <-!list_fmap_compose.
  change (snd ∘ (λ x : proposition, (action_cost (orders A), x))) with (@id proposition).
  change (snd ∘ (λ x : proposition, (order_cost, x))) with (@id proposition).
  rewrite !list_fmap_id. apply NoDup_app. split_and!.
  - rewrite actions_fmap. apply NoDup_fmap_2; [by intros ?? [=]|apply NoDup_elements].
  - intros x (a & _ & ->)%actions_elem_of (a1 & a2 & _ & _ & [=])%orders_elem_of.
  - unfold orders. apply NoDup_bind; [| |apply NoDup_elements].
    + intros a1 a1' x _ _ (a2 & ->%list_elem_of_singleton & _)%list_elem_of_bind
        (a2' & [=]%list_elem_of_singleton & _)%list_elem_of_bind. done.
    + intros a1 _. rewrite bind_singleton_fmap.
      apply NoDup_fmap_2; [by intros ?? [=]|apply NoDup_elements].
Qed.

Lemma soft_lines_inv (cost : Z) (inverse : gmap (name aux) Z)
  (props : list proposition) :
  match soft_lines cost inverse props with
  | Ok ls =>
      Forall2 (λ x line, ∃ v, inverse !! NProp x = Some v
                              ∧ line = soft_line cost v) props ls
  | Raise e => e = KeyError ∧ ∃ x, x ∈ props ∧ inverse !! NProp x = None
  end.
Proof.
  unfold soft_lines.
  destruct (for_each props _) as [ls|e] eqn:Hls.
  - rewrite <-(list_fmap_id props), <-(bind_singleton_fmap id props).
    eapply for_each_Forall2; [exact Hls|]. simpl.
    intros x ys _ Hys. destruct (inverse !! NProp x) as [v|] eqn:Hv; simplify_eq.
    repeat constructor. eauto.
  - apply for_each_Raise in Hls as (x & Hx & Hr).
    destruct (inverse !! NProp x) as [v|] eqn:Hv; simplify_eq. eauto.
Qed.

Lemma read_header_Ok (lines : list string) (nv : string) (n : Z) :
  read_header lines = Ok (nv, n) →
  ∃ line0 rest t0 t1 nc,
    lines = line0 :: rest ∧ PyStr.contains "p cnf" line0 = true
    ∧ PyStr.split_ws line0 = [t0; t1; nv; nc] ∧ PyStr.py_int nc = Some n.
Proof.
  unfold read_header. intros Hr. destruct lines as [|line0 rest]; [discriminate|].
  destruct (PyStr.contains "p cnf" line0) eqn:Hc; simpl in Hr; [|discriminate].
  destruct (PyStr.split_ws line0) as [|t0 [|t1 [|nv' [|nc [|]]]]] eqn:Hs;
    try discriminate Hr.
  destruct (PyStr.py_int nc) as [n'|] eqn:Hn; [|discriminate].
  injection Hr as -> ->. exists line0, rest, t0, t1, nc. eauto.
Qed.

(** [split] never returns an empty list, so [cnflines[0]] exists. *)
Lemma cnflines_nonempty (cnf : CNF) : cnflines cnf ≠ [].
Proof.
  unfold cnflines, PyStr.split_lines.
  generalize (PyStr.strip (dumps cnf (cnf_inverse cnf))) as s.
  intros s. generalize EmptyString as cur. intros cur. revert cur.
  induction s as [|c s IH]; intros cur; simpl; [discriminate|].
  destruct (Ascii.eqb c PyStr.newline); [discriminate|apply IH].
Qed.

(** What [write_files] does, case by case: it raises what reading the
    header raises; otherwise [KeyError] when a soft clause finds no
    variable; otherwise it returns the two files. *)
Lemma write_files_inv (pop : POP) (cnf : CNF) :
  let acts := actions (pop_A pop) in
  let ords := orders (pop_A pop) in
  match write_files pop cnf with
  | Ok out =>
      ∃ nv n sa so,
        read_header (cnflines cnf) = Ok (nv, n)
        ∧ soft_lines (action_cost ords) (cnf_inverse cnf) acts = Ok sa
        ∧ soft_lines order_cost (cnf_inverse cnf) ords = Ok so
        ∧ out = {| wcnf_file :=
                     PyStr.join (String PyStr.newline EmptyString)
                       (wcnf_header nv n acts ords
                        :: (hard_line (top_cost ords acts) <$> tail (cnflines cnf))
                        ++ sa ++ so);
                   map_file :=
                     PyStr.json_dumps (prod_map id str_name <$> cnf_labels cnf) |}
  | Raise e =>
      read_header (cnflines cnf) = Raise e
      ∨ (∃ h, read_header (cnflines cnf) = Ok h) ∧ e = KeyError
        ∧ ∃ x, x ∈ acts ++ ords ∧ cnf_inverse cnf !! NProp x = None
  end.
Proof.
  intros acts ords. unfold write_files, wcnf_lines. fold acts ords.
  destruct (read_header (cnflines cnf)) as [[nv n]|e] eqn:Hh; simpl; [|by left].
  pose proof (soft_lines_inv (action_cost ords) (cnf_inverse cnf) acts) as Ha.
  destruct (soft_lines (action_cost ords) (cnf_inverse cnf) acts) as [sa|e]; simpl.
  - pose proof (soft_lines_inv order_cost (cnf_inverse cnf) ords) as Ho.
    destruct (soft_lines order_cost (cnf_inverse cnf) ords) as [so|e]; simpl.
    + by exists nv, n, sa, so.
    + destruct Ho as (-> & x & Hx & Hnone). right. split; [eauto|].
      split; [done|]. exists x. rewrite elem_of_app. eauto.
  - destruct Ha as (-> & x & Hx & Hnone). right. split; [eauto|].
    split; [done|]. exists x. rewrite elem_of_app. eauto.
Qed.

Lemma soft_lines_lookup (cost : Z) (cnf : CNF) (props : list proposition)
  (ls : list string) :
  soft_lines cost (cnf_inverse cnf) props = Ok ls →
  Forall2 (λ x line, ∃ i, elements (cnf_vars cnf) !! i = Some (NProp x)
                          ∧ line = soft_line cost (Z.of_nat (S i)))
    props ls.
Proof.
  intros Hls. pose proof (soft_lines_inv cost (cnf_inverse cnf) props) as Hinv.
  rewrite Hls in Hinv. eapply Forall2_impl; [exact Hinv|]. simpl.
  intros x line (v & Hv & ->).
  apply cnf_inverse_Some in Hv as (i & Hi & ->). eauto.
Qed.

(** *** The map file *)

(** C8, as the code has it. The map file is the JSON object, indented by
    four spaces, that maps the string of each 1-based variable index to
    [str] of the variable; for a proposition that is its [__str__]:
    [a in plan], [a1 -> a2], [a1 supports p for a2]. *)
Theorem map_file_contents (pop : POP) (args : cmdargs) (out : files) :
  encode_body pop args = Ok out →
  ∃ cnf,
    compile_POP pop args = Ok cnf
    ∧ map_file out
      = match elements (cnf_vars cnf) with
        | [] => "{}"
        | vars =>
            "{" +:+ String PyStr.newline EmptyString
            +:+ PyStr.join ("," +:+ String PyStr.newline EmptyString)
                  (imap (λ i n,
                     "    " +:+ PyStr.dquote
                     +:+ PyStr.str_int (Z.of_nat (S i)) +:+ PyStr.dquote
                     +:+ ": " +:+ PyStr.json_string (str_name n)) vars)
            +:+ String PyStr.newline EmptyString +:+ "}"
        end
    ∧ ∀ x, str_name (NProp x)
           = match x with
             | Action a => str_action a +:+ " in plan"
             | Order a1 a2 => str_action a1 +:+ " -> " +:+ str_action a2
             | Support a1 p a2 =>
                 str_action a1 +:+ " supports " +:+ str_fact p +:+ " for "
                 +:+ str_action a2
             end.
Proof.
  intros Hout. unfold encode_body in Hout.
  destruct (compile_POP pop args) as [cnf|] eqn:Hcnf; simpl in Hout;
    [|discriminate].
  pose proof (write_files_inv pop cnf) as Hw. rewrite Hout in Hw.
  destruct Hw as (nv & n & sa & so & _ & _ & _ & ->).
  exists cnf. split; [done|]. split; [|by intros []].
  simpl. unfold cnf_labels, var_labels, PyStr.json_dumps.
  rewrite !fmap_imap.
  destruct (elements (cnf_vars cnf)) as [|n0 vars]; [done|].
  done.
Qed.

(** *** Variables that the engine did not keep *)

(** C9. Once the clauses are compiled: if an [Action] or [Order]
    proposition of the POP is not a variable of the compiled CNF, the
    encoder raises and writes no file, and the exception is [KeyError]
    whenever the header of the DIMACS text passed the checks of lines
    176-178; so when files are written, every [Action] proposition and every
    [Order] proposition is a variable of the compiled CNF. *)
Theorem absent_variable_raises (pop : POP) (args : cmdargs) (cnf : CNF) :
  compile_POP pop args = Ok cnf →
  (∀ x,
     (∃ a, a ∈ pop_A pop ∧ x = Action a)
     ∨ (∃ a1 a2, a1 ∈ pop_A pop ∧ a2 ∈ pop_A pop ∧ x = Order a1 a2) →
     NProp x ∉ cnf_vars cnf →
     ∃ e, encode_body pop args = Raise e
          ∧ ((∃ h, read_header (cnflines cnf) = Ok h) → e = KeyError))
  ∧ (∀ out, encode_body pop args = Ok out →
       (∀ a, a ∈ pop_A pop → NProp (Action a) ∈ cnf_vars cnf)
       ∧ (∀ a1 a2, a1 ∈ pop_A pop → a2 ∈ pop_A pop →
            NProp (Order a1 a2) ∈ cnf_vars cnf)).
Proof.
  intros Hcnf. unfold encode_body. rewrite Hcnf. simpl.
  assert (∀ out x, write_files pop cnf = Ok out →
            x ∈ actions (pop_A pop) ++ orders (pop_A pop) →
            NProp x ∈ cnf_vars cnf) as Hpresent.
  { intros out x Hout Hx.
    pose proof (write_files_inv pop cnf) as Hw. rewrite Hout in Hw.
    destruct Hw as (nv & n & sa & so & _ & Hsa & Hso & _).
    destruct (decide (NProp x ∈ cnf_vars cnf)) as [|Hnot]; [done|].
    apply cnf_inverse_None in Hnot.
    pose proof (soft_lines_inv (action_cost (orders (pop_A pop)))
                  (cnf_inverse cnf) (actions (pop_A pop))) as Ha.
    pose proof (soft_lines_inv order_cost (cnf_inverse cnf)
                  (orders (pop_A pop))) as Ho.
    rewrite Hsa in Ha. rewrite Hso in Ho.
    apply elem_of_app in Hx as [Hx|Hx].
    - destruct (Forall2_elem_of_l _ _ _ x Ha Hx) as (? & _ & v & Hv & _).
      congruence.
    - destruct (Forall2_elem_of_l _ _ _ x Ho Hx) as (? & _ & v & Hv & _).
      congruence. }
  split.
  - intros x Hx Hnot.
    assert (x ∈ actions (pop_A pop) ++ orders (pop_A pop)) as Hin.
    { rewrite elem_of_app, actions_elem_of, orders_elem_of. done. }
    pose proof (write_files_inv pop cnf) as Hw.
    destruct (write_files pop cnf) as [out|e] eqn:Hout.
    + exfalso. apply Hnot. by apply (Hpresent out).
    + exists e. split; [done|]. intros [h Hh].
      destruct Hw as [Hr|(_ & -> & _)]; [congruence|done].
  - intros out Hout. split.
    + intros a Ha. apply (Hpresent out); [done|].
      rewrite elem_of_app, actions_elem_of. eauto.
    + intros a1 a2 Ha1 Ha2. apply (Hpresent out); [done|].
      rewrite elem_of_app, orders_elem_of. eauto 10.
Qed.

(** *** The POP after the call *)


End Properties.

(** ** Python strings: round trips *)

Lemma append_String (c : ascii) (s t : string) :
  String c s +:+ t = String c (s +:+ t).
Proof. reflexivity. Qed.

Lemma append_empty_l (s : string) : EmptyString +:+ s = s.
Proof. reflexivity. Qed.

Lemma append_empty_r (s : string) : s +:+ EmptyString = s.
Proof.
  induction s as [|c s IH]; [done|]. by rewrite append_String, IH.
Qed.

Lemma append_assoc (s t u : string) : (s +:+ t) +:+ u = s +:+ t +:+ u.
Proof.
  induction s as [|c s IH]; [done|]. by rewrite !append_String, IH.
Qed.

Lemma rev_app_append (s t u : string) :
  String.rev_app s (t +:+ u) = String.rev_app s t +:+ u.
Proof.
  revert t. induction s as [|c s IH]; intros t; simpl; [done|].
  by rewrite <-IH.
Qed.

Lemma rev_app_rev (s t : string) : String.rev_app s t = String.rev s +:+ t.
Proof. unfold String.rev. by rewrite <-rev_app_append. Qed.

Lemma rev_String (c : ascii) (s : string) :
  String.rev (String c s) = String.rev s +:+ String c EmptyString.
Proof. unfold String.rev at 1. simpl. apply rev_app_rev. Qed.

Lemma rev_append (s t : string) :
  String.rev (s +:+ t) = String.rev t +:+ String.rev s.
Proof.
  induction s as [|c s IH].
  - by rewrite append_empty_l, append_empty_r.
  - by rewrite append_String, !rev_String, IH, append_assoc.
Qed.

Lemma rev_involutive (s : string) : String.rev (String.rev s) = s.
Proof.
  induction s as [|c s IH]; [done|].
  by rewrite rev_String, rev_append, IH.
Qed.

Lemma all_chars_append (P : ascii → bool) (s t : string) :
  PyStr.all_chars P (s +:+ t) = PyStr.all_chars P s && PyStr.all_chars P t.
Proof.
  induction s as [|c s IH]; [done|].
  rewrite append_String. simpl. by rewrite IH, andb_assoc.
Qed.

Lemma all_chars_rev (P : ascii → bool) (s : string) :
  PyStr.all_chars P (String.rev s) = PyStr.all_chars P s.
Proof.
  induction s as [|c s IH]; [done|].
  rewrite rev_String, all_chars_append, IH. simpl.
  by rewrite andb_true_r, andb_comm.
Qed.

Lemma all_chars_impl (P Q : ascii → bool) (s : string) :
  (∀ c, P c = true → Q c = true) →
  PyStr.all_chars P s = true → PyStr.all_chars Q s = true.
Proof.
  intros HPQ. induction s as [|c s IH]; [done|]. simpl.
  intros [Hc Hs]%andb_true_iff. by rewrite (HPQ c Hc), IH.
Qed.

(** White space includes the line break. *)
Lemma no_space_one_line (s : string) :
  PyStr.no_space s = true → PyStr.one_line s = true.
Proof.
  apply all_chars_impl. intros c Hc.
  destruct (Ascii.eqb c PyStr.newline) eqn:Heq; [|done].
  apply Ascii.eqb_eq in Heq as ->. done.
Qed.

(** *** [split('\n')] and ['\n'.join] *)

Lemma split_go_nonempty (sep : ascii) (cur s : string) :
  PyStr.split_go sep cur s ≠ [].
Proof.
  revert cur. induction s as [|c s IH]; intros cur; simpl; [discriminate|].
  destruct (Ascii.eqb c sep); [discriminate|apply IH].
Qed.

Lemma join_cons (sep x : string) (l : list string) :
  l ≠ [] → PyStr.join sep (x :: l) = x +:+ sep +:+ PyStr.join sep l.
Proof. by destruct l. Qed.

Lemma join_split_go (sep : ascii) (cur s : string) :
  PyStr.join (String sep EmptyString) (PyStr.split_go sep cur s)
  = String.rev cur +:+ s.
Proof.
  revert cur. induction s as [|c s IH]; intros cur; simpl.
  - by rewrite append_empty_r.
  - destruct (Ascii.eqb c sep) eqn:Heq.
    + apply Ascii.eqb_eq in Heq as ->.
      rewrite join_cons by apply split_go_nonempty. by rewrite IH.
    + by rewrite IH, rev_String, append_assoc.
Qed.

(** X19. Joining the lines of a text gives the text back. *)
Theorem join_split_lines (s : string) :
  PyStr.join (String PyStr.newline EmptyString) (PyStr.split_lines s) = s.
Proof. unfold PyStr.split_lines. by rewrite join_split_go. Qed.

Lemma split_go_piece (sep : ascii) (cur x : string) :
  PyStr.all_chars (λ c, negb (Ascii.eqb c sep)) x = true →
  PyStr.split_go sep cur x = [String.rev cur +:+ x]
  ∧ ∀ r, PyStr.split_go sep cur (x +:+ String sep r)
         = (String.rev cur +:+ x) :: PyStr.split_go sep EmptyString r.
Proof.
  revert cur. induction x as [|c x IH]; intros cur Hx.
  - rewrite append_empty_r. split; [done|]. intros r.
    rewrite ?append_empty_l. simpl. by rewrite Ascii.eqb_refl.
  - simpl in Hx. apply andb_true_iff in Hx as [Hc Hx].
    apply negb_true_iff in Hc.
    destruct (IH (String c cur) Hx) as [IH1 IH2].
    rewrite rev_String, append_assoc in IH1, IH2. split.
    + simpl. by rewrite Hc.
    + intros r. rewrite append_String. simpl. rewrite Hc. apply IH2.
Qed.

Lemma split_go_join (sep : ascii) (l : list string) :
  l ≠ [] →
  Forall (λ x, PyStr.all_chars (λ c, negb (Ascii.eqb c sep)) x = true) l →
  PyStr.split_go sep EmptyString (PyStr.join (String sep EmptyString) l) = l.
Proof.
  intros Hne Hall. induction Hall as [|x l Hx Hl IH]; [done|].
  destruct (split_go_piece sep EmptyString x Hx) as [H1 H2].
  destruct l as [|y l]; [exact H1|].
  rewrite join_cons by done. rewrite append_String, append_empty_l, H2.
  f_equal. by apply IH.
Qed.

(** X18. Splitting the join of lines that hold no line break gives the lines
    back. *)
Theorem split_lines_join (l : list string) :
  l ≠ [] → Forall (λ x, PyStr.one_line x = true) l →
  PyStr.split_lines (PyStr.join (String PyStr.newline EmptyString) l) = l.
Proof. apply split_go_join. Qed.

Lemma split_go_one_line (cur s : string) :
  PyStr.one_line cur = true →
  Forall (λ x, PyStr.one_line x = true) (PyStr.split_go PyStr.newline cur s).
Proof.
  revert cur. induction s as [|c s IH]; intros cur Hcur; simpl.
  - repeat constructor. unfold PyStr.one_line. by rewrite all_chars_rev.
  - destruct (Ascii.eqb c PyStr.newline) eqn:Heq.
    + constructor; [unfold PyStr.one_line; by rewrite all_chars_rev|].
      by apply IH.
    + apply IH. unfold PyStr.one_line. simpl. rewrite Heq. exact Hcur.
Qed.

(** *** [split()] *)

Lemma split_ws_go_tokens (cur s : string) :
  PyStr.no_space cur = true →
  Forall (λ x, PyStr.is_token x = true) (PyStr.split_ws_go cur s).
Proof.
  assert (∀ w, w ≠ EmptyString → PyStr.no_space w = true →
            PyStr.is_token (String.rev w) = true) as Htok.
  { intros w Hne Hw. unfold PyStr.is_token.
    destruct (String.rev w) eqn:Hrev.
    - apply (f_equal String.rev) in Hrev. rewrite rev_involutive in Hrev.
      done.
    - rewrite <-Hrev. unfold PyStr.no_space. by rewrite all_chars_rev. }
  revert cur. induction s as [|c s IH]; intros cur Hcur; simpl.
  - destruct cur; [constructor|]. repeat constructor. by apply Htok.
  - destruct (PyStr.is_space c) eqn:Hc.
    + destruct cur; [by apply IH|]. constructor; [by apply Htok|by apply IH].
    + apply IH. unfold PyStr.no_space. simpl. by rewrite Hc.
Qed.

(** Every piece that [split()] returns is non-empty and free of white
    space. *)
Lemma split_ws_tokens (s : string) :
  Forall (λ x, PyStr.is_token x = true) (PyStr.split_ws s).
Proof. by apply split_ws_go_tokens. Qed.

Lemma split_ws_go_no_space (cur x r : string) :
  PyStr.no_space x = true →
  PyStr.split_ws_go cur (x +:+ r) = PyStr.split_ws_go (String.rev_app x cur) r.
Proof.
  revert cur. induction x as [|c x IH]; intros cur Hx; [done|].
  unfold PyStr.no_space in Hx. simpl in Hx.
  apply andb_true_iff in Hx as [Hc Hx]. apply negb_true_iff in Hc.
  rewrite append_String. simpl. rewrite Hc. by apply IH.
Qed.

(** A token followed by a blank is split off. *)
Lemma split_ws_token_space (x r : string) :
  PyStr.is_token x = true →
  PyStr.split_ws_go EmptyString (x +:+ String " " r)
  = x :: PyStr.split_ws_go EmptyString r.
Proof.
  intros Hx. assert (PyStr.no_space x = true) as Hns by by destruct x.
  rewrite split_ws_go_no_space by done. simpl.
  destruct (String.rev_app x EmptyString) eqn:Hrev.
  - fold (String.rev x) in Hrev. apply (f_equal String.rev) in Hrev.
    rewrite rev_involutive in Hrev. by subst x.
  - rewrite <-Hrev. fold (String.rev x). by rewrite rev_involutive.
Qed.

Lemma split_ws_token_end (x : string) :
  PyStr.is_token x = true → PyStr.split_ws_go EmptyString x = [x].
Proof.
  intros Hx. assert (PyStr.no_space x = true) as Hns by by destruct x.
  rewrite <-(append_empty_r x) at 1.
  rewrite split_ws_go_no_space by done. simpl.
  destruct (String.rev_app x EmptyString) eqn:Hrev.
  - fold (String.rev x) in Hrev. apply (f_equal String.rev) in Hrev.
    rewrite rev_involutive in Hrev. by subst x.
  - rewrite <-Hrev. fold (String.rev x). by rewrite rev_involutive.
Qed.

(** *** [strip()], [int()] and the printing of integers *)

Lemma lstrip_no_space (s : string) :
  PyStr.no_space s = true → PyStr.lstrip s = s.
Proof.
  destruct s as [|c s]; [done|]. unfold PyStr.no_space. simpl.
  intros [Hc _]%andb_true_iff. apply negb_true_iff in Hc. by rewrite Hc.
Qed.

Lemma strip_no_space (s : string) :
  PyStr.no_space s = true → PyStr.strip s = s.
Proof.
  intros Hs. unfold PyStr.strip.
  rewrite (lstrip_no_space s Hs), lstrip_no_space, rev_involutive; [done|].
  unfold PyStr.no_space. by rewrite all_chars_rev.
Qed.

Lemma string_of_uint_digits (d : Decimal.uint) :
  PyStr.all_chars PyStr.is_digit (NilEmpty.string_of_uint d) = true.
Proof. induction d; simpl; auto. Qed.

Lemma digits_of_digits (b : bool) (s : string) :
  PyStr.all_chars PyStr.is_digit s = true → (b = true ∨ s ≠ EmptyString) →
  PyStr.digits_of b s = Some s.
Proof.
  revert b. induction s as [|c s IH]; intros b Hs Hb; simpl.
  - destruct Hb as [->|?]; done.
  - simpl in Hs. apply andb_true_iff in Hs as [Hc Hs]. rewrite Hc.
    rewrite (IH true Hs); [done|by left].
Qed.

Lemma NilZero_string_of_uint_digits (d : Decimal.uint) :
  PyStr.all_chars PyStr.is_digit (NilZero.string_of_uint d) = true
  ∧ NilZero.string_of_uint d ≠ EmptyString.
Proof.
  destruct d; simpl; (split; [|done]); auto using string_of_uint_digits.
Qed.

Lemma parse_nat_string_of_uint (d : Decimal.uint) :
  d ≠ Decimal.Nil →
  PyStr.parse_nat (NilZero.string_of_uint d) = Some (Z.of_uint d).
Proof.
  intros Hd. unfold PyStr.parse_nat.
  destruct (NilZero_string_of_uint_digits d) as [Hdig Hne].
  rewrite digits_of_digits by auto. simpl.
  by rewrite NilZero.usu.
Qed.

Lemma digit_not_special (c : ascii) :
  PyStr.is_digit c = true →
  PyStr.is_space c = false ∧ Ascii.eqb c "-" = false ∧ Ascii.eqb c "+" = false.
Proof.
  destruct c as [[] [] [] [] [] [] [] []]; vm_compute; intros; done.
Qed.

Lemma digits_no_space (s : string) :
  PyStr.all_chars PyStr.is_digit s = true → PyStr.no_space s = true.
Proof.
  apply all_chars_impl. intros c Hc.
  by destruct (digit_not_special c Hc) as [-> _].
Qed.

(** What [str] prints for an integer holds no white space. *)
Lemma str_int_no_space (n : Z) : PyStr.no_space (PyStr.str_int n) = true.
Proof.
  unfold PyStr.str_int.
  destruct (Z.to_int n) as [d|d]; simpl.
  - apply digits_no_space, NilZero_string_of_uint_digits.
  - unfold PyStr.no_space. simpl.
    apply digits_no_space, NilZero_string_of_uint_digits.
Qed.

Lemma str_int_token (n : Z) : PyStr.is_token (PyStr.str_int n) = true.
Proof.
  pose proof (str_int_no_space n) as Hn. unfold PyStr.is_token.
  destruct (PyStr.str_int n) eqn:Hs; [|done].
  unfold PyStr.str_int in Hs. destruct (Z.to_int n) as [d|d]; [|done].
  by destruct (NilZero_string_of_uint_digits d) as [_ Hne].
Qed.

Lemma py_int_str_int (n : Z) : PyStr.py_int (PyStr.str_int n) = Some n.
Proof.
  unfold PyStr.py_int. rewrite strip_no_space by apply str_int_no_space.
  unfold PyStr.str_int. destruct n as [|p|p]; [done| |].
  - simpl. pose proof (DecimalPos.Unsigned.to_uint_nonnil p) as Hnil.
    pose proof (parse_nat_string_of_uint _ Hnil) as Hparse.
    destruct (NilZero_string_of_uint_digits (Pos.to_uint p)) as [Hdig Hne].
    destruct (NilZero.string_of_uint (Pos.to_uint p)) as [|c s] eqn:Hs; [done|].
    simpl in Hdig. apply andb_true_iff in Hdig as [Hc _].
    destruct (digit_not_special c Hc) as (_ & -> & ->).
    rewrite Hparse. f_equal.
    change (Z.of_uint (Pos.to_uint p)) with (Z.of_int (Z.to_int (Z.pos p))).
    apply DecimalZ.of_to.
  - simpl. pose proof (DecimalPos.Unsigned.to_uint_nonnil p) as Hnil.
    rewrite (parse_nat_string_of_uint _ Hnil). simpl. f_equal.
    change (- Z.of_uint (Pos.to_uint p)) with (Z.of_int (Z.to_int (Z.neg p))).
    apply DecimalZ.of_to.
Qed.

(** X17. Lines 178 and 186-190. What [str] prints for an integer is one field
    without white space, [int] reads it back as the same integer, and so
    two integers that print alike are equal. *)
Theorem str_int_read_back (n m : Z) :
  PyStr.py_int (PyStr.str_int n) = Some n
  ∧ PyStr.is_token (PyStr.str_int n) = true
  ∧ (PyStr.str_int n = PyStr.str_int m → n = m).
Proof.
  split; [apply py_int_str_int|]. split; [apply str_int_token|].
  intros Heq. apply (f_equal PyStr.py_int) in Heq.
  rewrite !py_int_str_int in Heq. by simplify_eq.
Qed.

(** ** The printed form of a proposition *)

Section Printing.

Context `{D : Domain}.

Lemma first_token_eq (x y r r' : string) :
  PyStr.no_space x = true → PyStr.no_space y = true →
  x +:+ String " " r = y +:+ String " " r' → x = y ∧ r = r'.
Proof.
  revert y. induction x as [|c x IH]; intros [|c' y] Hx Hy Heq.
  - rewrite !append_empty_l in Heq. by simplify_eq.
  - rewrite append_empty_l, append_String in Heq.
    injection Heq as <- _. discriminate Hy.
  - rewrite append_empty_l, append_String in Heq.
    injection Heq as -> _. discriminate Hx.
  - rewrite !append_String in Heq. simplify_eq.
    unfold PyStr.no_space in Hx, Hy. simpl in Hx, Hy.
    apply andb_true_iff in Hx as [_ Hx]. apply andb_true_iff in Hy as [_ Hy].
    destruct (IH y Hx Hy H) as [-> ->]. done.
Qed.

(** X2. Lines 57-58, 74-75 and 89-90. [Hashable] identifies propositions by
    the hash of what [__str__] prints. When [str] is injective on actions
    and on facts and prints them without white space, [__str__] is
    injective on propositions: two propositions print alike only if they
    are of the same family and have the same fields. *)
Theorem str_prop_injective (x y : proposition) :
  (∀ a, PyStr.no_space (str_action a) = true) →
  (∀ f, PyStr.no_space (str_fact f) = true) →
  Inj (=) (=) str_action → Inj (=) (=) str_fact →
  str_prop x = str_prop y → x = y.
Proof.
  intros Ha Hf Hia Hif.
  assert (∀ a b r r', str_action a +:+ String " " r
                      = str_action b +:+ String " " r' → a = b ∧ r = r')
    as Hfirst.
  { intros a b r r' Heq.
    destruct (first_token_eq _ _ _ _ (Ha a) (Ha b) Heq) as [Hab ->].
    split; [by apply Hia|done]. }
  destruct x as [a|a1 a2|a1 p a2], y as [b|b1 b2|b1 q b2]; unfold str_prop;
    intros Heq.
  - change (str_action a +:+ String " " "in plan"
            = str_action b +:+ String " " "in plan") in Heq.
    by destruct (Hfirst _ _ _ _ Heq) as [-> _].
  - change (str_action a +:+ String " " "in plan"
            = str_action b1 +:+ String " " ("-> " +:+ str_action b2)) in Heq.
    destruct (Hfirst _ _ _ _ Heq) as [_ Hr]. discriminate Hr.
  - change (str_action a +:+ String " " "in plan"
            = str_action b1 +:+ String " "
                ("supports " +:+ str_fact q +:+ " for " +:+ str_action b2))
      in Heq.
    destruct (Hfirst _ _ _ _ Heq) as [_ Hr]. discriminate Hr.
  - change (str_action a1 +:+ String " " ("-> " +:+ str_action a2)
            = str_action b +:+ String " " "in plan") in Heq.
    destruct (Hfirst _ _ _ _ Heq) as [_ Hr]. discriminate Hr.
  - change (str_action a1 +:+ String " " ("-> " +:+ str_action a2)
            = str_action b1 +:+ String " " ("-> " +:+ str_action b2)) in Heq.
    destruct (Hfirst _ _ _ _ Heq) as [-> Hr].
    apply (inj (String.app "-> ")) in Hr. by apply Hia in Hr as ->.
  - change (str_action a1 +:+ String " " ("-> " +:+ str_action a2)
            = str_action b1 +:+ String " "
                ("supports " +:+ str_fact q +:+ " for " +:+ str_action b2))
      in Heq.
    destruct (Hfirst _ _ _ _ Heq) as [_ Hr]. discriminate Hr.
  - change (str_action a1 +:+ String " "
              ("supports " +:+ str_fact p +:+ " for " +:+ str_action a2)
            = str_action b +:+ String " " "in plan") in Heq.
    destruct (Hfirst _ _ _ _ Heq) as [_ Hr]. discriminate Hr.
  - change (str_action a1 +:+ String " "
              ("supports " +:+ str_fact p +:+ " for " +:+ str_action a2)
            = str_action b1 +:+ String " " ("-> " +:+ str_action b2)) in Heq.
    destruct (Hfirst _ _ _ _ Heq) as [_ Hr]. discriminate Hr.
  - change (str_action a1 +:+ String " "
              ("supports " +:+ str_fact p +:+ String " "
                 ("for " +:+ str_action a2))
            = str_action b1 +:+ String " "
                ("supports " +:+ str_fact q +:+ String " "
                   ("for " +:+ str_action b2))) in Heq.
    destruct (Hfirst _ _ _ _ Heq) as [-> Hr].
    apply (inj (String.app "supports ")) in Hr.
    destruct (first_token_eq _ _ _ _ (Hf p) (Hf q) Hr) as [Hpq Hr'].
    apply Hif in Hpq as ->.
    apply (inj (String.app "for ")) in Hr'. by apply Hia in Hr' as ->.
Qed.

End Printing.

(** ** What the clauses say about a satisfying assignment *)

Section Semantics.

Context `{D : Domain} `{L : !Lifter}.

(** The clauses of lines 106-129 are in the clause list. *)
Lemma skeleton_clauses_elem_of (pop : POP) (args : cmdargs)
  (adders deleters : gmap fact (gset action)) (clauses : list formula) :
  hard_clauses pop args adders deleters = Ok clauses →
  (∀ a, a ∈ pop_A pop → FNot (FVar (Order a a)) ∈ clauses)
  ∧ (∀ a1 a2 a3, a1 ∈ pop_A pop → a2 ∈ pop_A pop → a3 ∈ pop_A pop →
       FImp (FAnd [FVar (Order a1 a2); FVar (Order a2 a3)])
            (FVar (Order a1 a3)) ∈ clauses)
  ∧ (∀ a1 a2, a1 ∈ pop_A pop → a2 ∈ pop_A pop →
       FImp (FVar (Order a1 a2)) (FAnd [FVar (Action a1); FVar (Action a2)])
       ∈ clauses)
  ∧ (∀ a, a ∈ pop_A pop → a ≠ pop_init pop →
       FImp (FVar (Action a)) (FVar (Order (pop_init pop) a)) ∈ clauses)
  ∧ (∀ a, a ∈ pop_A pop → a ≠ pop_goal pop →
       FImp (FVar (Action a)) (FVar (Order a (pop_goal pop))) ∈ clauses)
  ∧ FVar (Action (pop_init pop)) ∈ clauses
  ∧ FVar (Action (pop_goal pop)) ∈ clauses.
Proof.
  intros Hc.
  destruct (hard_clauses_inv _ _ _ _ _ Hc) as (pre & sup & _ & _ & ->).
  split_and!.
  - intros a Ha%elem_of_elements. rewrite !elem_of_app. left. left.
    unfold irreflexive_clauses. apply list_elem_of_bind. exists a.
    split; [by apply list_elem_of_singleton|done].
  - intros a1 a2 a3 Ha1%elem_of_elements Ha2%elem_of_elements
      Ha3%elem_of_elements.
    rewrite !elem_of_app. left. right. left.
    unfold transitivity_clauses. apply list_elem_of_bind. exists a1.
    split; [|done]. apply list_elem_of_bind. exists a2. split; [|done].
    apply list_elem_of_bind. exists a3.
    split; [by apply list_elem_of_singleton|done].
  - intros a1 a2 Ha1%elem_of_elements Ha2%elem_of_elements.
    rewrite !elem_of_app. left. right. right. left.
    unfold order_action_clauses. apply list_elem_of_bind. exists a1.
    split; [|done]. apply list_elem_of_bind. exists a2.
    split; [by apply list_elem_of_singleton|done].
  - intros a Ha%elem_of_elements Hne.
    rewrite !elem_of_app. left. do 3 right. left.
    unfold bracket_clauses. apply list_elem_of_bind. exists a. split; [|done].
    rewrite decide_True by done. apply elem_of_app. left.
    by apply list_elem_of_singleton.
  - intros a Ha%elem_of_elements Hne.
    rewrite !elem_of_app. left. do 3 right. left.
    unfold bracket_clauses. apply list_elem_of_bind. exists a. split; [|done].
    rewrite (decide_True (P := a ≠ pop_goal pop)) by done.
    apply elem_of_app. right. by apply list_elem_of_singleton.
  - rewrite !elem_of_app. left. do 4 right. left.
    unfold init_goal_clauses. left.
  - rewrite !elem_of_app. left. do 4 right. left.
    unfold init_goal_clauses. right. left.
Qed.

Lemma forallb_satisfies (v : proposition → bool) (clauses : list formula) :
  forallb (eval v) clauses = true → satisfies v clauses.
Proof.
  intros Hall c Hc. by apply (proj1 (forallb_forall _ _) Hall), list_elem_of_In.
Qed.

(** What the clauses of lines 106-129 say of a satisfying assignment, one
    family after the other. *)
Lemma skeleton_sound (pop : POP) (args : cmdargs)
  (adders deleters : gmap fact (gset action)) (clauses : list formula)
  (v : proposition → bool) :
  hard_clauses pop args adders deleters = Ok clauses →
  satisfies v clauses →
  (∀ a, a ∈ pop_A pop → v (Order a a) = false)
  ∧ (∀ a1 a2 a3, a1 ∈ pop_A pop → a2 ∈ pop_A pop → a3 ∈ pop_A pop →
       v (Order a1 a2) = true → v (Order a2 a3) = true →
       v (Order a1 a3) = true)
  ∧ (∀ a1 a2, a1 ∈ pop_A pop → a2 ∈ pop_A pop → v (Order a1 a2) = true →
       v (Action a1) = true ∧ v (Action a2) = true)
  ∧ (∀ a, a ∈ pop_A pop → v (Action a) = true →
       (a ≠ pop_init pop → v (Order (pop_init pop) a) = true)
       ∧ (a ≠ pop_goal pop → v (Order a (pop_goal pop)) = true))
  ∧ v (Action (pop_init pop)) = true
  ∧ v (Action (pop_goal pop)) = true.
Proof.
  intros Hc Hv.
  destruct (skeleton_clauses_elem_of _ _ _ _ _ Hc)
    as (Hirr & Htr & Hoa & Hinit & Hgoal & Hi & Hg).
  split_and!.
  - intros a Ha. specialize (Hv _ (Hirr a Ha)). simpl in Hv.
    by destruct (v (Order a a)).
  - intros a1 a2 a3 Ha1 Ha2 Ha3 H12 H23.
    specialize (Hv _ (Htr a1 a2 a3 Ha1 Ha2 Ha3)). simpl in Hv.
    rewrite H12, H23 in Hv. simpl in Hv. by destruct (v (Order a1 a3)).
  - intros a1 a2 Ha1 Ha2 H12. specialize (Hv _ (Hoa a1 a2 Ha1 Ha2)).
    simpl in Hv. rewrite H12 in Hv. simpl in Hv.
    destruct (v (Action a1)), (v (Action a2)); done.
  - intros a Ha Hact. split; intros Hne.
    + specialize (Hv _ (Hinit a Ha Hne)). simpl in Hv. by rewrite Hact in Hv.
    + specialize (Hv _ (Hgoal a Ha Hne)). simpl in Hv. by rewrite Hact in Hv.
  - apply (Hv _ Hi).
  - apply (Hv _ Hg).
Qed.

Lemma order_asymmetric (pop : POP) (args : cmdargs)
  (adders deleters : gmap fact (gset action)) (clauses : list formula)
  (v : proposition → bool) (a1 a2 : action) :
  hard_clauses pop args adders deleters = Ok clauses →
  satisfies v clauses →
  a1 ∈ pop_A pop → a2 ∈ pop_A pop →
  v (Order a1 a2) = true → v (Order a2 a1) = false.
Proof.
  intros Hc Hv Ha1 Ha2 H12.
  destruct (skeleton_sound _ _ _ _ _ v Hc Hv) as (Hirr & Htr & _).
  destruct (v (Order a2 a1)) eqn:H21; [|done].
  rewrite <-(Hirr a1 Ha1). symmetry. by apply (Htr a1 a2 a1).
Qed.

(** X3. On the actions of [A], the [Order] propositions that a satisfying
    assignment makes true form a strict partial order: no action precedes
    itself (lines 106-107), precedence is transitive (lines 109-113), and so
    no two actions precede each other. *)
Theorem order_strict_partial_order (pop : POP) (args : cmdargs)
  (adders deleters : gmap fact (gset action)) (clauses : list formula)
  (v : proposition → bool) :
  hard_clauses pop args adders deleters = Ok clauses →
  satisfies v clauses →
  (∀ a, a ∈ pop_A pop → v (Order a a) = false)
  ∧ (∀ a1 a2 a3, a1 ∈ pop_A pop → a2 ∈ pop_A pop → a3 ∈ pop_A pop →
       v (Order a1 a2) = true → v (Order a2 a3) = true →
       v (Order a1 a3) = true)
  ∧ (∀ a1 a2, a1 ∈ pop_A pop → a2 ∈ pop_A pop →
       v (Order a1 a2) = true → v (Order a2 a1) = false).
Proof.
  intros Hc Hv.
  destruct (skeleton_sound _ _ _ _ _ v Hc Hv) as (Hirr & Htr & _).
  split_and!; [done..|].
  intros a1 a2. by apply (order_asymmetric pop args adders deleters clauses).
Qed.

(** X4. Lines 115-129. A satisfying assignment keeps init and goal; an ordering
    between two actions of [A] holds only when both are kept; every kept
    action of [A] other than init comes after init, and every one other
    than goal comes before goal. So when init is in [A] nothing in [A]
    precedes it, and when goal is in [A] it precedes nothing in [A]. *)
Theorem init_goal_bracket (pop : POP) (args : cmdargs)
  (adders deleters : gmap fact (gset action)) (clauses : list formula)
  (v : proposition → bool) :
  hard_clauses pop args adders deleters = Ok clauses →
  satisfies v clauses →
  (v (Action (pop_init pop)) = true ∧ v (Action (pop_goal pop)) = true)
  ∧ (∀ a1 a2, a1 ∈ pop_A pop → a2 ∈ pop_A pop → v (Order a1 a2) = true →
       v (Action a1) = true ∧ v (Action a2) = true)
  ∧ (∀ a, a ∈ pop_A pop → v (Action a) = true →
       (a ≠ pop_init pop → v (Order (pop_init pop) a) = true)
       ∧ (a ≠ pop_goal pop → v (Order a (pop_goal pop)) = true))
  ∧ (pop_init pop ∈ pop_A pop →
       ∀ a, a ∈ pop_A pop → v (Order a (pop_init pop)) = false)
  ∧ (pop_goal pop ∈ pop_A pop →
       ∀ a, a ∈ pop_A pop → v (Order (pop_goal pop) a) = false).
Proof.
  intros Hc Hv.
  destruct (skeleton_sound _ _ _ _ _ v Hc Hv)
    as (Hirr & _ & Hends & Hbr & Hi & Hg).
  pose proof (λ a1 a2, order_asymmetric _ _ _ _ _ v a1 a2 Hc Hv) as Hasym.
  split_and!; try done.
  - intros Hin a Ha. destruct (v (Order a (pop_init pop))) eqn:Ho; [|done].
    destruct (decide (a = pop_init pop)) as [->|Hne].
    + by rewrite (Hirr _ Hin) in Ho.
    + destruct (Hends _ _ Ha Hin Ho) as [Hact _].
      destruct (Hbr a Ha Hact) as [Hafter _].
      by rewrite (Hasym _ _ Hin Ha (Hafter Hne)) in Ho.
  - intros Hin a Ha. destruct (v (Order (pop_goal pop) a)) eqn:Ho; [|done].
    destruct (decide (a = pop_goal pop)) as [->|Hne].
    + by rewrite (Hirr _ Hin) in Ho.
    + destruct (Hends _ _ Hin Ha Ho) as [_ Hact].
      destruct (Hbr a Ha Hact) as [_ Hbefore].
      by rewrite (Hasym _ _ Ha Hin (Hbefore Hne)) in Ho.
Qed.

Lemma precondition_clause_elem_of (pop : POP) (args : cmdargs)
  (adders deleters : gmap fact (gset action)) (clauses : list formula)
  (a2 : action) (p : fact) :
  hard_clauses pop args adders deleters = Ok clauses →
  a2 ∈ pop_A pop → p ∈ pres a2 →
  ∃ s, adders !! p = Some s ∧ precondition_clause s p a2 ∈ clauses.
Proof.
  intros Hc Ha2 Hp.
  destruct (hard_clauses_inv _ _ _ _ _ Hc) as (pre & sup & Hpre & _ & ->).
  pose proof (precondition_clauses_Forall2 _ _ _ Hpre) as Hall.
  destruct (Forall2_elem_of_l _ _ _ (a2, p) Hall) as (c & Hin & s & Hs & ->).
  { apply precondition_pairs_elem_of. by rewrite elem_of_elements. }
  exists s. split; [done|]. rewrite !elem_of_app. left. do 5 right. by left.
Qed.

(** A run that reaches line 164 found [deleters[p]] for every precondition
    that has a supporter. *)
Lemma support_clauses_deleters (A : list action)
  (adders deleters : gmap fact (gset action)) (sup : list formula)
  (a1 a2 : action) (p : fact) (s : gset action) :
  support_clauses A adders deleters = Ok sup →
  a2 ∈ A → p ∈ pres a2 → adders !! p = Some s → a1 ∈ s → a1 ≠ a2 →
  ∃ d, deleters !! p = Some d.
Proof.
  intros Hsup Ha2 Hp Hs Ha1 Hne.
  destruct (for_each_Ok_body _ _ _ a2 Hsup Ha2) as [ys Hys].
  assert (p ∈ elements (pres a2)) as Hp' by by apply elem_of_elements.
  destruct (for_each_Ok_body _ _ _ p Hys Hp') as [zs Hzs].
  unfold index_get in Hzs. rewrite Hs in Hzs. simpl in Hzs.
  assert (a1 ∈ other_adders s a2) as Ha1'.
  { unfold other_adders. apply list_elem_of_filter.
    split; [done|by apply elem_of_elements]. }
  destruct (for_each_Ok_body _ _ _ a1 Hzs Ha1') as [ws Hws].
  destruct (deleters !! p) as [d|]; [by exists d|discriminate Hws].
Qed.

(** Line 134: a kept action has a supporter for each precondition. *)
Lemma supporter_exists (pop : POP) (args : cmdargs)
  (adders deleters : gmap fact (gset action)) (clauses : list formula)
  (v : proposition → bool) (a2 : action) (p : fact) :
  hard_clauses pop args adders deleters = Ok clauses →
  satisfies v clauses →
  a2 ∈ pop_A pop → p ∈ pres a2 → v (Action a2) = true →
  ∃ s a1, adders !! p = Some s ∧ a1 ∈ s ∧ a1 ≠ a2
          ∧ v (Support a1 p a2) = true.
Proof.
  intros Hc Hv Ha2 Hp Hact.
  destruct (precondition_clause_elem_of _ _ _ _ _ a2 p Hc Ha2 Hp)
    as (s & Hs & Hin).
  pose proof (Hv _ Hin) as Hpre. unfold precondition_clause in Hpre.
  simpl in Hpre. rewrite Hact in Hpre. simpl in Hpre.
  apply existsb_exists in Hpre as (c & Hc1 & Hc2).
  apply list_elem_of_In, list_elem_of_fmap in Hc1 as (a1 & -> & Ha1).
  simpl in Hc2. unfold other_adders in Ha1.
  apply list_elem_of_filter in Ha1 as [Hne Ha1%elem_of_elements].
  by exists s, a1.
Qed.

(** X5. Lines 131-147. In a satisfying assignment every precondition [p] of a
    kept action [a2] of [A] has a supporter: an action [a1] of [adders[p]]
    other than [a2] with [Support(a1,p,a2)] true; [a1] precedes [a2], is
    itself kept when it is in [A], and every kept deleter of [p] other than
    [a1] and [a2] comes before [a1] or after [a2]. *)
Theorem support_soundness (pop : POP) (args : cmdargs)
  (adders deleters : gmap fact (gset action)) (clauses : list formula)
  (v : proposition → bool) (a2 : action) (p : fact) :
  hard_clauses pop args adders deleters = Ok clauses →
  satisfies v clauses →
  a2 ∈ pop_A pop → p ∈ pres a2 → v (Action a2) = true →
  ∃ s d a1,
    adders !! p = Some s ∧ deleters !! p = Some d
    ∧ a1 ∈ s ∧ a1 ≠ a2
    ∧ v (Support a1 p a2) = true
    ∧ v (Order a1 a2) = true
    ∧ (a1 ∈ pop_A pop → v (Action a1) = true)
    ∧ ∀ ad, ad ∈ d → ad ≠ a1 → ad ≠ a2 → v (Action ad) = true →
        v (Order ad a1) = true ∨ v (Order a2 ad) = true.
Proof.
  intros Hc Hv Ha2 Hp Hact.
  destruct (supporter_exists _ _ _ _ _ v a2 p Hc Hv Ha2 Hp Hact)
    as (s & a1 & Hs & Ha1 & Hne & Hc2).
  destruct (hard_clauses_inv _ _ _ _ _ Hc) as (pre & sup & _ & Hsup & Heq).
  assert (a2 ∈ elements (pop_A pop)) as Ha2' by by apply elem_of_elements.
  destruct (support_clauses_deleters _ _ _ _ a1 a2 p s Hsup Ha2' Hp Hs Ha1 Hne)
    as [d Hd].
  assert (∀ c, c ∈ support_order_clause a1 p a2 :: threat_clauses d a1 p a2 →
            eval v c = true) as Hsupv.
  { intros c Hcin. apply Hv. rewrite Heq, !elem_of_app. left. do 6 right.
    by apply (support_clauses_elem_of _ _ _ _ a1 a2 p s d c Hsup). }
  assert (v (Order a1 a2) = true) as Hord.
  { specialize (Hsupv (support_order_clause a1 p a2)). simpl in Hsupv.
    rewrite Hc2 in Hsupv. apply Hsupv. left. }
  exists s, d, a1. split_and!; try done.
  - intros Ha1A.
    destruct (skeleton_sound _ _ _ _ _ v Hc Hv) as (_ & _ & Hends & _).
    by destruct (Hends a1 a2 Ha1A Ha2 Hord).
  - intros ad Had Hne1 Hne2 Hadv.
    specialize (Hsupv (threat_clause a1 p a2 ad)). simpl in Hsupv.
    rewrite Hc2, Hadv in Hsupv. simpl in Hsupv.
    destruct (v (Order ad a1)); [by left|].
    destruct (v (Order a2 ad)); [by right|].
    discriminate Hsupv. right. unfold threat_clauses.
    apply list_elem_of_bind. exists ad. split; [|by apply elem_of_elements].
    rewrite decide_True; [by apply list_elem_of_singleton|].
    intros [->|[->|?%elem_of_nil]%elem_of_cons]%elem_of_cons; done.
Qed.

(** X6. Lines 128-134 together: when init or goal is in [A] and has a
    precondition that no other action adds, no assignment satisfies the
    clauses. *)
Theorem unsupported_endpoint_unsatisfiable (pop : POP) (args : cmdargs)
  (adders deleters : gmap fact (gset action)) (clauses : list formula)
  (a : action) (p : fact) (s : gset action) :
  hard_clauses pop args adders deleters = Ok clauses →
  a ∈ pop_A pop → a = pop_init pop ∨ a = pop_goal pop →
  p ∈ pres a → adders !! p = Some s → (∀ a1, a1 ∈ s → a1 = a) →
  ∀ v, ¬ satisfies v clauses.
Proof.
  intros Hc Ha Hend Hp Hs Honly v Hv.
  destruct (skeleton_sound _ _ _ _ _ v Hc Hv) as (_ & _ & _ & _ & Hi & Hg).
  assert (v (Action a) = true) as Hact by (by destruct Hend as [->| ->]).
  destruct (supporter_exists _ _ _ _ _ v a p Hc Hv Ha Hp Hact)
    as (s' & a1 & Hs' & Ha1 & Hne & _).
  simplify_eq. by apply Hne, Honly.
Qed.

(** X7. Lines 150-154. With [--serial], any two distinct kept actions of [A]
    are ordered, in exactly one direction. *)
Theorem serial_total_order (pop : POP) (args : cmdargs)
  (adders deleters : gmap fact (gset action)) (clauses : list formula)
  (v : proposition → bool) (a1 a2 : action) :
  hard_clauses pop args adders deleters = Ok clauses →
  serial args = true →
  satisfies v clauses →
  a1 ∈ pop_A pop → a2 ∈ pop_A pop → a1 ≠ a2 →
  v (Action a1) = true → v (Action a2) = true →
  (v (Order a1 a2) = true ∧ v (Order a2 a1) = false)
  ∨ (v (Order a2 a1) = true ∧ v (Order a1 a2) = false).
Proof.
  intros Hc Hser Hv Ha1 Ha2 Hne H1 H2.
  pose proof (λ a1 a2, order_asymmetric _ _ _ _ _ v a1 a2 Hc Hv) as Hasym.
  destruct (hard_clauses_inv _ _ _ _ _ Hc) as (pre & sup & _ & _ & Heq).
  assert (eval v (serial_clause a1 a2) = true) as Hev.
  { apply Hv. rewrite Heq. apply elem_of_app. right.
    unfold option_clauses. rewrite Hser. apply elem_of_app. left.
    apply serial_clauses_elem_of. exists a1, a2.
    by rewrite !elem_of_elements. }
  simpl in Hev. rewrite H1, H2 in Hev. simpl in Hev.
  destruct (v (Order a1 a2)) eqn:H12.
  - left. split; [done|]. by apply Hasym.
  - destruct (v (Order a2 a1)) eqn:H21; [|done]. right. done.
Qed.

(** X8. Lines 156-162. With [--allact] a satisfying assignment keeps every
    action of [A], so each one other than init follows init and each one
    other than goal precedes goal; with [--deorder] it reverses no link
    that [get_links()] returns. *)
Theorem allact_deorder_semantics (pop : POP) (args : cmdargs)
  (adders deleters : gmap fact (gset action)) (clauses : list formula)
  (v : proposition → bool) :
  hard_clauses pop args adders deleters = Ok clauses →
  satisfies v clauses →
  (allact args = true →
     ∀ a, a ∈ pop_A pop →
       v (Action a) = true
       ∧ (a ≠ pop_init pop → v (Order (pop_init pop) a) = true)
       ∧ (a ≠ pop_goal pop → v (Order a (pop_goal pop)) = true))
  ∧ (deorder args = true →
       ∀ ai aj, (ai, aj) ∈ get_links pop → v (Order aj ai) = false).
Proof.
  intros Hc Hv.
  destruct (hard_clauses_inv _ _ _ _ _ Hc) as (pre & sup & _ & _ & Heq).
  split.
  - intros Hall a Ha.
    assert (v (Action a) = true) as Hact.
    { apply (Hv (FVar (Action a))). rewrite Heq. apply elem_of_app. right.
      unfold option_clauses. rewrite Hall, !elem_of_app. right. left.
      unfold allact_clauses. apply list_elem_of_bind. exists a.
      split; [by apply list_elem_of_singleton|by apply elem_of_elements]. }
    split; [done|].
    destruct (skeleton_sound _ _ _ _ _ v Hc Hv) as (_ & _ & _ & Hbr & _).
    by apply Hbr.
  - intros Hde ai aj Hlink.
    assert (eval v (FNot (FVar (Order aj ai))) = true) as Hev.
    { apply Hv. rewrite Heq. apply elem_of_app. right.
      unfold option_clauses. rewrite Hde, !elem_of_app. right. right.
      unfold deorder_clauses. apply list_elem_of_bind. exists (ai, aj).
      split; [by apply list_elem_of_singleton|done]. }
    simpl in Hev. by destruct (v (Order aj ai)).
Qed.

End Semantics.

(** ** The run as a whole *)

Section Further.

Context `{D : Domain} `{L : !Lifter} `{E : !Engine}.

(** X1. Lines 31-42. When the indices are built, both have exactly the facts
    of [F] as keys; [adders[f]] is the set of the actions of [A] that add
    [f] and [deleters[f]] the set of those that delete it. *)
Theorem indices_contents (F : gset fact) (A : gset action)
  (idx : gmap fact (gset action) * gmap fact (gset action)) :
  build_indices F A = Ok idx →
  dom idx.1 = F ∧ dom idx.2 = F
  ∧ (∀ f s, idx.1 !! f = Some s → ∀ a, a ∈ s ↔ a ∈ A ∧ f ∈ adds a)
  ∧ (∀ f d, idx.2 !! f = Some d → ∀ a, a ∈ d ↔ a ∈ A ∧ f ∈ dels a).
Proof.
  intros Hidx. pose proof (build_indices_inv F A) as Hinv.
  rewrite Hidx in Hinv. destruct Hinv as [[Hd1 Hd2] _].
  split; [done|]. split; [done|]. split.
  - intros f s Hs. destruct (build_indices_lookup F A idx f Hidx) as [H1 _].
    rewrite Hs in H1. apply H1.
  - intros f d Hd. destruct (build_indices_lookup F A idx f Hidx) as [_ H2].
    rewrite Hd in H2. apply H2.
Qed.

Lemma index_get_inv (m : gmap fact (gset action)) (p : fact) :
  match index_get m p with
  | Ok s => m !! p = Some s
  | Raise e => e = KeyError ∧ p ∉ dom m
  end.
Proof.
  unfold index_get. destruct (m !! p) as [s|] eqn:Hp; [done|].
  split; [done|]. by apply not_elem_of_dom.
Qed.

(** What line 94 needs: every precondition is a key of [adders]. *)
Lemma supports_inv (A : gset action) (adders : gmap fact (gset action)) :
  match supports A adders with
  | Ok sups => ∀ a2 p, a2 ∈ A → p ∈ pres a2 → p ∈ dom adders
  | Raise e => e = KeyError ∧ ∃ a2 p, a2 ∈ A ∧ p ∈ pres a2 ∧ p ∉ dom adders
  end.
Proof.
  unfold supports.
  destruct (for_each (elements A) _) as [sups|e] eqn:Hs.
  - intros a2 p Ha2%elem_of_elements Hp%elem_of_elements.
    destruct (for_each_Ok_body _ _ _ a2 Hs Ha2) as [ys Hys].
    destruct (for_each_Ok_body _ _ _ p Hys Hp) as [zs Hzs].
    pose proof (index_get_inv adders p) as Hg.
    destruct (index_get adders p) as [s|]; [|discriminate Hzs].
    by apply elem_of_dom_2 in Hg.
  - apply for_each_Raise in Hs as (a2 & Ha2%elem_of_elements & Hr).
    apply for_each_Raise in Hr as (p & Hp%elem_of_elements & Hr).
    pose proof (index_get_inv adders p) as Hg.
    destruct (index_get adders p) as [s|e']; [discriminate Hr|].
    destruct Hg as [-> Hnot]. simpl in Hr. simplify_eq. eauto 10.
Qed.

Lemma compile_POP_inv (pop : POP) (args : cmdargs) :
  match compile_POP pop args with
  | Ok _ => ∀ a, a ∈ pop_A pop → pres a ∪ adds a ∪ dels a ⊆ pop_F pop
  | Raise e => e = KeyError
  end.
Proof.
  unfold compile_POP.
  pose proof (build_indices_inv (pop_F pop) (pop_A pop)) as Hidx.
  destruct (build_indices (pop_F pop) (pop_A pop)) as [idx|e]; simpl;
    [|by destruct Hidx].
  destruct Hidx as [[Hd1 Hd2] Hall].
  pose proof (supports_inv (pop_A pop) idx.1) as Hsup.
  destruct (supports (pop_A pop) idx.1) as [sups|e]; simpl;
    [|by destruct Hsup].
  destruct (hard_clauses_total pop args idx.1 idx.2) as [clauses ->].
  { intros a Ha p Hp. rewrite Hd2, <-Hd1, intersection_idemp_L.
    by apply (Hsup a). }
  simpl. intros a Ha p. rewrite !elem_of_union. intros [[Hp|Hp]|Hp].
  - rewrite <-Hd1. by apply (Hsup a).
  - apply (Hall a Ha). set_solver.
  - apply (Hall a Ha). set_solver.
Qed.

(** X10. Lines 25-164 end normally exactly when every fact that an action of
    [A] requires, adds or deletes is in [F]; otherwise they raise
    [KeyError], and nothing else. *)
Theorem compile_POP_Ok_iff (pop : POP) (args : cmdargs) :
  ((∃ cnf, compile_POP pop args = Ok cnf)
   ↔ ∀ a, a ∈ pop_A pop → pres a ∪ adds a ∪ dels a ⊆ pop_F pop)
  ∧ ∀ e, compile_POP pop args = Raise e → e = KeyError.
Proof.
  pose proof (compile_POP_inv pop args) as Hinv.
  split; [split|].
  - intros [cnf Hcnf]. by rewrite Hcnf in Hinv.
  - apply compile_POP_total.
  - intros e He. by rewrite He in Hinv.
Qed.

(** X12. Every proposition that gets a soft clause occurs in a hard clause:
    [Action(a)] and [Order(a1,a2)] occur in the clause of line 118 for the
    pair. *)
Theorem soft_propositions_occur (pop : POP) (args : cmdargs)
  (adders deleters : gmap fact (gset action)) (clauses : list formula)
  (x : proposition) :
  hard_clauses pop args adders deleters = Ok clauses →
  x ∈ actions (pop_A pop) ++ orders (pop_A pop) →
  ∃ c, c ∈ clauses ∧ x ∈ props_of c.
Proof.
  intros Hc Hx.
  destruct (skeleton_clauses_elem_of _ _ _ _ _ Hc) as (_ & _ & Hoa & _).
  apply elem_of_app in Hx as [Hx|Hx].
  - apply actions_elem_of in Hx as (a & Ha & ->).
    eexists. split; [apply (Hoa a a Ha Ha)|]. simpl. right. left.
  - apply orders_elem_of in Hx as (a1 & a2 & Ha1 & Ha2 & ->).
    eexists. split; [apply (Hoa a1 a2 Ha1 Ha2)|]. simpl. left.
Qed.

(** *** The [Support] propositions *)

(** The list of line 94. *)
Lemma supports_elem_of (A : gset action) (adders : gmap fact (gset action))
  (sups : list proposition) (x : proposition) :
  supports A adders = Ok sups →
  x ∈ sups ↔ ∃ a2 p s a1, a2 ∈ A ∧ p ∈ pres a2 ∧ adders !! p = Some s
                          ∧ a1 ∈ s ∧ x = Support a1 p a2.
Proof.
  intros Hs. unfold supports in Hs.
  rewrite (for_each_elem_of _ _ _ x Hs). split.
  - intros (a2 & ys & Ha2%elem_of_elements & Hys & Hx).
    apply (for_each_elem_of _ _ _ x Hys) in Hx
      as (p & zs & Hp%elem_of_elements & Hzs & Hx).
    pose proof (index_get_inv adders p) as Hg.
    destruct (index_get adders p) as [s|]; [|discriminate Hzs].
    simpl in Hzs. simplify_eq.
    apply list_elem_of_bind in Hx
      as (a1 & ->%list_elem_of_singleton & Ha1%elem_of_elements).
    eauto 10.
  - intros (a2 & p & s & a1 & Ha2 & Hp & Hsome & Ha1 & ->).
    assert (a2 ∈ elements A) as Ha2' by by apply elem_of_elements.
    assert (p ∈ elements (pres a2)) as Hp' by by apply elem_of_elements.
    destruct (for_each_Ok_body _ _ _ a2 Hs Ha2') as [ys Hys].
    exists a2, ys. split_and!; [done..|].
    apply (for_each_elem_of _ _ _ _ Hys). exists p. eexists.
    split; [done|]. unfold index_get. rewrite Hsome. simpl. split; [done|].
    apply list_elem_of_bind. exists a1.
    split; [by apply list_elem_of_singleton|by apply elem_of_elements].
Qed.

(** Where a clause of lines 137-147 comes from. *)
Lemma support_clauses_inv (A : list action)
  (adders deleters : gmap fact (gset action)) (sup : list formula)
  (c : formula) :
  support_clauses A adders deleters = Ok sup → c ∈ sup →
  ∃ a1 p a2 s d,
    a2 ∈ A ∧ p ∈ pres a2 ∧ adders !! p = Some s ∧ a1 ∈ s ∧ a1 ≠ a2
    ∧ deleters !! p = Some d
    ∧ (c = support_order_clause a1 p a2
       ∨ ∃ ad, ad ∈ d ∧ ad ≠ a1 ∧ ad ≠ a2 ∧ c = threat_clause a1 p a2 ad).
Proof.
  intros Hsup Hc.
  apply (for_each_elem_of _ _ _ c Hsup) in Hc as (a2 & ys & Ha2 & Hys & Hc).
  apply (for_each_elem_of _ _ _ c Hys) in Hc
    as (p & zs & Hp%elem_of_elements & Hzs & Hc).
  pose proof (index_get_inv adders p) as Hg.
  destruct (index_get adders p) as [s|]; [|discriminate Hzs].
  simpl in Hzs.
  apply (for_each_elem_of _ _ _ c Hzs) in Hc as (a1 & ws & Ha1 & Hws & Hc).
  pose proof (index_get_inv deleters p) as Hg'.
  destruct (index_get deleters p) as [d|]; [|discriminate Hws].
  simpl in Hws. simplify_eq.
  unfold other_adders in Ha1.
  apply list_elem_of_filter in Ha1 as [Hne Ha1%elem_of_elements].
  exists a1, p, a2, s, d. split_and!; try done.
  apply elem_of_cons in Hc as [->|Hc]; [by left|]. right.
  unfold threat_clauses in Hc.
  apply list_elem_of_bind in Hc as (ad & Hc & Had%elem_of_elements).
  case_decide as Hnot; [|by apply elem_of_nil in Hc].
  apply list_elem_of_singleton in Hc. exists ad. split_and!; try done.
  - intros ->. apply Hnot. left.
  - intros ->. apply Hnot. right. left.
Qed.

Lemma props_of_disjunction (f : action → proposition) (l : list action) :
  flat_map props_of ((λ a, FVar (f a)) <$> l) = f <$> l.
Proof. induction l as [|a l IH]; [done|]. simpl. f_equal. apply IH. Qed.

Lemma skeleton_props_not_Support (pop : POP) (args : cmdargs) (c : formula)
  (a1 a2 : action) (p : fact) :
  let A := elements (pop_A pop) in
  c ∈ irreflexive_clauses A ++ transitivity_clauses A
      ++ order_action_clauses A
      ++ bracket_clauses A (pop_init pop) (pop_goal pop)
      ++ init_goal_clauses (pop_init pop) (pop_goal pop)
  ∨ c ∈ option_clauses pop args →
  Support a1 p a2 ∉ props_of c.
Proof.
  intros A.
  unfold irreflexive_clauses, transitivity_clauses, order_action_clauses,
    bracket_clauses, init_goal_clauses, option_clauses, serial_clauses,
    allact_clauses, deorder_clauses.
  rewrite !elem_of_app.
  intros Hc Hin.
  repeat match goal with
  | H : _ ∨ _ |- _ => destruct H as [H|H]
  | H : _ ∈ _ ≫= _ |- _ => apply list_elem_of_bind in H as (? & H & _)
  | H : _ ∈ _ ++ _ |- _ => apply elem_of_app in H
  | H : _ ∈ (if ?b then _ else _) |- _ => destruct b
  | H : _ ∈ [] |- _ => by apply elem_of_nil in H
  | H : _ ∈ _ :: _ |- _ => apply elem_of_cons in H
  | H : c = _ |- _ => subst c; simpl in Hin
  | H : Support _ _ _ = _ |- _ => discriminate H
  end.
Qed.

(** X11. A [Support(a1,p,a2)] that occurs in a clause has [a2] in [A], [p] among
    the preconditions of [a2] and [a1] in [adders[p]], so it is one of the
    propositions listed at line 94; and [a1] is never [a2]: the
    self-supports that line 94 lists occur in no clause. *)
Theorem support_occurrences (pop : POP) (args : cmdargs)
  (adders deleters : gmap fact (gset action)) (clauses : list formula)
  (sups : list proposition) (c : formula) (a1 a2 : action) (p : fact) :
  hard_clauses pop args adders deleters = Ok clauses →
  supports (pop_A pop) adders = Ok sups →
  c ∈ clauses → Support a1 p a2 ∈ props_of c →
  a1 ≠ a2 ∧ a2 ∈ pop_A pop ∧ p ∈ pres a2
  ∧ (∃ s, adders !! p = Some s ∧ a1 ∈ s)
  ∧ Support a1 p a2 ∈ sups.
Proof.
  intros Hc Hsups Hin Hocc.
  destruct (hard_clauses_inv _ _ _ _ _ Hc) as (pre & sup & Hpre & Hsup & ->).
  assert (a1 ≠ a2 ∧ a2 ∈ pop_A pop ∧ p ∈ pres a2
          ∧ ∃ s, adders !! p = Some s ∧ a1 ∈ s) as (Hne & Ha2 & Hp & s & Hs & Ha1).
  { set (fam := irreflexive_clauses (elements (pop_A pop))
                ++ transitivity_clauses (elements (pop_A pop))
                ++ order_action_clauses (elements (pop_A pop))
                ++ bracket_clauses (elements (pop_A pop)) (pop_init pop)
                     (pop_goal pop)
                ++ init_goal_clauses (pop_init pop) (pop_goal pop)).
    assert (c ∈ fam ∨ c ∈ pre ∨ c ∈ sup ∨ c ∈ option_clauses pop args)
      as [Hfam|[Hinpre|[Hinsup|Hopt]]].
    { unfold fam. rewrite !elem_of_app in Hin. rewrite !elem_of_app.
      tauto. }
    - exfalso. apply (skeleton_props_not_Support pop args c a1 a2 p); [|done].
      by left.
    - pose proof (precondition_clauses_Forall2 _ _ _ Hpre) as Hall.
      apply list_elem_of_lookup in Hinpre as [i Hi].
      destruct (Forall2_lookup_r _ _ _ _ _ Hall Hi)
        as ([a2' p'] & Hpair%list_elem_of_lookup_2 & s & Hs & ->).
      simpl in *. apply precondition_pairs_elem_of in Hpair as [Ha2' Hp'].
      rewrite props_of_disjunction in Hocc.
      apply elem_of_cons in Hocc as [?|Hocc]; [done|].
      apply list_elem_of_fmap in Hocc as (a & [= -> -> ->] & Ha).
      unfold other_adders in Ha.
      apply list_elem_of_filter in Ha as [Hne Ha%elem_of_elements].
      split_and!; try done; [by apply elem_of_elements|eauto].
    - destruct (support_clauses_inv _ _ _ _ c Hsup Hinsup)
        as (a1' & p' & a2' & s & d & Ha2' & Hp' & Hs & Ha1' & Hne & _
            & [->|(ad & _ & _ & _ & ->)]); simpl in Hocc.
      + apply elem_of_cons in Hocc as [[= -> -> ->]|Hocc].
        * split_and!; try done; [by apply elem_of_elements|eauto].
        * apply elem_of_cons in Hocc as [?|?%elem_of_nil]; done.
      + apply elem_of_cons in Hocc as [[= -> -> ->]|Hocc].
        * split_and!; try done; [by apply elem_of_elements|eauto].
        * repeat (apply elem_of_cons in Hocc as [?|Hocc]; [done|]).
          by apply elem_of_nil in Hocc.
    - exfalso. apply (skeleton_props_not_Support pop args c a1 a2 p); [|done].
      by right. }
  split_and!; try done; [eauto|].
  apply (supports_elem_of _ _ _ _ Hsups). eauto 10.
Qed.

(** *** The variable numbering *)

(** X13. Lines 166-167. [var_labels_inverse] is the inverse of [var_labels]: a
    name is the [i]-th variable in the iteration over [cnf.vars()] exactly
    when its number is [i + 1]; the numbers run from 1 to the number of
    variables. *)
Theorem variable_numbering (cnf : CNF) :
  let vars := elements (cnf_vars cnf) in
  (∀ i n, vars !! i = Some n ↔ cnf_inverse cnf !! n = Some (Z.of_nat (S i)))
  ∧ (∀ n v, cnf_inverse cnf !! n = Some v →
       1 ≤ v ≤ Z.of_nat (size (cnf_vars cnf)))
  ∧ (∀ n, n ∈ cnf_vars cnf ↔ is_Some (cnf_inverse cnf !! n))
  ∧ (cnf_labels cnf).*2 = vars.
Proof.
  intros vars. split_and!.
  - intros i n. split.
    + intros Hi.
      destruct (cnf_inverse cnf !! n) as [v|] eqn:Hv.
      * apply cnf_inverse_Some in Hv as (j & Hj & ->). fold vars in Hj.
        assert (i = j) as ->; [|done].
        by eapply (NoDup_lookup vars); [apply NoDup_elements|..].
      * apply cnf_inverse_None in Hv. exfalso. apply Hv.
        apply elem_of_elements. by eapply list_elem_of_lookup_2.
    + intros Hv. apply cnf_inverse_Some in Hv as (j & Hj & Heq).
      assert (i = j) as -> by lia. done.
  - intros n v Hv. apply cnf_inverse_Some in Hv as (j & Hj & ->).
    apply lookup_lt_Some in Hj. unfold size, set_size. simpl. lia.
  - intros n. rewrite <-not_eq_None_Some, cnf_inverse_None.
    split; [auto|]. intros Hnn. by destruct (decide (n ∈ cnf_vars cnf)).
  - unfold cnf_labels, var_labels. fold vars. rewrite fmap_imap.
    apply list_eq. intros i. rewrite list_lookup_imap.
    by destruct (vars !! i).
Qed.

(** *** The exceptions *)

Lemma read_header_Raise (line0 : string) (rest : list string) (e : exn) :
  read_header (line0 :: rest) = Raise e →
  (e = AssertionError ∧ PyStr.contains "p cnf" line0 = false)
  ∨ (e = ValueError ∧ PyStr.contains "p cnf" line0 = true
     ∧ (length (PyStr.split_ws line0) ≠ 4%nat
        ∨ ∃ nc, PyStr.split_ws line0 !! 3%nat = Some nc
                ∧ PyStr.py_int nc = None)).
Proof.
  unfold read_header. intros Hr.
  destruct (PyStr.contains "p cnf" line0) eqn:Hc; simpl in Hr;
    [|left; by simplify_eq].
  right.
  destruct (PyStr.split_ws line0) as [|t0 [|t1 [|nv [|nc [|]]]]] eqn:Hs;
    simplify_eq; try (split_and!; [done..|left; simpl; lia]).
  destruct (PyStr.py_int nc) as [n|] eqn:Hn; simplify_eq.
  split_and!; [done..|]. right. eauto.
Qed.

(** X14. Every way in which the encoder can fail, in the order of the code:
    [KeyError] before compilation (lines 31-147); then, on the first line of
    the engine's DIMACS text, [AssertionError] when it does not hold
    [p cnf] (line 176) and [ValueError] when it does not have four fields
    or the fourth is not an integer (lines 177-178); then [KeyError] when an
    [Action] or [Order] proposition is not a variable (lines 184-190). It
    never fails with [IndexError], and a first line without [p cnf] raises
    [AssertionError] whatever the variables are. *)
Theorem encode_body_exceptions (pop : POP) (args : cmdargs) :
  (∀ e, encode_body pop args = Raise e →
     (e = KeyError ∧ compile_POP pop args = Raise KeyError)
     ∨ ∃ cnf line0 rest,
         compile_POP pop args = Ok cnf ∧ cnflines cnf = line0 :: rest
         ∧ ((e = AssertionError ∧ PyStr.contains "p cnf" line0 = false)
            ∨ (e = ValueError ∧ PyStr.contains "p cnf" line0 = true
               ∧ (length (PyStr.split_ws line0) ≠ 4%nat
                  ∨ ∃ nc, PyStr.split_ws line0 !! 3%nat = Some nc
                          ∧ PyStr.py_int nc = None))
            ∨ (e = KeyError
               ∧ (∃ h, read_header (cnflines cnf) = Ok h)
               ∧ ∃ x, x ∈ actions (pop_A pop) ++ orders (pop_A pop)
                      ∧ NProp x ∉ cnf_vars cnf)))
  ∧ (∀ cnf line0 rest,
       compile_POP pop args = Ok cnf → cnflines cnf = line0 :: rest →
       PyStr.contains "p cnf" line0 = false →
       encode_body pop args = Raise AssertionError).
Proof.
  split.
  - intros e He. unfold encode_body in He.
    destruct (compile_POP pop args) as [cnf|e'] eqn:Hcnf; simpl in He.
    + right. pose proof (write_files_inv pop cnf) as Hw. rewrite He in Hw.
      destruct (cnflines cnf) as [|line0 rest] eqn:Hl;
        [by apply cnflines_nonempty in Hl|].
      exists cnf, line0, rest. split; [done|]. split; [done|].
      destruct Hw as [Hr|(Hh & -> & x & Hx & Hnone)].
      * apply read_header_Raise in Hr as [?|?]; [by left|right; by left].
      * right. right. split; [done|]. split; [by rewrite Hl|].
        exists x. split; [done|]. by apply cnf_inverse_None.
    + left. simplify_eq.
      assert (∀ e, compile_POP pop args = Raise e → e = KeyError) as Hkey.
      { intros e' He'. pose proof (compile_POP_inv pop args) as Hinv.
        by rewrite He' in Hinv. }
      by rewrite (Hkey _ Hcnf) in *.
  - intros cnf line0 rest Hcnf Hl Hc. unfold encode_body. rewrite Hcnf. simpl.
    unfold write_files, wcnf_lines, read_header. rewrite Hl, Hc. done.
Qed.

End Further.

(** ** Reading the WCNF file back *)

Section ReadBack.

Context `{D : Domain} `{L : !Lifter} `{E : !Engine}.

Lemma one_line_append (s t : string) :
  PyStr.one_line s = true → PyStr.one_line t = true →
  PyStr.one_line (s +:+ t) = true.
Proof.
  unfold PyStr.one_line. intros Hs Ht. by rewrite all_chars_append, Hs, Ht.
Qed.

Lemma str_int_one_line (n : Z) : PyStr.one_line (PyStr.str_int n) = true.
Proof. apply no_space_one_line, str_int_no_space. Qed.

Lemma soft_line_one_line (cost v : Z) :
  PyStr.one_line (soft_line cost v) = true.
Proof.
  unfold soft_line.
  repeat apply one_line_append; try apply str_int_one_line; done.
Qed.

Lemma hard_line_one_line (top : Z) (l : string) :
  PyStr.one_line l = true → PyStr.one_line (hard_line top l) = true.
Proof.
  intros Hl. unfold hard_line. case_decide; [|done].
  repeat apply one_line_append; try apply str_int_one_line; done.
Qed.

Lemma wcnf_header_one_line (nv : string) (n : Z)
  (actions orders : list proposition) :
  PyStr.is_token nv = true →
  PyStr.one_line (wcnf_header nv n actions orders) = true.
Proof.
  intros Hnv. unfold wcnf_header.
  repeat apply one_line_append; try apply str_int_one_line; try done.
  apply no_space_one_line. by destruct nv.
Qed.

Lemma soft_lines_one_line (cost : Z) (inverse : gmap (name aux) Z)
  (props : list proposition) (ls : list string) :
  soft_lines cost inverse props = Ok ls →
  Forall (λ x, PyStr.one_line x = true) ls ∧ length ls = length props.
Proof.
  intros Hls. pose proof (soft_lines_inv cost inverse props) as Hinv.
  rewrite Hls in Hinv. split; [|by apply Forall2_length in Hinv].
  clear Hls.
  induction Hinv as [|x line props' ls' Hx _ IH]; [constructor|].
  destruct Hx as (v & _ & ->).
  constructor; [apply soft_line_one_line|apply IH].
Qed.

Lemma read_header_token (lines : list string) (nv : string) (n : Z) :
  read_header lines = Ok (nv, n) → PyStr.is_token nv = true.
Proof.
  intros (line0 & rest & t0 & t1 & nc & _ & _ & Hs & _)%read_header_Ok.
  pose proof (split_ws_tokens line0) as Htok. rewrite Hs in Htok.
  rewrite !Forall_cons in Htok. by destruct Htok as (_ & _ & ? & _).
Qed.

(** The file that a successful run writes: the lines it is joined from,
    the same lines as splitting gives them back, and the variable of each
    soft clause. *)
Lemma written_wcnf (pop : POP) (args : cmdargs) (out : files) :
  encode_body pop args = Ok out →
  let acts := actions (pop_A pop) in
  let ords := orders (pop_A pop) in
  let top := top_cost ords acts in
  ∃ cnf line0 rest t0 t1 nv nc m softs,
    compile_POP pop args = Ok cnf
    ∧ read_header (cnflines cnf) = Ok (nv, m)
    ∧ cnflines cnf = line0 :: rest
    ∧ PyStr.split_ws line0 = [t0; t1; nv; nc]
    ∧ PyStr.py_int nc = Some m
    ∧ wcnf_file out
      = PyStr.join (String PyStr.newline EmptyString)
          (wcnf_header nv m acts ords :: (hard_line top <$> rest) ++ softs)
    ∧ PyStr.split_lines (wcnf_file out)
      = wcnf_header nv m acts ords :: (hard_line top <$> rest) ++ softs
    ∧ Forall2
        (λ cx line,
           ∃ i, elements (cnf_vars cnf) !! i = Some (NProp cx.2)
                ∧ line = soft_line cx.1 (Z.of_nat (S i)))
        (soft_clauses (pop_A pop)) softs.
Proof.
  intros Hout acts ords top. unfold encode_body in Hout.
  destruct (compile_POP pop args) as [cnf|] eqn:Hcnf; simpl in Hout;
    [|discriminate].
  pose proof (write_files_inv pop cnf) as Hw. rewrite Hout in Hw.
  destruct Hw as (nv & m & sa & so & Hh & Hsa & Hso & ->).
  fold acts ords in Hsa, Hso. fold top.
  destruct (soft_lines_one_line _ _ _ _ Hsa) as [Hsa1 _].
  destruct (soft_lines_one_line _ _ _ _ Hso) as [Hso1 _].
  pose proof Hh as Hh2.
  apply read_header_Ok in Hh2
    as (line0 & rest & t0 & t1 & nc & Hl & _ & Hs & Hn).
  exists cnf, line0, rest, t0, t1, nv, nc, m, (sa ++ so).
  cbn [wcnf_file]. rewrite Hl. cbn [tail].
  split; [done|]. split; [by rewrite <-Hl|]. split; [done|].
  split; [done|]. split; [done|]. split; [done|]. split.
  - apply split_go_join; [done|]. constructor.
    + apply wcnf_header_one_line. by apply (read_header_token _ _ _ Hh).
    + apply Forall_app. split; [|by apply Forall_app].
      apply Forall_fmap.
      pose proof (split_go_one_line EmptyString
        (PyStr.strip (dumps cnf (cnf_inverse cnf))) eq_refl) as Hall.
      unfold cnflines, PyStr.split_lines in Hl. rewrite Hl in Hall.
      apply Forall_cons_1 in Hall as [_ Hall].
      eapply Forall_impl; [exact Hall|]. intros l Hline.
      by apply hard_line_one_line.
  - unfold soft_clauses. apply Forall2_app; apply Forall2_fmap_l.
    + apply (soft_lines_lookup _ _ _ _ Hsa).
    + apply (soft_lines_lookup _ _ _ _ Hso).
Qed.

Lemma wcnf_file_split (pop : POP) (args : cmdargs) (out : files) :
  encode_body pop args = Ok out →
  let acts := actions (pop_A pop) in
  let ords := orders (pop_A pop) in
  ∃ cnf nv n softs,
    compile_POP pop args = Ok cnf
    ∧ read_header (cnflines cnf) = Ok (nv, n)
    ∧ PyStr.split_lines (wcnf_file out)
      = wcnf_header nv n acts ords
        :: (hard_line (top_cost ords acts) <$> tail (cnflines cnf)) ++ softs
    ∧ len softs = len acts + len ords.
Proof.
  intros Hout acts ords.
  destruct (written_wcnf pop args out Hout)
    as (cnf & line0 & rest & t0 & t1 & nv & nc & m & softs
        & Hcnf & Hh & Hl & _ & _ & _ & Hsplit & Hsoft).
  exists cnf, nv, m, softs. rewrite Hl. cbn [tail].
  split; [done|]. split; [by rewrite <-Hl|]. split; [exact Hsplit|].
  apply Forall2_length in Hsoft. unfold len, acts, ords. rewrite <-Hsoft.
  unfold soft_clauses. rewrite length_app, !length_fmap. lia.
Qed.

(** *** The WCNF file *)

Lemma fmap_bind_pairs {X Y Z : Type} (f : Y → Z) (g : X → X → Y)
  (l1 l2 : list X) :
  f <$> (a1 ← l1; a2 ← l2; [g a1 a2]) = a1 ← l1; a2 ← l2; [f (g a1 a2)].
Proof.
  induction l1 as [|a1 l1 IH]; [done|].
  rewrite !bind_cons, fmap_app, IH. f_equal.
  by rewrite !bind_singleton_fmap, <-list_fmap_compose.
Qed.

(** The soft clauses and the weights in numbers: [n] is [|A|]. *)
Lemma soft_clauses_explicit (A : gset action) :
  let n := Z.of_nat (size A) in
  soft_clauses A
  = ((λ a, (n * n + 1, Action a)) <$> elements A)
    ++ (a1 ← elements A; a2 ← elements A; [(1, Order a1 a2)]).
Proof.
  intros n. unfold soft_clauses, action_cost, order_cost.
  rewrite len_orders, actions_fmap, <-list_fmap_compose. f_equal.
  unfold orders. by rewrite fmap_bind_pairs.
Qed.

Lemma top_cost_explicit (A : gset action) :
  let n := Z.of_nat (size A) in
  top_cost (orders A) (actions A) = n * n * 1 + n * (n * n + 1) + 1.
Proof.
  intros n. unfold top_cost, action_cost, order_cost.
  by rewrite len_orders, len_actions.
Qed.

Lemma cnf_inverse_lookup (cnf : CNF) (x : name aux) (v : Z) :
  cnf_inverse cnf !! x = Some v
  ↔ ∃ i, elements (cnf_vars cnf) !! i = Some x ∧ v = Z.of_nat (S i).
Proof.
  split; [apply cnf_inverse_Some|]. intros (i & Hi & ->).
  destruct (cnf_inverse cnf !! x) as [v|] eqn:Hv.
  - apply cnf_inverse_Some in Hv as (j & Hj & ->).
    assert (i = j) as ->; [|done].
    by eapply (NoDup_lookup (elements (cnf_vars cnf)));
      [apply NoDup_elements|..].
  - apply cnf_inverse_None in Hv. exfalso. apply Hv.
    apply elem_of_elements. by eapply list_elem_of_lookup_2.
Qed.

(** *** Propositions as Python tells them apart *)

Lemma no_space_with_space (x r : string) :
  PyStr.no_space (x +:+ String " " r) = false.
Proof.
  unfold PyStr.no_space. rewrite all_chars_append. simpl.
  apply andb_false_r.
Qed.

(** When actions and facts print apart and without white space, what the
    code hashes determines the fields of a proposition. *)
Lemma hashed_inj (x y : proposition) :
  (∀ a, PyStr.no_space (str_action a) = true) →
  Inj (=) (=) str_action →
  ((∀ a1 p a2, x ≠ Support a1 p a2) ∧ (∀ a1 p a2, y ≠ Support a1 p a2)
   ∨ (∀ f, PyStr.no_space (str_fact f) = true) ∧ Inj (=) (=) str_fact) →
  hashed x = hashed y → x = y.
Proof.
  intros Ha Hia Hfacts.
  assert (∀ a b r r', str_action a +:+ String " " r
                      = str_action b +:+ String " " r' → a = b ∧ r = r')
    as Hfirst.
  { intros a b r r' Heq.
    destruct (first_token_eq _ _ _ _ (Ha a) (Ha b) Heq) as [Hab ->].
    split; [by apply Hia|done]. }
  assert (∀ a b r, str_action a ≠ str_action b +:+ String " " r) as Hword.
  { intros a b r Heq. pose proof (Ha a) as Hn.
    rewrite Heq, no_space_with_space in Hn. discriminate Hn. }
  destruct x as [a|a1 a2|a1 p a2], y as [b|b1 b2|b1 q b2];
    unfold hashed, str_prop; intros Heq.
  - by apply Hia in Heq as ->.
  - by apply Hword in Heq.
  - by apply Hword in Heq.
  - symmetry in Heq. by apply Hword in Heq.
  - change (str_action a1 +:+ String " " ("-> " +:+ str_action a2)
            = str_action b1 +:+ String " " ("-> " +:+ str_action b2)) in Heq.
    destruct (Hfirst _ _ _ _ Heq) as [-> Hr].
    apply (inj (String.app "-> ")) in Hr. by apply Hia in Hr as ->.
  - change (str_action a1 +:+ String " " ("-> " +:+ str_action a2)
            = str_action b1 +:+ String " "
                ("supports " +:+ str_fact q +:+ " for " +:+ str_action b2))
      in Heq.
    destruct (Hfirst _ _ _ _ Heq) as [_ Hr]. discriminate Hr.
  - symmetry in Heq. by apply Hword in Heq.
  - change (str_action a1 +:+ String " "
              ("supports " +:+ str_fact p +:+ " for " +:+ str_action a2)
            = str_action b1 +:+ String " " ("-> " +:+ str_action b2)) in Heq.
    destruct (Hfirst _ _ _ _ Heq) as [_ Hr]. discriminate Hr.
  - destruct Hfacts as [[Hx _]|[Hf Hif]]; [by destruct (Hx a1 p a2)|].
    change (str_action a1 +:+ String " "
              ("supports " +:+ str_fact p +:+ String " "
                 ("for " +:+ str_action a2))
            = str_action b1 +:+ String " "
                ("supports " +:+ str_fact q +:+ String " "
                   ("for " +:+ str_action b2))) in Heq.
    destruct (Hfirst _ _ _ _ Heq) as [-> Hr].
    apply (inj (String.app "supports ")) in Hr.
    destruct (first_token_eq _ _ _ _ (Hf p) (Hf q) Hr) as [Hpq Hr'].
    apply Hif in Hpq as ->.
    apply (inj (String.app "for ")) in Hr'. by apply Hia in Hr' as ->.
Qed.

Lemma soft_clauses_hashed_NoDup (A : gset action) :
  (∀ a, PyStr.no_space (str_action a) = true) →
  Inj (=) (=) str_action →
  NoDup (hashed <$> (soft_clauses A).*2).
Proof.
  intros Ha Hia. apply NoDup_fmap_2_strong; [|apply soft_clauses_NoDup].
  assert (∀ x, x ∈ (soft_clauses A).*2 → ∀ a1 p a2, x ≠ Support a1 p a2)
    as Hsoft.
  { intros x Hx a1 p a2 ->.
    apply list_elem_of_fmap in Hx as ([c x] & Heq & Hx). simpl in Heq.
    subst x.
    apply soft_clauses_elem_of in Hx
      as [(a & _ & [=] & _)|(b1 & b2 & _ & _ & [=] & _)]. }
  intros x y Hx Hy Heq. apply hashed_inj; [done..| |done].
  left. split; by apply Hsoft.
Qed.

(** C4. When the encoder writes its files, the first line of the engine's
    DIMACS text had four fields, the last two being [nv] and a count [nc];
    the WCNF file is the header [p wcnf nv (nc + |actions| + |orders|)
    top_cost], then every further line of the DIMACS text, prefixed with
    [top_cost] when it is not empty, then one line [cost -var 0] per soft
    clause, in order. With [n = |A|], the soft clauses are [Action(a)] for
    each action [a] of [A], at cost [n² + 1], followed by [Order(a1,a2)] for
    each pair of actions of [A], at cost [1]; no [Support] proposition is
    among them; [var] is the 1-based position of the proposition among the
    variables of the compiled CNF, the number that the DIMACS text was
    printed with. The actions of [A] are visited once each, so these
    propositions differ pairwise in their fields, and, when actions print
    apart and without white space, in what Python hashes. *)
Theorem wcnf_file_contents (pop : POP) (args : cmdargs) (out : files) :
  encode_body pop args = Ok out →
  let A := elements (pop_A pop) in
  let n := Z.of_nat (size (pop_A pop)) in
  let top := n * n * 1 + n * (n * n + 1) + 1 in
  let soft := ((λ a, (n * n + 1, Action a)) <$> A)
              ++ (a1 ← A; a2 ← A; [(1, Order a1 a2)]) in
  ∃ cnf labels line0 rest t0 t1 nv nc m softs,
    compile_POP pop args = Ok cnf
    ∧ (∀ x v, labels !! x = Some v
         ↔ ∃ i, elements (cnf_vars cnf) !! i = Some x ∧ v = Z.of_nat (S i))
    ∧ PyStr.split_lines (PyStr.strip (dumps cnf labels)) = line0 :: rest
    ∧ PyStr.split_ws line0 = [t0; t1; nv; nc]
    ∧ PyStr.py_int nc = Some m
    ∧ wcnf_file out
      = PyStr.join (String PyStr.newline EmptyString)
          (("p wcnf " +:+ nv +:+ " " +:+ PyStr.str_int (m + n + n * n)
            +:+ " " +:+ PyStr.str_int top)
           :: ((λ l, if decide (l ≠ EmptyString)
                     then PyStr.str_int top +:+ " " +:+ l else l) <$> rest)
           ++ softs)
    ∧ Forall2
        (λ cx line,
           ∃ i, elements (cnf_vars cnf) !! i = Some (NProp cx.2)
                ∧ line = PyStr.str_int cx.1 +:+ " -"
                         +:+ PyStr.str_int (Z.of_nat (S i)) +:+ " 0")
        soft softs
    ∧ Z.of_nat (length softs) = n + n * n
    ∧ NoDup A
    ∧ NoDup soft.*2
    ∧ ((∀ a, PyStr.no_space (str_action a) = true) →
       Inj (=) (=) str_action → NoDup (hashed <$> soft.*2)).
Proof.
  intros Hout A n top soft.
  destruct (written_wcnf pop args out Hout)
    as (cnf & line0 & rest & t0 & t1 & nv & nc & m & softs
        & Hcnf & _ & Hl & Hs & Hn & Hfile & _ & Hsoft).
  rewrite (soft_clauses_explicit (pop_A pop)) in Hsoft.
  rewrite (top_cost_explicit (pop_A pop)) in Hfile.
  unfold wcnf_header in Hfile.
  rewrite (top_cost_explicit (pop_A pop)), len_actions, len_orders in Hfile.
  fold A n in Hsoft. fold soft in Hsoft. fold n top in Hfile.
  exists cnf, (cnf_inverse cnf), line0, rest, t0, t1, nv, nc, m, softs.
  split; [done|]. split; [apply cnf_inverse_lookup|]. split; [exact Hl|].
  split; [done|]. split; [done|]. split; [exact Hfile|].
  split; [exact Hsoft|]. split; [|split; [apply NoDup_elements|]].
  - apply Forall2_length in Hsoft. rewrite <-Hsoft. unfold soft.
    rewrite length_app, length_fmap, Nat2Z.inj_add.
    pose proof (len_orders (pop_A pop)) as Hlen. unfold len, orders in Hlen.
    fold A n in Hlen.
    rewrite <-(length_fmap snd (a1 ← A; a2 ← A; [(1, Order a1 a2)])).
    rewrite (fmap_bind_pairs snd (λ a1 a2, (1, Order a1 a2)) A A).
    simpl. rewrite Hlen. done.
  - unfold soft, A, n. rewrite <-(soft_clauses_explicit (pop_A pop)).
    split; [apply soft_clauses_NoDup|apply soft_clauses_hashed_NoDup].
Qed.

(** X15. Lines 174-193. Read back line by line, the written WCNF file is:
    the header [p wcnf nv (nc + |actions| + |orders|) top_cost] made from
    the first line of the engine's DIMACS text; then each further line of
    that text, prefixed with [top_cost] and a blank when it is not empty;
    then one line [cost -var 0] for each [Action(a)], at cost [n² + 1], and
    for each [Order(a1,a2)], at cost [1], with [n = |A|]. After the header
    it has as many lines as the DIMACS text had after its first line, plus
    [n + n²]. *)
Theorem wcnf_file_lines (pop : POP) (args : cmdargs) (out : files) :
  encode_body pop args = Ok out →
  let A := elements (pop_A pop) in
  let n := Z.of_nat (size (pop_A pop)) in
  let top := n * n * 1 + n * (n * n + 1) + 1 in
  let soft := ((λ a, (n * n + 1, Action a)) <$> A)
              ++ (a1 ← A; a2 ← A; [(1, Order a1 a2)]) in
  ∃ cnf labels line0 rest t0 t1 nv nc m softs,
    compile_POP pop args = Ok cnf
    ∧ (∀ x v, labels !! x = Some v
         ↔ ∃ i, elements (cnf_vars cnf) !! i = Some x ∧ v = Z.of_nat (S i))
    ∧ PyStr.split_lines (PyStr.strip (dumps cnf labels)) = line0 :: rest
    ∧ PyStr.split_ws line0 = [t0; t1; nv; nc]
    ∧ PyStr.py_int nc = Some m
    ∧ PyStr.split_lines (wcnf_file out)
      = ("p wcnf " +:+ nv +:+ " " +:+ PyStr.str_int (m + n + n * n)
         +:+ " " +:+ PyStr.str_int top)
        :: ((λ l, if decide (l ≠ EmptyString)
                  then PyStr.str_int top +:+ " " +:+ l else l) <$> rest)
        ++ softs
    ∧ Forall2
        (λ cx line,
           ∃ i, elements (cnf_vars cnf) !! i = Some (NProp cx.2)
                ∧ line = PyStr.str_int cx.1 +:+ " -"
                         +:+ PyStr.str_int (Z.of_nat (S i)) +:+ " 0")
        soft softs
    ∧ Z.of_nat (length (tail (PyStr.split_lines (wcnf_file out))))
      = Z.of_nat (length rest) + n + n * n.
Proof.
  intros Hout A n top soft.
  destruct (written_wcnf pop args out Hout)
    as (cnf & line0 & rest & t0 & t1 & nv & nc & m & softs
        & Hcnf & _ & Hl & Hs & Hn & _ & Hsplit & Hsoft).
  pose proof (Forall2_length _ _ _ Hsoft) as Hlen.
  unfold soft_clauses in Hlen. rewrite length_app, !length_fmap in Hlen.
  pose proof (len_actions (pop_A pop)) as Hla.
  pose proof (len_orders (pop_A pop)) as Hlo. unfold len in Hla, Hlo.
  rewrite (soft_clauses_explicit (pop_A pop)) in Hsoft.
  unfold wcnf_header in Hsplit.
  rewrite (top_cost_explicit (pop_A pop)), len_actions, len_orders in Hsplit.
  fold A n in Hsoft. fold soft in Hsoft. fold n top in Hsplit.
  exists cnf, (cnf_inverse cnf), line0, rest, t0, t1, nv, nc, m, softs.
  split; [done|]. split; [apply cnf_inverse_lookup|]. split; [exact Hl|].
  split; [done|]. split; [done|]. split; [exact Hsplit|].
  split; [exact Hsoft|].
  rewrite Hsplit. cbn [tail]. rewrite length_app, length_fmap. fold n in Hla, Hlo.
  lia.
Qed.

(** X16. Lines 177-178. The header of the WCNF file has the five fields [p],
    [wcnf], the variable count of the engine's header, a clause count and
    a top weight; read as integers the last two are the engine's clause
    count plus [|actions| + |orders|], and [top_cost]. *)
Theorem wcnf_header_fields (pop : POP) (args : cmdargs) (out : files) :
  encode_body pop args = Ok out →
  let acts := actions (pop_A pop) in
  let ords := orders (pop_A pop) in
  ∃ cnf nv n line0 rest count top,
    compile_POP pop args = Ok cnf
    ∧ read_header (cnflines cnf) = Ok (nv, n)
    ∧ PyStr.split_lines (wcnf_file out) = line0 :: rest
    ∧ PyStr.split_ws line0 = ["p"; "wcnf"; nv; count; top]
    ∧ PyStr.py_int count = Some (n + len acts + len ords)
    ∧ PyStr.py_int top = Some (top_cost ords acts).
Proof.
  intros Hout acts ords.
  destruct (wcnf_file_split pop args out Hout)
    as (cnf & nv & n & softs & Hcnf & Hh & Hlines & _).
  exists cnf, nv, n. eexists. eexists.
  exists (PyStr.str_int (n + len acts + len ords)),
    (PyStr.str_int (top_cost ords acts)).
  split; [done|]. split; [done|]. split; [exact Hlines|].
  split; [|by rewrite !py_int_str_int].
  pose proof (read_header_token _ _ _ Hh) as Hnv.
  unfold wcnf_header, PyStr.split_ws. fold acts ords.
  change ("p wcnf " +:+ nv +:+ " "
          +:+ PyStr.str_int (n + len acts + len ords) +:+ " "
          +:+ PyStr.str_int (top_cost ords acts))
    with ("p" +:+ String " " ("wcnf" +:+ String " " (nv +:+ String " "
           (PyStr.str_int (n + len acts + len ords) +:+ String " "
              (PyStr.str_int (top_cost ords acts)))))).
  rewrite !split_ws_token_space by (done || apply str_int_token).
  by rewrite split_ws_token_end by apply str_int_token.
Qed.

(** *** The size of the encoding *)

Lemma length_bind_app {X Y : Type} (f g : X → list Y) (l : list X) :
  length (l ≫= λ x, f x ++ g x) = (length (l ≫= f) + length (l ≫= g))%nat.
Proof.
  induction l as [|x l IH]; [done|].
  rewrite !bind_cons, !length_app, IH. lia.
Qed.

Lemma length_bind_except {X Y : Type} `{EqDecision X} (f : X → Y) (x0 : X)
  (l : list X) :
  NoDup l →
  (length (l ≫= λ x, if decide (x ≠ x0) then [f x] else [])
   + (if decide (x0 ∈ l) then 1 else 0))%nat = length l.
Proof.
  induction 1 as [|x l Hnot HND IH].
  - rewrite decide_False by apply not_elem_of_nil. done.
  - rewrite bind_cons, length_app. simpl.
    destruct (decide (x = x0)) as [->|Hne].
    + rewrite (decide_False (P := x0 ≠ x0)) by (intros Hn; by apply Hn).
      rewrite (decide_True (P := x0 ∈ x0 :: l)) by left.
      rewrite decide_False in IH by done. simpl. lia.
    + rewrite (decide_True (P := x ≠ x0)) by done. simpl.
      destruct (decide (x0 ∈ l)) as [Hin|Hin].
      * rewrite (decide_True (P := x0 ∈ x :: l)) by by right. lia.
      * rewrite (decide_False (P := x0 ∈ x :: l)); [lia|].
        intros [?|?]%elem_of_cons; done.
Qed.

(** X9. Lines 106-134. The number of clauses of each family: [|A|] for
    irreflexivity, [|A|³] for transitivity, [|A|²] for the endpoints of an
    ordering, two per action for the bracket less one when init is in [A]
    and one when goal is, and one per precondition of an action of [A]. *)
Theorem family_sizes (pop : POP) (adders : gmap fact (gset action))
  (pre : list formula) :
  let A := elements (pop_A pop) in
  let n := Z.of_nat (size (pop_A pop)) in
  len (irreflexive_clauses A) = n
  ∧ len (transitivity_clauses A) = n * n * n
  ∧ len (order_action_clauses A) = n * n
  ∧ len (bracket_clauses A (pop_init pop) (pop_goal pop))
    + (if decide (pop_init pop ∈ pop_A pop) then 1 else 0)
    + (if decide (pop_goal pop ∈ pop_A pop) then 1 else 0) = 2 * n
  ∧ (precondition_clauses A adders = Ok pre →
     len pre = len (precondition_pairs A)
     ∧ len (precondition_pairs A)
       = foldr Z.add 0 ((λ a, Z.of_nat (size (pres a))) <$> A)).
Proof.
  intros A n. unfold len.
  assert (length A = size (pop_A pop)) as HA by done.
  split_and!.
  - unfold irreflexive_clauses. by rewrite bind_singleton_fmap, length_fmap.
  - unfold transitivity_clauses.
    rewrite (length_bind_const _ _ (length A * length A)).
    + rewrite HA. unfold n. lia.
    + intros a1 _. rewrite (length_bind_const _ _ (length A)); [done|].
      intros a2 _. by rewrite bind_singleton_fmap, length_fmap.
  - unfold order_action_clauses. rewrite (length_bind_const _ _ (length A)).
    + rewrite HA. unfold n. lia.
    + intros a1 _. by rewrite bind_singleton_fmap, length_fmap.
  - unfold bracket_clauses. rewrite length_bind_app.
    pose proof (length_bind_except
      (λ a, FImp (FVar (Action a)) (FVar (Order (pop_init pop) a)))
      (pop_init pop) A (NoDup_elements _)) as Hi.
    pose proof (length_bind_except
      (λ a, FImp (FVar (Action a)) (FVar (Order a (pop_goal pop))))
      (pop_goal pop) A (NoDup_elements _)) as Hg.
    assert (∀ x : action,
              (if decide (x ∈ A) then 1 else 0)%nat
              = (if decide (x ∈ pop_A pop) then 1 else 0)%nat) as Hdec.
    { intros x. unfold A.
      destruct (decide (x ∈ pop_A pop)) as [Hx|Hx].
      - rewrite decide_True; [done|by apply elem_of_elements].
      - rewrite decide_False; [done|by rewrite elem_of_elements]. }
    rewrite Hdec in Hi, Hg.
    destruct (decide (pop_init pop ∈ pop_A pop));
      destruct (decide (pop_goal pop ∈ pop_A pop));
      unfold n; rewrite <-HA; lia.
  - intros Hpre. split.
    + pose proof (precondition_clauses_Forall2 _ _ _ Hpre) as Hall.
      apply Forall2_length in Hall. by rewrite Hall.
    + unfold precondition_pairs. clear. induction A as [|a A' IH]; [done|].
      rewrite bind_cons, length_app, Nat2Z.inj_add, IH.
      rewrite bind_singleton_fmap, length_fmap. done.
Qed.

End ReadBack.

(** ** The properties on the small domain *)

Section Runs.

Import Toy.

#[local] Existing Instance domain.
#[local] Existing Instance lifter.

Ltac by_compute := vm_compute; reflexivity.
Ltac by_ok := apply is_ok_get_ok; vm_compute; reflexivity.
Ltac by_decide := apply (bool_decide_unpack _); vm_compute; exact I.

(** C10 on [pop_bad]: action [0] adds fact [0], which is not in the empty
    [F]. *)
Lemma build_indices_KeyError_run :
  let pop' := @transativly_close domain lifter pop_bad in
  (0%nat ∈ pop_A pop' ∧ 0%nat ∈ adds 0%nat ∪ dels 0%nat ∧ 0%nat ∉ pop_F pop')
  ∧ build_indices (pop_F pop') (pop_A pop') = Raise KeyError
  ∧ (@encode_POP domain lifter printing_engine pop_bad all_options).2
    = Raise KeyError.
Proof.
  assert (0%nat ∈ pop_A (transativly_close pop_bad)) as H1 by by_decide.
  assert (0%nat ∈ @adds domain 0%nat ∪ @dels domain 0%nat) as H2 by by_decide.
  assert (0%nat ∉ pop_F (transativly_close pop_bad)) as H3 by by_decide.
  split; [done|].
  exact (@build_indices_KeyError domain lifter printing_engine pop_bad
           all_options 0%nat 0%nat H1 H2 H3).
Defined.


(** C3 on [pop0], the three actions init, goal and a2. *)
Example weights_pop0 :
  action_cost (orders (pop_A pop0)) = 10
  ∧ top_cost (orders (pop_A pop0)) (actions (pop_A pop0)) = 40.
Proof. split; by_compute. Qed.

(** The smallest plan with the printing engine: 2 actions and 4 orderings,
    so [action_cost] is 5 and [top_cost] is 15; the 20 lines of the engine
    are followed by 2 soft clauses of weight 5 and 4 of weight 1. *)
Example smallest_plan_wcnf :
  PyStr.split_lines (wcnf_file (files_of pop2 no_options))
  = ["p wcnf 7 26 15"; "15 -5 0"; "15 -3 0"; "15 -5 -5 5 0";
     "15 -5 -4 4 0"; "15 -4 -2 5 0"; "15 -4 -3 4 0"; "15 -2 -5 2 0";
     "15 -2 -4 3 0"; "15 -3 -2 2 0"; "15 -3 -3 3 0"; "15 -5 6 6 0";
     "15 -4 6 7 0"; "15 -2 7 6 0"; "15 -3 7 7 0"; "15 -6 2 0";
     "15 -7 2 0"; "15 7 0"; "15 6 0"; "15 -6 1 0"; "15 -1 2 0"; "5 -6 0";
     "5 -7 0"; "1 -5 0"; "1 -4 0"; "1 -2 0"; "1 -3 0"].
Proof. by_compute. Qed.

(** C5 on [pop1] with every option on: 4 actions and 3 links. *)
Lemma option_effects_run :
  hard_clauses pop1 (mkArgs false false false)
    (indices_of pop1).1 (indices_of pop1).2
  = Ok (clauses_of pop1 no_options)
  ∧ ∃ S AL DE,
      hard_clauses pop1 all_options (indices_of pop1).1 (indices_of pop1).2
      = Ok (clauses_of pop1 no_options ++ S ++ AL ++ DE)
      ∧ len S = 12 ∧ len AL = 4 ∧ len DE = 3
      ∧ FImp (FAnd [FVar (Action 0%nat); FVar (Action 1%nat)])
             (FOr [FVar (Order 0%nat 1%nat); FVar (Order 1%nat 0%nat)]) ∈ S.
Proof.
  assert (hard_clauses pop1 (mkArgs false false false)
            (indices_of pop1).1 (indices_of pop1).2
          = Ok (clauses_of pop1 no_options)) as Hbase by by_ok.
  split; [exact Hbase|].
  destruct (@option_effects domain lifter pop1 all_options _ _ _ Hbase)
    as (S & AL & DE & Hc & (HS & _ & HS') & (_ & HAL) & (_ & HDE)).
  exists S, AL, DE. split; [exact Hc|].
  rewrite HS, HAL, HDE. split; [by_compute|]. split; [by_compute|].
  split; [by_compute|].
  apply HS'. exists 0%nat, 1%nat. split; [by_decide|]. split; [by_decide|].
  split; [lia|reflexivity].
Defined.

(** C1 on [pop1]. The goal requires p, which init adds: its clause has the
    one disjunct [Support(init, p, goal)]. Action [3] requires q and is the
    only action that adds q: its clause has an empty disjunction, so no
    satisfying assignment contains it. *)
Lemma precondition_support_run :
  hard_clauses pop1 no_options (indices_of pop1).1 (indices_of pop1).2
  = Ok (clauses_of pop1 no_options)
  ∧ (indices_of pop1).1 !! (0%nat : @fact domain) = Some {[0%nat]}
  ∧ (indices_of pop1).1 !! (1%nat : @fact domain) = Some {[3%nat]}
  ∧ FImp (FVar (Action 1%nat)) (FOr [FVar (Support 0%nat 0%nat 1%nat)])
    ∈ clauses_of pop1 no_options
  ∧ FImp (FVar (Action 3%nat)) (FOr []) ∈ clauses_of pop1 no_options
  ∧ ∀ v, satisfies v (clauses_of pop1 no_options) → v (Action 3%nat) = false.
Proof.
  assert (hard_clauses pop1 no_options (indices_of pop1).1 (indices_of pop1).2
          = Ok (clauses_of pop1 no_options)) as Hc by by_ok.
  assert ((indices_of pop1).1 !! (0%nat : @fact domain)
          = Some ({[0%nat]} : gset nat)) as Hs0 by by_decide.
  assert ((indices_of pop1).1 !! (1%nat : @fact domain)
          = Some ({[3%nat]} : gset nat)) as Hs by by_decide.
  split; [exact Hc|]. split; [exact Hs0|]. split; [exact Hs|].
  destruct (@precondition_support domain lifter pop1 no_options _ _ _ Hc)
    as ((_ & Hpairs) & Hall & Hforced).
  split.
  - assert ((1%nat, 0%nat)
            ∈ @precondition_pairs domain (elements (pop_A pop1))) as Hpair.
    { apply Hpairs. split; by_decide. }
    destruct (Forall2_elem_of_l _ _ _ _ Hall Hpair)
      as (c & Hin & s & Hs' & ->).
    apply list_elem_of_filter in Hin as [_ Hin]. simpl in Hs', Hin.
    pose proof (eq_trans (eq_sym Hs') Hs0) as Heq. injection Heq as ->.
    rewrite elements_singleton in Hin. exact Hin.
  - apply (Hforced 3%nat 1%nat {[3%nat]}).
    + by_decide.
    + by_decide.
    + exact Hs.
    + intros a1 Ha1. by apply elem_of_singleton in Ha1.
Defined.

(** C2 on [pop1]: init supports p for goal and a2 deletes p. *)
Lemma threat_resolution_run :
  hard_clauses pop1 no_options (indices_of pop1).1 (indices_of pop1).2
  = Ok (clauses_of pop1 no_options)
  ∧ (indices_of pop1).1 !! 0%nat = Some {[0%nat]}
  ∧ (indices_of pop1).2 !! 0%nat = Some {[2%nat]}
  ∧ FImp (FVar (Support 0%nat 0%nat 1%nat))
         (FOr [FOr [FNot (FVar (Action 2%nat)); FVar (Order 2%nat 0%nat)];
               FVar (Order 1%nat 2%nat)]) ∈ clauses_of pop1 no_options
  ∧ ∀ v, satisfies v (clauses_of pop1 no_options) →
         v (Support 0%nat 0%nat 1%nat) = true →
         v (Action 2%nat) = false ∨ v (Order 2%nat 0%nat) = true
         ∨ v (Order 1%nat 2%nat) = true.
Proof.
  assert (hard_clauses pop1 no_options (indices_of pop1).1 (indices_of pop1).2
          = Ok (clauses_of pop1 no_options)) as Hc by by_ok.
  assert ((indices_of pop1).1 !! 0%nat = Some ({[0%nat]} : gset nat)) as Hs
    by by_decide.
  assert ((indices_of pop1).2 !! 0%nat = Some ({[2%nat]} : gset nat)) as Hd
    by by_decide.
  split; [exact Hc|]. split; [exact Hs|]. split; [exact Hd|].
  apply (@threat_resolution domain lifter pop1 no_options _ _ _
           0%nat 1%nat 2%nat 0%nat {[0%nat]} {[2%nat]} Hc).
  - by_decide.
  - by_decide.
  - exact Hs.
  - by_decide.
  - by_decide.
  - exact Hd.
  - by_decide.
  - by_decide.
  - by_decide.
Defined.

(** C8 on [pop0] with the printing engine. *)
Lemma map_file_contents_run :
  @encode_body domain lifter printing_engine pop0 no_options
  = Ok (files_of pop0 no_options)
  ∧ ∃ cnf : @CNF domain printing_engine,
      compile_POP pop0 no_options = Ok cnf
      ∧ ∀ x, @str_name domain printing_engine (NProp x) = str_prop x.
Proof.
  assert (@encode_body domain lifter printing_engine pop0 no_options
          = Ok (files_of pop0 no_options)) as Hout by by_ok.
  split; [exact Hout|].
  destruct (@map_file_contents domain lifter printing_engine pop0 no_options
              _ Hout) as (cnf & Hcnf & _ & Hstr).
  exists cnf. split; [exact Hcnf|]. intros x. by rewrite Hstr.
Defined.

(** C8 as it is worded fails on [pop0]: [Action(init)] is a variable of the
    compiled CNF, and the map file describes it as [init in plan]; the
    text [Action(] occurs nowhere in the file. *)
Lemma map_file_not_spec_descriptions :
  @encode_body domain lifter printing_engine pop0 no_options
  = Ok (files_of pop0 no_options)
  ∧ @compile_POP domain lifter printing_engine pop0 no_options
    = Ok (clauses_of pop0 no_options)
  ∧ NProp (Action 0%nat) ∈ (@cnf_vars domain printing_engine
                              (clauses_of pop0 no_options))
  ∧ map_file (files_of pop0 no_options)
    ≠ @spec_map_file domain printing_engine (clauses_of pop0 no_options)
  ∧ PyStr.contains "Action(" (map_file (files_of pop0 no_options)) = false
  ∧ PyStr.contains "init in plan" (map_file (files_of pop0 no_options)) = true.
Proof.
  split; [by_ok|]. split; [by_ok|]. split; [by_decide|]. split.
  - intros Heq.
    apply (f_equal (PyStr.contains "Action(")) in Heq.
    vm_compute in Heq. discriminate Heq.
  - split; by_compute.
Qed.

(** C9 on [pop0] with the engine that keeps no variable: the header is
    accepted and the first soft clause raises [KeyError]. *)
Lemma absent_variable_raises_run :
  @compile_POP domain lifter erasing_engine pop0 no_options = Ok []
  ∧ (NProp (Action 0%nat) ∉ @cnf_vars domain erasing_engine [])
  ∧ @encode_body domain lifter erasing_engine pop0 no_options = Raise KeyError.
Proof.
  assert (@compile_POP domain lifter erasing_engine pop0 no_options = Ok [])
    as Hcnf by by_compute.
  assert (NProp (Action 0%nat) ∉ (@cnf_vars domain erasing_engine [])) as Hnot
    by by_decide.
  split; [exact Hcnf|]. split; [exact Hnot|].
  destruct (@absent_variable_raises domain lifter erasing_engine pop0
              no_options [] Hcnf) as [Habsent _].
  destruct (Habsent (@Action domain 0%nat)) as (e & He & Hkey).
  - left. exists (0%nat : @action domain). split; [by_decide|reflexivity].
  - exact Hnot.
  - rewrite He. f_equal. apply Hkey. exists ("0", 0). by_compute.
Defined.

(** *** Further runs *)

(** The indices of [pop1]: q is added by action [3] alone. *)
Lemma indices_contents_run :
  build_indices (pop_F pop1) (pop_A pop1) = Ok (indices_of pop1)
  ∧ dom (indices_of pop1).1 = pop_F pop1
  ∧ ∀ s, (indices_of pop1).1 !! 1%nat = Some s →
         ∀ a : nat, a ∈ s ↔ a ∈ pop_A pop1 ∧ 1%nat ∈ @adds domain a.
Proof.
  assert (build_indices (pop_F pop1) (pop_A pop1) = Ok (indices_of pop1))
    as Hidx by by_ok.
  split; [exact Hidx|].
  destruct (@indices_contents domain _ _ _ Hidx) as (Hd & _ & Ha & _).
  split; [exact Hd|]. intros s. apply Ha.
Defined.

(** [pop_nopre]: action [1] requires p and [F] is empty. *)
Lemma compile_POP_Ok_iff_run :
  @compile_POP domain lifter printing_engine pop_nopre no_options
  = Raise KeyError
  ∧ ¬ ∀ a : nat, a ∈ pop_A pop_nopre →
        @pres domain a ∪ @adds domain a ∪ @dels domain a ⊆ pop_F pop_nopre.
Proof.
  assert (@compile_POP domain lifter printing_engine pop_nopre no_options
          = Raise KeyError) as Hr by by_compute.
  split; [exact Hr|]. intros Hall.
  destruct (@compile_POP_Ok_iff domain lifter printing_engine pop_nopre
              no_options) as [[_ Hok] _].
  destruct (Hok Hall) as [cnf Hcnf]. rewrite Hr in Hcnf. discriminate Hcnf.
Defined.

(** [kept_plan] satisfies the clauses of [pop0]. *)
Lemma order_strict_partial_order_run :
  hard_clauses pop0 no_options (indices_of pop0).1 (indices_of pop0).2
  = Ok (clauses_of pop0 no_options)
  ∧ satisfies kept_plan (clauses_of pop0 no_options)
  ∧ ∀ a1 a2 : nat, a1 ∈ pop_A pop0 → a2 ∈ pop_A pop0 →
      kept_plan (Order a1 a2) = true → kept_plan (Order a2 a1) = false.
Proof.
  assert (hard_clauses pop0 no_options (indices_of pop0).1 (indices_of pop0).2
          = Ok (clauses_of pop0 no_options)) as Hc by by_ok.
  assert (satisfies kept_plan (clauses_of pop0 no_options)) as Hv
    by (apply forallb_satisfies; by_compute).
  split; [exact Hc|]. split; [exact Hv|].
  apply (@order_strict_partial_order domain lifter pop0 no_options _ _ _
           kept_plan Hc Hv).
Defined.

Lemma init_goal_bracket_run :
  hard_clauses pop0 no_options (indices_of pop0).1 (indices_of pop0).2
  = Ok (clauses_of pop0 no_options)
  ∧ satisfies kept_plan (clauses_of pop0 no_options)
  ∧ kept_plan (Action (pop_init pop0)) = true
  ∧ (pop_init pop0 ∈ pop_A pop0 →
       ∀ a : nat, a ∈ pop_A pop0 → kept_plan (Order a (pop_init pop0)) = false).
Proof.
  assert (hard_clauses pop0 no_options (indices_of pop0).1 (indices_of pop0).2
          = Ok (clauses_of pop0 no_options)) as Hc by by_ok.
  assert (satisfies kept_plan (clauses_of pop0 no_options)) as Hv
    by (apply forallb_satisfies; by_compute).
  split; [exact Hc|]. split; [exact Hv|].
  destruct (@init_goal_bracket domain lifter pop0 no_options _ _ _
              kept_plan Hc Hv) as ([Hi _] & _ & _ & Hfirst & _).
  split; [exact Hi|exact Hfirst].
Defined.

(** In [pop0] the goal requires p: init supports it, and the deleter a2 is
    not kept. *)
Lemma support_soundness_run :
  hard_clauses pop0 no_options (indices_of pop0).1 (indices_of pop0).2
  = Ok (clauses_of pop0 no_options)
  ∧ satisfies kept_plan (clauses_of pop0 no_options)
  ∧ ∃ (s d : gset nat) (a1 : nat),
      (indices_of pop0).1 !! 0%nat = Some s
      ∧ (indices_of pop0).2 !! 0%nat = Some d
      ∧ a1 ∈ s ∧ a1 ≠ 1%nat
      ∧ kept_plan (Support a1 0%nat 1%nat) = true
      ∧ kept_plan (Order a1 1%nat) = true.
Proof.
  assert (hard_clauses pop0 no_options (indices_of pop0).1 (indices_of pop0).2
          = Ok (clauses_of pop0 no_options)) as Hc by by_ok.
  assert (satisfies kept_plan (clauses_of pop0 no_options)) as Hv
    by (apply forallb_satisfies; by_compute).
  split; [exact Hc|]. split; [exact Hv|].
  assert ((1%nat : @action domain) ∈ pop_A pop0) as Ha by by_decide.
  assert ((0%nat : @fact domain) ∈ @pres domain 1%nat) as Hp by by_decide.
  destruct (@support_soundness domain lifter pop0 no_options _ _ _
              kept_plan 1%nat 0%nat Hc Hv Ha Hp eq_refl)
    as (s & d & a1 & Hs & Hd & Ha1 & Hne & Hsup & Hord & _).
  exists s, d, a1. done.
Defined.

(** In [pop_self] the goal is action [3], which requires q and alone adds
    it. *)
Lemma unsupported_endpoint_unsatisfiable_run :
  hard_clauses pop_self no_options
    (indices_of pop_self).1 (indices_of pop_self).2
  = Ok (clauses_of pop_self no_options)
  ∧ (indices_of pop_self).1 !! 1%nat = Some {[3%nat]}
  ∧ ∀ v, ¬ satisfies v (clauses_of pop_self no_options).
Proof.
  assert (hard_clauses pop_self no_options
            (indices_of pop_self).1 (indices_of pop_self).2
          = Ok (clauses_of pop_self no_options)) as Hc by by_ok.
  assert ((indices_of pop_self).1 !! 1%nat = Some ({[3%nat]} : gset nat))
    as Hs by by_decide.
  split; [exact Hc|]. split; [exact Hs|].
  apply (@unsupported_endpoint_unsatisfiable domain lifter pop_self no_options
           _ _ _ 3%nat 1%nat {[3%nat]} Hc).
  - by_decide.
  - right. reflexivity.
  - by_decide.
  - exact Hs.
  - intros a1 Ha1. by apply elem_of_singleton in Ha1.
Defined.

(** [pop2] with every option on: init and goal are ordered one way. *)
Lemma serial_total_order_run :
  hard_clauses pop2 all_options (indices_of pop2).1 (indices_of pop2).2
  = Ok (clauses_of pop2 all_options)
  ∧ satisfies kept_plan (clauses_of pop2 all_options)
  ∧ ((kept_plan (Order 0%nat 1%nat) = true
      ∧ kept_plan (Order 1%nat 0%nat) = false)
     ∨ (kept_plan (Order 1%nat 0%nat) = true
        ∧ kept_plan (Order 0%nat 1%nat) = false)).
Proof.
  assert (hard_clauses pop2 all_options (indices_of pop2).1 (indices_of pop2).2
          = Ok (clauses_of pop2 all_options)) as Hc by by_ok.
  assert (satisfies kept_plan (clauses_of pop2 all_options)) as Hv
    by (apply forallb_satisfies; by_compute).
  split; [exact Hc|]. split; [exact Hv|].
  apply (@serial_total_order domain lifter pop2 all_options _ _ _ kept_plan
           0%nat 1%nat Hc eq_refl Hv).
  - by_decide.
  - by_decide.
  - lia.
  - reflexivity.
  - reflexivity.
Defined.

Lemma allact_deorder_semantics_run :
  hard_clauses pop2 all_options (indices_of pop2).1 (indices_of pop2).2
  = Ok (clauses_of pop2 all_options)
  ∧ satisfies kept_plan (clauses_of pop2 all_options)
  ∧ (∀ a : nat, a ∈ pop_A pop2 → kept_plan (Action a) = true)
  ∧ (∀ ai aj : nat, (ai, aj) ∈ @get_links domain lifter pop2 →
       kept_plan (Order aj ai) = false).
Proof.
  assert (hard_clauses pop2 all_options (indices_of pop2).1 (indices_of pop2).2
          = Ok (clauses_of pop2 all_options)) as Hc by by_ok.
  assert (satisfies kept_plan (clauses_of pop2 all_options)) as Hv
    by (apply forallb_satisfies; by_compute).
  split; [exact Hc|]. split; [exact Hv|].
  destruct (@allact_deorder_semantics domain lifter pop2 all_options _ _ _
              kept_plan Hc Hv) as [Hall Hde].
  split.
  - intros a Ha. by destruct (Hall eq_refl a Ha).
  - exact (Hde eq_refl).
Defined.

(** [Order(a2, goal)] of [pop0] gets a soft clause. *)
Lemma soft_propositions_occur_run :
  hard_clauses pop0 no_options (indices_of pop0).1 (indices_of pop0).2
  = Ok (clauses_of pop0 no_options)
  ∧ Order 2%nat 1%nat ∈ actions (pop_A pop0) ++ orders (pop_A pop0)
  ∧ ∃ c, c ∈ clauses_of pop0 no_options ∧ Order 2%nat 1%nat ∈ props_of c.
Proof.
  assert (hard_clauses pop0 no_options (indices_of pop0).1 (indices_of pop0).2
          = Ok (clauses_of pop0 no_options)) as Hc by by_ok.
  assert (@Order domain 2%nat 1%nat
          ∈ actions (pop_A pop0) ++ orders (pop_A pop0)) as Hx by by_decide.
  split; [exact Hc|]. split; [exact Hx|].
  exact (@soft_propositions_occur domain lifter pop0 no_options _ _ _ _ Hc Hx).
Defined.

(** The precondition clause of the goal of [pop2] holds
    [Support(init, p, goal)]. *)
Lemma support_occurrences_run :
  let adders := (indices_of pop2).1 in
  let c :=
    precondition_clause (default ∅ (adders !! (0%nat : @fact domain)))
      0%nat 1%nat in
  let sups := get_ok [] (supports (pop_A pop2) adders) in
  hard_clauses pop2 no_options adders (indices_of pop2).2
  = Ok (clauses_of pop2 no_options)
  ∧ supports (pop_A pop2) adders = Ok sups
  ∧ c ∈ clauses_of pop2 no_options
  ∧ Support 0%nat 0%nat 1%nat ∈ props_of c
  ∧ Support 0%nat 0%nat 1%nat ∈ sups.
Proof.
  intros adders c sups.
  assert (hard_clauses pop2 no_options adders (indices_of pop2).2
          = Ok (clauses_of pop2 no_options)) as Hc by by_ok.
  assert (supports (pop_A pop2) adders = Ok sups) as Hsups by by_ok.
  assert (c ∈ clauses_of pop2 no_options) as Hin.
  { destruct (@precondition_clause_elem_of domain lifter pop2 no_options
                _ _ _ 1%nat 0%nat Hc) as (s & Hs & Hin); [by_decide..|].
    subst c. unfold adders in *. by rewrite Hs. }
  assert (@Support domain 0%nat 0%nat 1%nat ∈ props_of c) as Hocc by by_decide.
  split; [exact Hc|]. split; [exact Hsups|]. split; [exact Hin|].
  split; [exact Hocc|].
  by destruct (@support_occurrences domain lifter pop2 no_options _ _ _ _ c
                 0%nat 1%nat 0%nat Hc Hsups Hin Hocc) as (_ & _ & _ & _ & ?).
Defined.

(** The variables of the clauses of [pop2], with the printing engine. *)
Lemma variable_numbering_run :
  let cnf : @CNF domain printing_engine := clauses_of pop2 no_options in
  (∀ n, n ∈ cnf_vars cnf ↔ is_Some (cnf_inverse cnf !! n))
  ∧ (cnf_labels cnf).*2 = elements (cnf_vars cnf).
Proof.
  intros cnf.
  destruct (@variable_numbering domain printing_engine cnf)
    as (_ & _ & Hdom & Hlabels).
  split; [exact Hdom|exact Hlabels].
Defined.

(** The silent engine prints nothing: the first line does not hold
    [p cnf]. *)
Lemma encode_body_exceptions_run :
  @encode_body domain lifter silent_engine pop2 no_options
  = Raise AssertionError
  ∧ ∃ (cnf : @CNF domain silent_engine) line0 rest,
      compile_POP pop2 no_options = Ok cnf ∧ cnflines cnf = line0 :: rest
      ∧ PyStr.contains "p cnf" line0 = false.
Proof.
  assert (@encode_body domain lifter silent_engine pop2 no_options
          = Raise AssertionError) as Hr by by_compute.
  split; [exact Hr|].
  destruct (@encode_body_exceptions domain lifter silent_engine pop2
              no_options) as [Hcases _].
  destruct (Hcases _ Hr) as [[He _]|(cnf & line0 & rest & Hcnf & Hl & Hcase)];
    [discriminate He|].
  exists cnf, line0, rest. split; [exact Hcnf|]. split; [exact Hl|].
  destruct Hcase as [[_ Hno]|[[He _]|[He _]]];
    [exact Hno|discriminate He..].
Defined.

Lemma wcnf_header_fields_run :
  @encode_body domain lifter printing_engine pop0 no_options
  = Ok (files_of pop0 no_options)
  ∧ ∃ line0 rest nv count top,
      PyStr.split_lines (wcnf_file (files_of pop0 no_options)) = line0 :: rest
      ∧ PyStr.split_ws line0 = ["p"; "wcnf"; nv; count; top]
      ∧ PyStr.py_int top = Some 40.
Proof.
  assert (@encode_body domain lifter printing_engine pop0 no_options
          = Ok (files_of pop0 no_options)) as Hout by by_ok.
  split; [exact Hout|].
  destruct (@wcnf_header_fields domain lifter printing_engine pop0 no_options
              _ Hout)
    as (cnf & nv & n & line0 & rest & count & top & _ & _ & Hl & Hf & _ & Ht).
  exists line0, rest, nv, count, top.
  split; [exact Hl|]. split; [exact Hf|]. rewrite Ht. by_compute.
Defined.

(** The clause families of [pop0]: three actions, one precondition. *)
Lemma family_sizes_run :
  let A := elements (pop_A pop0) in
  let pre := get_ok [] (precondition_clauses A (indices_of pop0).1) in
  precondition_clauses A (indices_of pop0).1 = Ok pre
  ∧ len (transitivity_clauses A) = 27
  ∧ len (bracket_clauses A (pop_init pop0) (pop_goal pop0)) = 4
  ∧ len pre = 1.
Proof.
  intros A pre.
  assert (precondition_clauses A (indices_of pop0).1 = Ok pre) as Hpre
    by by_ok.
  split; [exact Hpre|].
  destruct (@family_sizes domain pop0 (indices_of pop0).1 pre)
    as (_ & Htr & _ & Hbr & Hcount).
  fold A in Htr, Hbr, Hcount.
  split; [rewrite Htr; by_compute|]. split.
  - rewrite decide_True in Hbr by by_decide.
    rewrite decide_True in Hbr by by_decide.
    assert (Z.of_nat (size (pop_A pop0)) = 3) as Hn by by_compute.
    rewrite Hn in Hbr. lia.
  - destruct (Hcount Hpre) as [-> ->]. by_compute.
Defined.

Lemma split_lines_join_run :
  PyStr.split_lines
    (PyStr.join (String PyStr.newline EmptyString) ["p wcnf 1 2 3"; "3 1 0"])
  = ["p wcnf 1 2 3"; "3 1 0"].
Proof.
  apply split_lines_join; [discriminate|].
  repeat constructor.
Defined.

Lemma numbered_no_space (c : ascii) (n : nat) :
  PyStr.is_space c = false →
  PyStr.no_space (String c (PyStr.str_int (Z.of_nat n))) = true.
Proof.
  intros Hc. pose proof (str_int_no_space (Z.of_nat n)) as Hn.
  unfold PyStr.no_space in *. simpl. by rewrite Hc, Hn.
Qed.

Lemma numbered_inj (c : ascii) :
  Inj (=) (=) (λ n : nat, String c (PyStr.str_int (Z.of_nat n))).
Proof.
  intros n m Heq. injection Heq as Heq.
  apply (f_equal PyStr.py_int) in Heq. rewrite !py_int_str_int in Heq.
  injection Heq as Heq. by apply Nat2Z.inj.
Qed.

(** In [numbered_domain] actions print as [a0], [a1], ... and facts as
    [f0], [f1], ... *)
Lemma str_prop_injective_run :
  (∀ a, PyStr.no_space (@str_action numbered_domain a) = true)
  ∧ (∀ f, PyStr.no_space (@str_fact numbered_domain f) = true)
  ∧ Inj (=) (=) (@str_action numbered_domain)
  ∧ Inj (=) (=) (@str_fact numbered_domain)
  ∧ ∀ x y : @proposition numbered_domain, str_prop x = str_prop y → x = y.
Proof.
  assert (∀ a, PyStr.no_space (@str_action numbered_domain a) = true) as Ha
    by (intros a; by apply numbered_no_space).
  assert (∀ f, PyStr.no_space (@str_fact numbered_domain f) = true) as Hf
    by (intros f; by apply numbered_no_space).
  assert (Inj (=) (=) (@str_action numbered_domain)) as Hia
    by apply numbered_inj.
  assert (Inj (=) (=) (@str_fact numbered_domain)) as Hif
    by apply numbered_inj.
  split; [exact Ha|]. split; [exact Hf|]. split; [exact Hia|].
  split; [exact Hif|].
  intros x y. by apply (@str_prop_injective numbered_domain).
Defined.

(** The names of the small domain print apart. *)
Lemma toy_str_action_no_space (a : nat) :
  PyStr.no_space (toy_str_action a) = true.
Proof.
  destruct a as [|[|a]]; [reflexivity..|]. by apply numbered_no_space.
Qed.

Lemma toy_str_action_inj : Inj (=) (=) toy_str_action.
Proof.
  intros a b Heq.
  destruct a as [|[|a]], b as [|[|b]]; try reflexivity;
    try discriminate Heq.
  by apply (numbered_inj "a") in Heq.
Qed.

(** C4 on [pop0] with the printing engine: [n] is 3, so [top_cost] is 40,
    and there are 3 [Action] and 9 [Order] soft clauses. *)
Lemma wcnf_file_contents_run :
  @encode_body domain lifter printing_engine pop0 no_options
  = Ok (files_of pop0 no_options)
  ∧ ∃ (cnf : @CNF domain printing_engine) rest nv m softs,
      compile_POP pop0 no_options = Ok cnf
      ∧ wcnf_file (files_of pop0 no_options)
        = PyStr.join (String PyStr.newline EmptyString)
            (("p wcnf " +:+ nv +:+ " " +:+ PyStr.str_int (m + 3 + 3 * 3)
              +:+ " " +:+ PyStr.str_int 40)
             :: ((λ l, if decide (l ≠ EmptyString)
                       then PyStr.str_int 40 +:+ " " +:+ l else l) <$> rest)
             ++ softs)
      ∧ Z.of_nat (length softs) = 12
      ∧ NoDup (hashed
                 <$> (((λ a, (10, Action a)) <$> elements (pop_A pop0))
                      ++ (a1 ← elements (pop_A pop0);
                          a2 ← elements (pop_A pop0);
                          [(1, Order a1 a2)])).*2).
Proof.
  assert (@encode_body domain lifter printing_engine pop0 no_options
          = Ok (files_of pop0 no_options)) as Hout by by_ok.
  split; [exact Hout|].
  destruct (@wcnf_file_contents domain lifter printing_engine pop0 no_options
              _ Hout)
    as (cnf & labels & line0 & rest & t0 & t1 & nv & nc & m & softs
        & Hcnf & _ & _ & _ & _ & Hfile & _ & Hlen & _ & _ & Hhash).
  assert (Z.of_nat (size (pop_A pop0)) = 3) as Hn by by_compute.
  rewrite Hn in Hfile, Hlen, Hhash.
  exists cnf, rest, nv, m, softs. split; [exact Hcnf|].
  split; [exact Hfile|]. split; [exact Hlen|].
  apply Hhash; [apply toy_str_action_no_space|apply toy_str_action_inj].
Defined.

(** X15 on [pop0] with the printing engine. *)
Lemma wcnf_file_lines_run :
  @encode_body domain lifter printing_engine pop0 no_options
  = Ok (files_of pop0 no_options)
  ∧ ∃ (cnf : @CNF domain printing_engine) rest nv m softs,
      compile_POP pop0 no_options = Ok cnf
      ∧ PyStr.split_lines (wcnf_file (files_of pop0 no_options))
        = ("p wcnf " +:+ nv +:+ " " +:+ PyStr.str_int (m + 3 + 3 * 3)
           +:+ " " +:+ PyStr.str_int 40)
          :: ((λ l, if decide (l ≠ EmptyString)
                    then PyStr.str_int 40 +:+ " " +:+ l else l) <$> rest)
          ++ softs
      ∧ Z.of_nat (length (tail (PyStr.split_lines
                                  (wcnf_file (files_of pop0 no_options)))))
        = Z.of_nat (length rest) + 3 + 3 * 3.
Proof.
  assert (@encode_body domain lifter printing_engine pop0 no_options
          = Ok (files_of pop0 no_options)) as Hout by by_ok.
  split; [exact Hout|].
  destruct (@wcnf_file_lines domain lifter printing_engine pop0 no_options
              _ Hout)
    as (cnf & labels & line0 & rest & t0 & t1 & nv & nc & m & softs
        & Hcnf & _ & _ & _ & _ & Hsplit & _ & Hlen).
  assert (Z.of_nat (size (pop_A pop0)) = 3) as Hn by by_compute.
  rewrite Hn in Hsplit, Hlen.
  exists cnf, rest, nv, m, softs. split; [exact Hcnf|].
  split; [exact Hsplit|exact Hlen].
Defined.


End Runs.
